(** * restic-reporter: a shallow embedding of the collector and its properties

    The development follows the Go sources file by file:
    - [float64], [time]: the parts of the Go runtime the exporter relies on
      (IEEE-754 binary64 arithmetic, [time.Time], [time.Duration]);
    - [snapshot_info.go]: [snapshotInfo], [DayAge], [IsLegacy],
      [SnapshotCollection], [Add];
    - the configuration source: [configEntry], [ExtraConfig], [NewConfigFileFromFile];
    - [restic_backend.go]: [openResticBackend], [collectionFromAllSnapshots];
    - [restic_collector.go]: [ReloadConfig], [gatherOne], [GatherMetrics],
      [Collect];
    - [main.go]: the start-up sequence and the signal loop, as a transition
      system over the goroutines that touch the collector.

    Definitions come first, the theorems about them second; a third part
    proves further properties of the same definitions, among them of
    [Describe] and [Shutdown]. *)

From Stdlib Require Import ZArith QArith Qround Qpower Qabs Lia Lqa Permutation.
From Stdlib Require SpecFloat.
From stdpp Require Import gmap strings list.

Local Open Scope string_scope.
Local Open Scope list_scope.
Local Open Scope Z_scope.

(* ===================================================================== *)
(** * Part I: definitions                                                 *)
(* ===================================================================== *)

(** ** Go machine integers *)

(** Go's [int] and [int64] on the 64-bit targets the exporter is built for:
    arithmetic wraps around modulo 2^64 into the signed range. *)
Definition int64_wrap (z : Z) : Z := (z + 2 ^ 63) mod 2 ^ 64 - 2 ^ 63.

Definition minInt64 : Z := - 2 ^ 63.
Definition maxInt64 : Z := 2 ^ 63 - 1.

(** ** float64

    A finite binary64 value is represented by the rational it denotes.
    IEEE-754 defines every arithmetic operation as the exact result rounded
    to the nearest representable value, ties to even; [round64] is that
    rounding for the finite range (53 bits of precision, least exponent
    -1074).  Infinities and NaN never arise from the values the exporter
    feeds in (conversions of 64-bit integers, one sum, quotients by
    non-zero constants) and are not represented. *)
Module float64.

(** For [x > 0], the exponent [e] with [2^e <= x < 2^(e+1)]. *)
Definition Qlog2 (x : Q) : Z :=
  let e0 := Z.log2 (Qnum x) - Z.log2 (Zpos (Qden x)) in
  if Qle_bool (2 ^ e0)%Q x then e0 else e0 - 1.

(** Nearest integer, ties to the even one. *)
Definition rnd_ne (x : Q) : Z :=
  let f := Qfloor x in
  match Qcompare (x - inject_Z f) (1 # 2) with
  | Lt => f
  | Gt => f + 1
  | Eq => if Z.even f then f else f + 1
  end.

(** Exponent of the unit in the last place of the format at [x > 0]. *)
Definition ulp_exp (x : Q) : Z := Z.max (Qlog2 x - 52) (-1074).

Definition round_pos (x : Q) : Q :=
  (inject_Z (rnd_ne (x / 2 ^ ulp_exp x)) * 2 ^ ulp_exp x)%Q.

Definition round64 (x : Q) : Q :=
  match Qnum x with
  | Z0 => 0%Q
  | Zpos _ => round_pos x
  | Zneg _ => (- round_pos (- x))%Q
  end.

(** [float64(z)] for an integer [z]. *)
Definition of_int (z : Z) : Q := round64 (inject_Z z).
(** [x + y] and [x / y] on float64. *)
Definition add (x y : Q) : Q := round64 (x + y).
Definition div (x y : Q) : Q := round64 (x / y).
(** [int(x)]: the fraction is discarded (truncation toward zero). *)
Definition to_int (x : Q) : Z := Z.quot (Qnum x) (Zpos (Qden x)).

(** The same operations through the Standard Library's specification of
    IEEE-754 binary64, used to cross-check [round64] on concrete inputs. *)
Definition sf_of_int (z : Z) : SpecFloat.spec_float :=
  SpecFloat.binary_normalize 53 1024 z 0 false.
Definition sf_add := SpecFloat.SFadd 53 1024.
Definition sf_div := SpecFloat.SFdiv 53 1024.
Definition sf_value (f : SpecFloat.spec_float) : option Q :=
  match f with
  | SpecFloat.S754_zero _ => Some 0%Q
  | SpecFloat.S754_finite s m e =>
      Some ((if s then - inject_Z (Zpos m) else inject_Z (Zpos m)) * 2 ^ e)%Q
  | _ => None
  end.

End float64.

(** ** package time *)
Module time.

(** A [time.Time] is modelled by the instant it denotes, in nanoseconds
    since the zero Time (January 1, year 1, 00:00:00 UTC); instants before
    the zero Time are negative.  The zero value of the type is [0].  The
    location and the monotonic reading are left out: [Before], [Sub] on a
    Time read from a repository, [Unix] and [UnixNano] do not depend on
    them.  A [time.Duration] is an int64 count of nanoseconds. *)
Definition zero : Z := 0.

Definition Nanosecond : Z := 1.
Definition Second : Z := 1000000000 * Nanosecond.
Definition Minute : Z := 60 * Second.
Definition Hour : Z := 60 * Minute.

Definition minDuration : Z := minInt64.
Definition maxDuration : Z := maxInt64.

(** [t.Before(u)] *)
Definition Before (t u : Z) : bool := t <? u.

(** [t.Sub(u)]: the duration t-u, saturated at the least and the greatest
    Duration. *)
Definition Sub (t u : Z) : Z := Z.max minDuration (Z.min maxDuration (t - u)).

(** [d.Hours()]:
<<
    hour := d / Hour
    nsec := d % Hour
    return float64(hour) + float64(nsec)/(60*60*1e9)
>>
    Integer division truncates toward zero. *)
Definition Hours (d : Z) : Q :=
  let hour := Z.quot d Hour in
  let nsec := Z.rem d Hour in
  float64.add (float64.of_int hour)
              (float64.div (float64.of_int nsec) 3600000000000%Q).

(** Seconds between the zero Time and January 1, 1970 UTC. *)
Definition unixToInternal : Z := 62135596800.

(** [t.Unix()] and [t.UnixNano()] *)
Definition Unix (t : Z) : Z := t / Second - unixToInternal.
Definition UnixNano (t : Z) : Z := int64_wrap (t - unixToInternal * Second).

End time.

(** ** snapshot_info.go *)

Record snapshotInfo := {
  Host : string;
  Username : string;
  Time : Z;
  Count : Z
}.

(** [int(now.Sub(i.Time).Hours() / 24)] *)
Definition DayAge (i : snapshotInfo) (now : Z) : Z :=
  float64.to_int (float64.div (time.Hours (time.Sub now (Time i))) 24%Q).

(** [i.DayAge(time.Now()) > 60]; [now] is the clock reading taken by the
    call itself. *)
Definition IsLegacy (i : snapshotInfo) (now : Z) : bool := 60 <? DayAge i now.

(** A day, in nanoseconds. *)
Definition Day : Z := 24 * time.Hour.

(** The float64 quotient [d.Hours() / 24] that [DayAge] truncates, and the
    term [float64(nsec)/(60*60*1e9)] of [d.Hours()]. *)
Definition days (d : Z) : Q := float64.div (time.Hours d) 24%Q.
Definition frac (nsec : Z) : Q := float64.div (float64.of_int nsec) 3600000000000%Q.

(** The same quotient computed with the Standard Library's binary64
    operations. *)
Definition days_binary64 (d : Z) : option Q :=
  float64.sf_value
    (float64.sf_div
       (float64.sf_add (float64.sf_of_int (Z.quot d time.Hour))
          (float64.sf_div (float64.sf_of_int (Z.rem d time.Hour))
                          (float64.sf_of_int 3600000000000)))
       (float64.sf_of_int 24)).

(** The age in days as the specification words it: the hours between the
    two instants, divided by 24, truncated toward zero, in exact
    arithmetic. *)
Definition DayAge_exact (i : snapshotInfo) (now : Z) : Z :=
  Z.quot (now - Time i) Day.

(** [map[string]*snapshotInfo].  Every pointer stored in the map is stored
    under exactly one key and is reachable only through the map, so the map
    of pointers is a map of records. *)
Abbreviation SnapshotCollection := (gmap string snapshotInfo).

(** [fmt.Sprintf("%s-%s", hostname, username)] *)
Definition snapshotKey (hostname username : string) : string :=
  hostname +:+ "-" +:+ username.

(** [if username == "" { username = "UNKNOWN" }] *)
Definition owner_of (username : string) : string :=
  if decide (username = "") then "UNKNOWN" else username.

(** [func (c SnapshotCollection) Add(username, hostname string, snapshotTime time.Time)] *)
Definition Add (c : SnapshotCollection) (username hostname : string)
    (snapshotTime : Z) : SnapshotCollection :=
  let username := owner_of username in
  let key := snapshotKey hostname username in
  let val :=
    match c !! key with
    | Some val => val
    | None => {| Host := hostname; Username := username;
                 Time := time.zero; Count := 0 |}
    end in
  let val :=
    if time.Before (Time val) snapshotTime
    then {| Host := Host val; Username := Username val;
            Time := snapshotTime; Count := Count val |}
    else val in
  <[key := {| Host := Host val; Username := Username val;
              Time := Time val; Count := int64_wrap (Count val + 1) |}]> c.

(** A sequence of [Add] calls, each given as (username, hostname, time). *)
Definition AddAll (c : SnapshotCollection) (calls : list (string * string * Z))
    : SnapshotCollection :=
  foldl (fun c call => Add c call.1.1 call.1.2 call.2) c calls.

(** The greatest element of a list of instants, starting from [t0]. *)
Definition max_time (t0 : Z) (ts : list Z) : Z := foldl Z.max t0 ts.

(** ** Errors

    A Go [error] is modelled by its message; [result] is a value returned
    together with an [error], of which exactly one is set. *)
Abbreviation error := string (only parsing).

Inductive result (A : Type) : Type :=
| Ok (a : A)
| Err (err : error).
Arguments Ok {A} a.
Arguments Err {A} err.

(** ** Configuration *)

Record b2Config := {
  AccountID : string;
  Key : string
}.

Record configEntry := {
  Disabled : bool;
  Repo : string;
  Password : string;
  VaultMaterial : string;
  B2VaultMaterial : string;
  B2AccountId : string;
  B2Key : string
}.

(** [func (e configEntry) ExtraConfig() any]: a [b2Config] or nil. *)
Definition ExtraConfig (e : configEntry) : option b2Config :=
  if bool_decide (B2AccountId e ≠ "") || bool_decide (B2Key e ≠ "")
  then Some {| AccountID := B2AccountId e; Key := B2Key e |}
  else None.

(** [type ConfigFile []*configEntry].  The entries are allocated by the JSON
    decoder of one load, written only by that load, and never written again
    once the list is stored: the slice of pointers is a list of records. *)
Abbreviation ConfigFile := (list configEntry).

(** [secrets.Client]: the two lookups the loader makes, into a
    [secrets.ApiKey] (of which the [Key] is used) and into a [b2Config]. *)
Record secretsClient := {
  Secret_ApiKey : string -> result string;
  Secret_b2Config : string -> result b2Config
}.

(** What the loader reads from outside the process: the file system and the
    JSON decoder applied to a file's contents. *)
Record configSource := {
  os_Open : string -> result string;
  json_Decode : string -> result ConfigFile
}.

Definition setPassword (cfg : configEntry) (password : string) : configEntry :=
  {| Disabled := Disabled cfg; Repo := Repo cfg; Password := password;
     VaultMaterial := VaultMaterial cfg; B2VaultMaterial := B2VaultMaterial cfg;
     B2AccountId := B2AccountId cfg; B2Key := B2Key cfg |}.

Definition setB2 (cfg : configEntry) (secret : b2Config) : configEntry :=
  {| Disabled := Disabled cfg; Repo := Repo cfg; Password := Password cfg;
     VaultMaterial := VaultMaterial cfg; B2VaultMaterial := B2VaultMaterial cfg;
     B2AccountId := AccountID secret; B2Key := Key secret |}.

(** The body of the loop over the decoded entries. *)
Definition populateSecrets (sc : secretsClient) (cfg : configEntry)
    : result configEntry :=
  let withPassword :=
    if bool_decide (Password cfg = "") && bool_decide (VaultMaterial cfg ≠ "")
    then match Secret_ApiKey sc (VaultMaterial cfg) with
         | Err err => Err err
         | Ok key => Ok (setPassword cfg key)
         end
    else Ok cfg in
  match withPassword with
  | Err err => Err err
  | Ok cfg =>
      if bool_decide (B2Key cfg = "") && bool_decide (B2VaultMaterial cfg ≠ "")
      then match Secret_b2Config sc (B2VaultMaterial cfg) with
           | Err err => Err err
           | Ok secret => Ok (setB2 cfg secret)
           end
      else Ok cfg
  end.

(** The loop: the first failing lookup ends the load with its error. *)
Fixpoint populateAll (sc : secretsClient) (out : ConfigFile) : result ConfigFile :=
  match out with
  | [] => Ok []
  | cfg :: rest =>
      match populateSecrets sc cfg with
      | Err err => Err err
      | Ok cfg =>
          match populateAll sc rest with
          | Err err => Err err
          | Ok rest => Ok (cfg :: rest)
          end
      end
  end.

(** [func NewConfigFileFromFile(ctx, name, sc) (ConfigFile, error)];
    [sc = None] is the nil client. *)
Definition NewConfigFileFromFile (src : configSource) (name : string)
    (sc : option secretsClient) : result ConfigFile :=
  match os_Open src name with
  | Err err => Err err
  | Ok fd =>
      match json_Decode src fd with
      | Err err => Err err
      | Ok out =>
          match sc with
          | None => Ok out
          | Some sc => populateAll sc out
          end
      end
  end.

(** ** restic_backend.go *)

(** [loc.Config]: the configuration of a B2 backend carries the account
    identity; the REST backend's has none. *)
Inductive backendConfig :=
| b2_Config (accountID key : string) (bucket : string)
| rest_Config (url : string).

Record Location := {
  Scheme : string;
  Config : backendConfig
}.

Record Snapshot := {
  sn_Username : string;
  sn_Hostname : string;
  sn_Time : Z
}.

(** The restic library and the remote storage behind it.  Backends,
    repositories and locks are handles; every call returns what the library
    returned.  [repository_Lock] gives the pair (lock, err) of
    [repository.Lock], a nil lock being [None].  [ForAllSnapshots_calls] is
    the sequence of invocations [restic.ForAllSnapshots] makes of its
    callback, each with a loaded snapshot or a load error, and
    [ForAllSnapshots_err] the error of the listing itself. *)
Record resticLib := {
  location_Parse : string -> result Location;
  backend_Transport : option error;
  factory_Open : Location -> result nat;
  be_Stat : nat -> result Z;
  repository_New : nat -> result nat;
  repo_SearchKey : nat -> string -> option error;
  repository_Lock : nat -> option nat * option error;
  ForAllSnapshots_calls : nat -> list (result Snapshot);
  ForAllSnapshots_err : nat -> option error
}.

(** The registry holds the B2 and the REST factory. *)
Definition backends_Lookup (scheme : string) : bool :=
  bool_decide (scheme = "b2") || bool_decide (scheme = "rest").

(** The type switch on [extraConfig]. *)
Definition applyExtraConfig (loc : Location) (extraConfig : option b2Config)
    : Location :=
  match extraConfig, Config loc with
  | Some extraCfg, b2_Config _ _ bucket =>
      {| Scheme := Scheme loc;
         Config := b2_Config (AccountID extraCfg) (Key extraCfg) bucket |}
  | _, _ => loc
  end.

(** [func openResticBackend(ctx, uri, cryptoKey, extraConfig)], returning a
    repository pointer, an Unlocker pointer, a context and an error.
    On an error the other results are nil, so the outcome is a [result] of
    the repository and the lock pointer.  The last statements are
<<
      lock, ctx, err = repository.Lock(ctx, repo, false, 0, printRetry, lockLogger)
      return repo, lock, ctx, nil
>>
    and the error of [repository.Lock] is not returned. *)
Definition openResticBackend (lib : resticLib) (uri cryptoKey : string)
    (extraConfig : option b2Config) : result (nat * option nat) :=
  match location_Parse lib uri with
  | Err err => Err err
  | Ok loc =>
  match backend_Transport lib with
  | Some err => Err err
  | None =>
  if negb (backends_Lookup (Scheme loc)) then Err "No such backend type" else
  let loc := applyExtraConfig loc extraConfig in
  match factory_Open lib loc with
  | Err err => Err err
  | Ok be =>
  match be_Stat lib be with
  | Err err => Err err
  | Ok size =>
  if size =? 0 then Err "Invalid repo size 0" else
  match repository_New lib be with
  | Err err => Err err
  | Ok repo =>
  match repo_SearchKey lib repo cryptoKey with
  | Some err => Err err
  | None =>
      let '(lock, err) := repository_Lock lib repo in
      Ok (repo, lock)
  end end end end end end.

(** The callback handed to [restic.ForAllSnapshots]. *)
Definition snapshotCallback (col : SnapshotCollection) (loaded : result Snapshot)
    : SnapshotCollection * option error :=
  match loaded with
  | Err err => (col, Some err)
  | Ok sn => (Add col (sn_Username sn) (sn_Hostname sn) (sn_Time sn), None)
  end.

(** [restic.ForAllSnapshots]: runs the callback on every invocation and
    returns the first error a callback returned, or else its own. *)
Fixpoint ForAllSnapshots (calls : list (result Snapshot)) (listErr : option error)
    (col : SnapshotCollection) : SnapshotCollection * option error :=
  match calls with
  | [] => (col, listErr)
  | loaded :: calls =>
      let '(col, err) := snapshotCallback col loaded in
      let '(col, later) := ForAllSnapshots calls listErr col in
      (col, match err with Some e => Some e | None => later end)
  end.

(** [func collectionFromAllSnapshots(ctx, repo) (SnapshotCollection, error)] *)
Definition collectionFromAllSnapshots (lib : resticLib) (repo : nat)
    : SnapshotCollection * option error :=
  ForAllSnapshots (ForAllSnapshots_calls lib repo) (ForAllSnapshots_err lib repo) ∅.

(** ** restic_collector.go *)

Record repoStats := {
  Name : string;
  ReadErrors : Z;
  Stats : SnapshotCollection
}.

Record allRepoMetrics := {
  run_Time : Z;
  run_Errors : Z;
  run_Stats : list repoStats
}.

(** [ResticCollector]: the two atomic pointers (nil is [None]) and the
    embedded mutex.  The WaitGroup is touched by [gatherOne] only and appears
    as the events [WaitAdd] and [WaitDone] of that goroutine; the logger
    appears as log events. *)
Record ResticCollector := {
  config : option ConfigFile;
  metrics : option allRepoMetrics;
  locked : bool
}.

Definition NewResticCollector : ResticCollector :=
  {| config := None; metrics := None; locked := false |}.

(** [func (c *ResticCollector) ReloadConfig(ctx, filename, sc) error] *)
Definition ReloadConfig (src : configSource) (c : ResticCollector)
    (filename : string) (sc : option secretsClient)
    : ResticCollector * option error :=
  match NewConfigFileFromFile src filename sc with
  | Err err => (c, Some err)
  | Ok cfg =>
      ({| config := Some cfg; metrics := metrics c; locked := locked c |}, None)
  end.

(** *** gatherOne

    What one [gatherOne] goroutine does that another goroutine can observe,
    in program order. *)
Inductive event :=
| WaitAdd
| WaitDone
| OpenBackend (uri : string)
| Enumerate (repo : nat)
| LogError (msg repo : string) (err : error)
| Send (stats : repoStats)
| Unlock (lock : option nat).

(** A running function call: the events so far and the stack of deferred
    calls, the last deferred first.  Returning runs the deferred calls from
    the top of the stack. *)
Record activation := {
  done_so_far : list event;
  deferred : list event
}.

Definition enter : activation := {| done_so_far := []; deferred := [] |}.
Definition call (e : event) (a : activation) : activation :=
  {| done_so_far := done_so_far a ++ [e]; deferred := deferred a |}.
Definition defer (e : event) (a : activation) : activation :=
  {| done_so_far := done_so_far a; deferred := e :: deferred a |}.
Definition return_ (a : activation) : list event :=
  done_so_far a ++ deferred a.

(** [func (c *ResticCollector) gatherOne(ctx, cfg, done)].  The channel
    [done] has room for every goroutine's value, so the send never blocks. *)
Definition gatherOne (lib : resticLib) (cfg : configEntry) : list event :=
  let a := call WaitAdd enter in
  let a := defer WaitDone a in
  let a := call (OpenBackend (Repo cfg)) a in
  match openResticBackend lib (Repo cfg) (Password cfg) (ExtraConfig cfg) with
  | Err err =>
      let a := call (LogError "Error opening restic backend" (Repo cfg) err) a in
      let a := call (Send {| Name := Repo cfg; ReadErrors := 1; Stats := ∅ |}) a in
      return_ a
  | Ok (repo, lock) =>
      let a := defer (Unlock lock) a in
      let a := call (Enumerate repo) a in
      match collectionFromAllSnapshots lib repo with
      | (col, Some err) =>
          let a := call (LogError "Error iterating restic snapshots" (Repo cfg) err) a in
          let a := call (Send {| Name := Repo cfg; ReadErrors := 1; Stats := ∅ |}) a in
          return_ a
      | (col, None) =>
          let a := call (Send {| Name := Repo cfg; ReadErrors := 0; Stats := col |}) a in
          return_ a
      end
  end.

(** The values a trace sends on [done], and how often it unlocks. *)
Definition sent (tr : list event) : list repoStats :=
  omap (fun e => match e with Send stats => Some stats | _ => None end) tr.

Definition isUnlock (e : event) : bool :=
  match e with Unlock _ => true | _ => false end.
Definition isSend (e : event) : bool :=
  match e with Send _ => true | _ => false end.

Definition unlocks (tr : list event) : nat := length (List.filter isUnlock tr).

(** Position of the first event satisfying [p]. *)
Fixpoint position (p : event -> bool) (tr : list event) : option nat :=
  match tr with
  | [] => None
  | e :: tr => if p e then Some 0%nat else S <$> position p tr
  end.

(** *** GatherMetrics *)

(** The loop over the configuration starts one goroutine per entry that is
    not disabled. *)
Definition spawned (cfg : ConfigFile) : list configEntry :=
  filter (fun entry => Disabled entry = false) cfg.

(** The goroutines run concurrently: the order in which their values reach
    the channel is any order.  [picks] chooses, at each arrival, which of
    the values still on their way comes next. *)
Fixpoint arrivals {A : Type} (fuel : nat) (picks : list nat) (pending : list A)
    : list A :=
  match fuel with
  | O => []
  | S fuel =>
      let k := (hd 0 picks mod length pending)%nat in
      match pending !! k with
      | Some x => x :: arrivals fuel (tl picks) (delete k pending)
      | None => []
      end
  end.

(** What a collection run meets: the restic library, the scheduling of its
    goroutines, and the clock reading [time.Now()] of the publication. *)
Record world := {
  lib : resticLib;
  picks : list nat;
  clock : Z
}.

(** Everything that is ever sent on [done] during one run, in order of
    arrival. *)
Definition channel (W : world) (cfg : ConfigFile) : list repoStats :=
  let values := concat (map (fun entry => sent (gatherOne (lib W) entry)) (spawned cfg)) in
  arrivals (length values) (picks W) values.

(** How the receive loop ends: with the metrics it stores, or blocked in the
    receive once nothing is left to arrive. *)
Inductive runOutcome :=
| Published (m : allRepoMetrics)
| BlockedOnReceive (m : allRepoMetrics).

(** <<
      for { select { case stats := <-done:
          metrics.Stats = append(metrics.Stats, stats)
          if stats.ReadErrors > 0 { metrics.Errors += 1 }
          if len(metrics.Stats) == started { metrics.Time = time.Now(); store; return }
      } }
>> *)
Fixpoint receiveLoop (started : nat) (m : allRepoMetrics) (done : list repoStats)
    (now : Z) : runOutcome :=
  match done with
  | [] => BlockedOnReceive m
  | stats :: done =>
      let m := {| run_Time := run_Time m;
                  run_Errors := if 0 <? ReadErrors stats
                                then int64_wrap (run_Errors m + 1)
                                else run_Errors m;
                  run_Stats := run_Stats m ++ [stats] |} in
      if Nat.eqb (length (run_Stats m)) started
      then Published {| run_Time := now; run_Errors := run_Errors m;
                        run_Stats := run_Stats m |}
      else receiveLoop started m done now
  end.

(** The part of [GatherMetrics] between loading the configuration and
    storing the metrics. *)
Definition collect (W : world) (cfg : ConfigFile) : runOutcome :=
  receiveLoop (length (spawned cfg))
              {| run_Time := time.zero; run_Errors := 0; run_Stats := [] |}
              (channel W cfg) (clock W).

(** One call of [GatherMetrics], between the points at which it touches the
    collector. *)
Inductive gmState :=
| AtTryLock
| AtLoad
| AtReceive (cfg : ConfigFile)
| AtStore (m : allRepoMetrics)
| AtUnlock
| Returned (busy : bool)
| Panicked.

Inductive gmEvent :=
| LogBusy
| Acquired
| LoadedConfig (cfg : ConfigFile)
| Started (n : nat)
| Publish (m : allRepoMetrics)
| Released
| NilConfig.

Definition setLocked (c : ResticCollector) (b : bool) : ResticCollector :=
  {| config := config c; metrics := metrics c; locked := b |}.
Definition setMetrics (c : ResticCollector) (m : allRepoMetrics) : ResticCollector :=
  {| config := config c; metrics := Some m; locked := locked c |}.

(** [func (c *ResticCollector) GatherMetrics(ctx)], one atomic step at a
    time: [c.TryLock()]; [*c.config.Load()] and the loop that starts the
    goroutines; the receive loop; [c.metrics.Store(&metrics)]; the deferred
    [c.Unlock()].  A receive loop that blocks has no step to take. *)
Definition GatherMetrics_step (W : world) (c : ResticCollector) (st : gmState)
    : ResticCollector * gmState * list gmEvent :=
  match st with
  | AtTryLock =>
      if locked c then (c, Returned true, [LogBusy])
      else (setLocked c true, AtLoad, [Acquired])
  | AtLoad =>
      match config c with
      | None => (setLocked c false, Panicked, [NilConfig; Released])
      | Some cfg => (c, AtReceive cfg, [LoadedConfig cfg; Started (length (spawned cfg))])
      end
  | AtReceive cfg =>
      match collect W cfg with
      | Published m => (c, AtStore m, [])
      | BlockedOnReceive _ => (c, AtReceive cfg, [])
      end
  | AtStore m => (setMetrics c m, AtUnlock, [Publish m])
  | AtUnlock => (setLocked c false, Returned false, [Released])
  | Returned busy => (c, Returned busy, [])
  | Panicked => (c, Panicked, [])
  end.

(** Concurrent calls of [GatherMetrics] on one collector: the calls, and the
    log of what each did, tagged with the call's index. *)
Record pool := {
  coll : ResticCollector;
  calls : list gmState;
  plog : list (nat * gmEvent)
}.

Definition pool_step (W : world) (i : nat) (p : pool) : pool :=
  match calls p !! i with
  | None => p
  | Some st =>
      let '(c, st, evs) := GatherMetrics_step W (coll p) st in
      {| coll := c; calls := <[i := st]> (calls p);
         plog := plog p ++ map (fun e => (i, e)) evs |}
  end.

(** A schedule names the call that takes the next step. *)
Definition pool_run (W : world) (schedule : list nat) (p : pool) : pool :=
  foldl (fun p i => pool_step W i p) p schedule.

Definition isPublish (e : nat * gmEvent) : bool :=
  match e.2 with Publish _ => true | _ => false end.

Definition count_events (p : nat * gmEvent -> bool) (l : list (nat * gmEvent)) : nat :=
  length (List.filter p l).


(** *** Metric descriptors and Collect *)

Record Desc := {
  fqName : string;
  variableLabels : list string
}.

Definition namespace : string := "backup".

(** [prometheus.BuildFQName(namespace, "", name)] *)
Definition BuildFQName (namespace name : string) : string :=
  namespace +:+ "_" +:+ name.

Definition lastSuccessTime : Desc :=
  {| fqName := BuildFQName namespace "job_last_success_unixtime";
     variableLabels := [] |}.
Definition jobErrorCount : Desc :=
  {| fqName := BuildFQName namespace "job_error_count";
     variableLabels := [] |}.
Definition readErrorCount : Desc :=
  {| fqName := BuildFQName namespace "read_error_count";
     variableLabels := ["url"] |}.
Definition snapshotCount : Desc :=
  {| fqName := BuildFQName namespace "snapshot_count";
     variableLabels := ["url"; "host"; "user"; "isLegacy"] |}.
Definition newestTimestamp : Desc :=
  {| fqName := BuildFQName namespace "newest_timestamp";
     variableLabels := ["url"; "host"; "user"; "isLegacy"] |}.
Definition backupSetDayAge : Desc :=
  {| fqName := BuildFQName namespace "days_age";
     variableLabels := ["url"; "host"; "user"] |}.

(** A gauge sample: descriptor, float64 value, label values. *)
Record Metric := {
  desc : Desc;
  value : Q;
  labelValues : list string
}.

(** [prometheus.MustNewConstMetric]: panics ([None]) unless there is one
    value per variable label.  (It also panics on a label value that is not
    valid UTF-8; the values here are read by the JSON decoder, which yields
    valid UTF-8 only.) *)
Definition MustNewConstMetric (d : Desc) (v : Q) (labels : list string)
    : option Metric :=
  if Nat.eqb (length labels) (length (variableLabels d))
  then Some {| desc := d; value := v; labelValues := labels |}
  else None.

(** The body of the inner loop of [Collect] for one backup set; [legacyNow]
    is the clock reading [IsLegacy] takes. *)
Definition collectSet (name : string) (now legacyNow : Z) (set : snapshotInfo)
    : list (option Metric) :=
  let legacy := if IsLegacy set legacyNow then "true" else "false" in
  [ MustNewConstMetric snapshotCount (float64.of_int (Count set))
      [name; Host set; Username set; legacy];
    MustNewConstMetric newestTimestamp (float64.of_int (time.Unix (Time set)))
      [name; Host set; Username set; legacy];
    MustNewConstMetric backupSetDayAge (float64.of_int (DayAge set now))
      [name; Host set; Username set] ].

(** The inner loop.  [clk k] is the k-th reading of the clock taken after
    the scrape began; the loop takes one per backup set.  The order of a
    range over a Go map is unspecified; the loop is run in the order of
    [map_to_list]. *)
Fixpoint collectSets (name : string) (now : Z) (clk : nat -> Z) (k : nat)
    (sets : list snapshotInfo) : list (option Metric) * nat :=
  match sets with
  | [] => ([], k)
  | set :: sets =>
      let '(ms, k') := collectSets name now clk (S k) sets in
      (collectSet name now (clk k) set ++ ms, k')
  end.

(** The outer loop, over the repositories of the run. *)
Fixpoint collectStats (now : Z) (clk : nat -> Z) (k : nat) (l : list repoStats)
    : list (option Metric) :=
  match l with
  | [] => []
  | stats :: l =>
      let '(ms, k') :=
        collectSets (Name stats) now clk k (snd <$> map_to_list (Stats stats)) in
      MustNewConstMetric readErrorCount (float64.of_int (ReadErrors stats))
        [Name stats] :: ms ++ collectStats now clk k' l
  end.

(** What a scrape ends in. *)
Inductive scrape :=
| NilPointerDereference
| LabelPanic
| Scraped (ms : list Metric).

(** Everything [Collect] does once it holds the pointer to a run. *)
Definition collectRun (m : allRepoMetrics) (now : Z) (clk : nat -> Z) : scrape :=
  let ms :=
    MustNewConstMetric lastSuccessTime
      (float64.div (float64.of_int (time.UnixNano (run_Time m))) 1000000000%Q) []
    :: MustNewConstMetric jobErrorCount (float64.of_int (run_Errors m)) []
    :: collectStats now clk 0 (run_Stats m) in
  match mapM id ms with
  | Some ms => Scraped ms
  | None => LabelPanic
  end.

(** [func (c *ResticCollector) Collect(ch)]: reads the clock, loads the
    metrics pointer once, and dereferences it.  The collector is returned as
    the call leaves it. *)
Definition Collect (c : ResticCollector) (now : Z) (clk : nat -> Z)
    : ResticCollector * scrape :=
  match metrics c with
  | None => (c, NilPointerDereference)
  | Some m => (c, collectRun m now clk)
  end.

(** ** main.go *)

(** The statements of [main] that touch the collector, the scheduler or the
    HTTP server, in program order.  What [main] does before them is not
    among them: it builds the logger, parses the flags, registers the
    signal channel and sets up the Vault client, logging a warning when
    VAULT_ADDR is unset and exiting with a fatal error when the client
    cannot be built or does not authenticate.  A process is followed from
    the point where that set-up is over; the client it left, nil when Vault
    is disabled, is [env_secrets] below.  [gocron.NewScheduler()], called
    without options, is taken to succeed: of the statement [NewScheduler]
    only [sched.NewJob] can fail, on the cron expression. *)
Inductive stmt :=
| NewCollector          (* collector := NewResticCollector(logger); prometheus.MustRegister(collector) *)
| InitialReloadConfig   (* collector.ReloadConfig(ctx, *configFile, sc), fatal on error *)
| NewScheduler          (* gocron.NewScheduler(), sched.NewJob(CronJob(...), NewTask(collector.GatherMetrics, ctx)) *)
| SchedStart            (* sched.Start() *)
| InitialGatherMetrics  (* collector.GatherMetrics(ctx) *)
| ListenAndServe        (* go httpServer.ListenAndServe() *)
| SignalLoop.           (* for { select { case sig := <-sigs ... case <-ctx.Done() ... } } *)

(** In the signal loop a pending signal is handled before the cancellation
    of the context is noticed; Go may take either case when both are ready,
    which makes no difference to the collector. *)

Definition main : list stmt :=
  [NewCollector; InitialReloadConfig; NewScheduler; SchedStart;
   InitialGatherMetrics; ListenAndServe; SignalLoop].

Inductive signal := SIGHUP | SIGUSR1 | SIGINT.

(** What the process meets during its life: the configuration source and
    the secrets client, whether the cron expression is accepted, and the
    world of the collection runs. *)
Record environment := {
  env_source : configSource;
  env_secrets : option secretsClient;
  env_configFile : string;
  env_cron_ok : bool;
  env_world : world
}.

(** The events of the process that are followed: the fatal exits of the
    statements above, a failed reload, the events of the calls of
    [GatherMetrics], the scrapes served and the shutdown.  Whatever else
    the logger prints, before these statements or between them, is not
    recorded. *)
Inductive sysEvent :=
| Fatal (msg : string)
| LogReloadError (err : error)
| Call (who : option nat) (e : gmEvent)   (* [None]: the call made by main *)
| Served (s : scrape)
| Shutdown.

(** The process: the collector, what main has still to run and the
    synchronous [GatherMetrics] call it is in, the goroutines running
    [GatherMetrics] for the scheduler or for SIGUSR1, the scheduler and the
    HTTP server, the signal channel, and the log. *)
Record system := {
  collector : ResticCollector;
  main_rest : list stmt;
  main_call : option gmState;
  goroutines : list gmState;
  sched_started : bool;
  http_listening : bool;
  ctx_done : bool;
  sigs : list signal;
  log : list sysEvent
}.

Definition boot : system :=
  {| collector := NewResticCollector; main_rest := main; main_call := None;
     goroutines := []; sched_started := false; http_listening := false;
     ctx_done := false; sigs := []; log := [] |}.

(** What can happen next: main or one of the goroutines takes a step, the
    cron expression matches, a signal is delivered, or /metrics is scraped
    (with the clock readings the scrape takes). *)
Inductive action :=
| RunMain
| RunGoroutine (i : nat)
| CronFires
| Deliver (sig : signal)
| Scrape (now : Z) (clk : nat -> Z).

Definition exit_with (s : system) (evs : list sysEvent) : system :=
  {| collector := collector s; main_rest := []; main_call := None;
     goroutines := []; sched_started := false; http_listening := false;
     ctx_done := ctx_done s; sigs := sigs s; log := log s ++ evs |}.

(** One step of the main goroutine. *)
Definition main_step (E : environment) (s : system) : system :=
  match main_call s with
  | Some st =>
      let '(c, st', evs) := GatherMetrics_step (env_world E) (collector s) st in
      let log' := log s ++ map (Call None) evs in
      match st' with
      | Returned _ =>
          {| collector := c; main_rest := main_rest s; main_call := None;
             goroutines := goroutines s; sched_started := sched_started s;
             http_listening := http_listening s; ctx_done := ctx_done s;
             sigs := sigs s; log := log' |}
      | Panicked => exit_with s (map (Call None) evs)
      | _ =>
          {| collector := c; main_rest := main_rest s; main_call := Some st';
             goroutines := goroutines s; sched_started := sched_started s;
             http_listening := http_listening s; ctx_done := ctx_done s;
             sigs := sigs s; log := log' |}
      end
  | None =>
      match main_rest s with
      | [] => s
      | NewCollector :: rest =>
          {| collector := NewResticCollector; main_rest := rest; main_call := None;
             goroutines := goroutines s; sched_started := sched_started s;
             http_listening := http_listening s; ctx_done := ctx_done s;
             sigs := sigs s; log := log s |}
      | InitialReloadConfig :: rest =>
          match ReloadConfig (env_source E) (collector s) (env_configFile E) (env_secrets E) with
          | (_, Some err) => exit_with s [Fatal "Error loading configuration"]
          | (c, None) =>
              {| collector := c; main_rest := rest; main_call := None;
                 goroutines := goroutines s; sched_started := sched_started s;
                 http_listening := http_listening s; ctx_done := ctx_done s;
                 sigs := sigs s; log := log s |}
          end
      | NewScheduler :: rest =>
          if env_cron_ok E
          then {| collector := collector s; main_rest := rest; main_call := None;
                  goroutines := goroutines s; sched_started := sched_started s;
                  http_listening := http_listening s; ctx_done := ctx_done s;
                  sigs := sigs s; log := log s |}
          else exit_with s [Fatal "Error adding job to scheduler"]
      | SchedStart :: rest =>
          {| collector := collector s; main_rest := rest; main_call := None;
             goroutines := goroutines s; sched_started := true;
             http_listening := http_listening s; ctx_done := ctx_done s;
             sigs := sigs s; log := log s |}
      | InitialGatherMetrics :: rest =>
          {| collector := collector s; main_rest := rest; main_call := Some AtTryLock;
             goroutines := goroutines s; sched_started := sched_started s;
             http_listening := http_listening s; ctx_done := ctx_done s;
             sigs := sigs s; log := log s |}
      | ListenAndServe :: rest =>
          {| collector := collector s; main_rest := rest; main_call := None;
             goroutines := goroutines s; sched_started := sched_started s;
             http_listening := true; ctx_done := ctx_done s;
             sigs := sigs s; log := log s |}
      | SignalLoop :: rest =>
          match sigs s with
          | SIGHUP :: pending =>
              let '(c, err) := ReloadConfig (env_source E) (collector s)
                                 (env_configFile E) (env_secrets E) in
              {| collector := c; main_rest := SignalLoop :: rest; main_call := None;
                 goroutines := goroutines s; sched_started := sched_started s;
                 http_listening := http_listening s; ctx_done := ctx_done s;
                 sigs := pending;
                 log := log s ++ match err with
                                 | Some err => [LogReloadError err]
                                 | None => []
                                 end |}
          | SIGUSR1 :: pending =>
              {| collector := collector s; main_rest := SignalLoop :: rest;
                 main_call := None; goroutines := goroutines s ++ [AtTryLock];
                 sched_started := sched_started s;
                 http_listening := http_listening s; ctx_done := ctx_done s;
                 sigs := pending; log := log s |}
          | SIGINT :: pending =>
              {| collector := collector s; main_rest := SignalLoop :: rest;
                 main_call := None; goroutines := goroutines s;
                 sched_started := sched_started s;
                 http_listening := http_listening s; ctx_done := true;
                 sigs := pending; log := log s |}
          | [] =>
              if ctx_done s then exit_with s [Shutdown] else s
          end
      end
  end.

(** One step of the process. *)
Definition step (E : environment) (a : action) (s : system) : system :=
  match a with
  | RunMain => main_step E s
  | RunGoroutine i =>
      match goroutines s !! i with
      | None => s
      | Some st =>
          let '(c, st', evs) := GatherMetrics_step (env_world E) (collector s) st in
          match st' with
          | Panicked => exit_with s (map (Call (Some i)) evs)
          | _ =>
              {| collector := c; main_rest := main_rest s; main_call := main_call s;
                 goroutines := <[i := st']> (goroutines s);
                 sched_started := sched_started s;
                 http_listening := http_listening s; ctx_done := ctx_done s;
                 sigs := sigs s; log := log s ++ map (Call (Some i)) evs |}
          end
      end
  | CronFires =>
      if sched_started s
      then {| collector := collector s; main_rest := main_rest s;
              main_call := main_call s; goroutines := goroutines s ++ [AtTryLock];
              sched_started := sched_started s;
              http_listening := http_listening s; ctx_done := ctx_done s;
              sigs := sigs s; log := log s |}
      else s
  | Deliver sig =>
      {| collector := collector s; main_rest := main_rest s;
         main_call := main_call s; goroutines := goroutines s;
         sched_started := sched_started s;
         http_listening := http_listening s; ctx_done := ctx_done s;
         sigs := sigs s ++ [sig]; log := log s |}
  | Scrape now clk =>
      if http_listening s
      then let '(c, r) := Collect (collector s) now clk in
           {| collector := c; main_rest := main_rest s;
              main_call := main_call s; goroutines := goroutines s;
              sched_started := sched_started s;
              http_listening := http_listening s; ctx_done := ctx_done s;
              sigs := sigs s; log := log s ++ [Served r] |}
      else s
  end.

Definition run (E : environment) (acts : list action) (s : system) : system :=
  foldl (fun s a => step E a s) s acts.

(** ** Vocabulary of the statements *)

(** The unlock comes before the value is sent on [done]. *)
Definition released_before_report (tr : list event) : Prop :=
  exists i j, position isUnlock tr = Some i /\ position isSend tr = Some j /\ (i < j)%nat.

(** The error count of a run after receiving [done], from [errors]. *)
Definition tally (errors : Z) (done : list repoStats) : Z :=
  foldl (fun e stats => if 0 <? ReadErrors stats then int64_wrap (e + 1) else e)
        errors done.

(** A pool of [n] calls that have not started, on the collector [c]. *)
Definition pool0 (c : ResticCollector) (n : nat) : pool :=
  {| coll := c; calls := replicate n AtTryLock; plog := [] |}.




(** ** Invariants of the pool *)

(** Call 0 holds the lock and cannot get past the receive loop; the other
    calls have not run yet or have returned busy; nothing was published. *)
Definition stuck_inv (c : ResticCollector) (cfg : ConfigFile) (p : pool) : Prop :=
  coll p = setLocked c true
  /\ count_events isPublish (plog p) = 0%nat
  /\ exists st0 others,
       calls p = st0 :: others
       /\ (st0 = AtLoad \/ st0 = AtReceive cfg)
       /\ Forall (fun st => st = AtTryLock \/ st = Returned true) others.



(** ** Vocabulary of the further properties *)

(** *** SnapshotCollection *)

(** The key and the (host, owner) pair of a call (username, hostname, time)
    of [Add]. *)
Definition call_key (call : string * string * Z) : string :=
  snapshotKey call.1.2 (owner_of call.1.1).
Definition call_pair (call : string * string * Z) : string * string :=
  (call.1.2, owner_of call.1.1).

(** Two calls are compatible when they do not share a key without sharing
    host and owner. *)
Definition compatible (a b : string * string * Z) : Prop :=
  call_key a = call_key b -> call_pair a = call_pair b.

(** The calls of a sequence that are filed under [key]. *)
Definition calls_for (key : string) (calls : list (string * string * Z))
    : list (string * string * Z) :=
  filter (fun call => call_key call = key) calls.

(** The sum of the counts of a collection. *)
Definition total (c : SnapshotCollection) : Z :=
  map_fold (fun _ val acc => Count val + acc) 0 c.

(** What a record of a collection built by [Add] looks like: it is stored
    under the key of its own host and owner, the owner is not empty, and the
    time is not before the zero Time. *)
Definition filed (key : string) (val : snapshotInfo) : Prop :=
  key = snapshotKey (Host val) (Username val)
  /\ Username val <> "" /\ time.zero <= Time val.

Definition pair_of (set : snapshotInfo) : string * string := (Host set, Username set).

(** The record [Add] writes, from the record it finds. *)
Definition updated (found : option snapshotInfo) (username hostname : string)
    (t : Z) : snapshotInfo :=
  let val := match found with
             | Some val => val
             | None => {| Host := hostname; Username := username;
                          Time := time.zero; Count := 0 |}
             end in
  {| Host := Host val; Username := Username val;
     Time := Z.max (Time val) t; Count := int64_wrap (Count val + 1) |}.

(** The record a collection holds under a key after the calls [calls] filed
    under it, from the record [found] it held before: host and owner are
    those of the record found, or else of the first call; the time is the
    greatest of the time found (or the zero Time) and the calls' times; the
    count has grown by the number of calls. *)
Definition summary (found : option snapshotInfo) (calls : list (string * string * Z))
    : option snapshotInfo :=
  match calls with
  | [] => found
  | first :: _ =>
      let val := match found with
                 | Some val => val
                 | None => {| Host := first.1.2; Username := owner_of first.1.1;
                              Time := time.zero; Count := 0 |}
                 end in
      Some {| Host := Host val; Username := Username val;
              Time := max_time (Time val) (snd <$> calls);
              Count := int64_wrap (Count val + Z.of_nat (length calls)) |}
  end.

(** *** The configuration loader *)

(** What the loader leaves of an entry.  The password is kept unless the
    file leaves it empty and names a secret for it.  The B2 key and the B2
    account id are kept unless the file leaves the key empty and names a
    B2 secret: the test is on the key alone, so an account id the file
    gives is not kept then.  Everything else is kept. *)
Definition kept (e e' : configEntry) : Prop :=
  Disabled e' = Disabled e /\ Repo e' = Repo e
  /\ VaultMaterial e' = VaultMaterial e /\ B2VaultMaterial e' = B2VaultMaterial e
  /\ (Password e <> "" \/ VaultMaterial e = "" -> Password e' = Password e)
  /\ (B2Key e <> "" \/ B2VaultMaterial e = "" ->
      B2Key e' = B2Key e /\ B2AccountId e' = B2AccountId e).

(** What the loader takes from the secrets store [sc] for an entry: the
    password, when the file leaves it empty and names a secret for it, and
    both B2 credentials, when the file leaves the B2 key empty and names a
    B2 secret. *)
Definition looked_up (sc : secretsClient) (e e' : configEntry) : Prop :=
  (Password e = "" -> VaultMaterial e <> "" ->
   Secret_ApiKey sc (VaultMaterial e) = Ok (Password e'))
  /\ (B2Key e = "" -> B2VaultMaterial e <> "" ->
      exists secret, Secret_b2Config sc (B2VaultMaterial e) = Ok secret
        /\ B2AccountId e' = AccountID secret /\ B2Key e' = Key secret).

(** An entry for which the loader makes no lookup. *)
Definition needs_no_secret (e : configEntry) : Prop :=
  (Password e <> "" \/ VaultMaterial e = "")
  /\ (B2Key e <> "" \/ B2VaultMaterial e = "").

(** *** The callback invocations of an enumeration *)

(** The call of [Add] the callback makes for a snapshot. *)
Definition call_of (sn : Snapshot) : string * string * Z :=
  (sn_Username sn, sn_Hostname sn, sn_Time sn).

(** The snapshots that loaded, and the first load error, of a sequence of
    callback invocations. *)
Definition loaded (calls : list (result Snapshot)) : list Snapshot :=
  omap (fun r => match r with Ok sn => Some sn | Err _ => None end) calls.

Fixpoint first_error (calls : list (result Snapshot)) (listErr : option error)
    : option error :=
  match calls with
  | [] => listErr
  | Err err :: _ => Some err
  | Ok _ :: calls => first_error calls listErr
  end.

(** [lib] with another [repository.Lock]. *)
Definition with_Lock (lib : resticLib)
    (lock : nat -> option nat * option error) : resticLib :=
  {| location_Parse := location_Parse lib;
     backend_Transport := backend_Transport lib;
     factory_Open := factory_Open lib;
     be_Stat := be_Stat lib;
     repository_New := repository_New lib;
     repo_SearchKey := repo_SearchKey lib;
     repository_Lock := lock;
     ForAllSnapshots_calls := ForAllSnapshots_calls lib;
     ForAllSnapshots_err := ForAllSnapshots_err lib |}.

(** *** What the library does for one repository *)

(** The repository of the entry [cfg] opens on [l], as the repository
    [repo]: every step [openResticBackend] takes before the lock succeeds
    on the library. *)
Definition opens (l : resticLib) (cfg : configEntry) (repo : nat) : Prop :=
  exists loc be size,
    location_Parse l (Repo cfg) = Ok loc
    /\ backend_Transport l = None
    /\ (Scheme loc = "b2" \/ Scheme loc = "rest")
    /\ factory_Open l (applyExtraConfig loc (ExtraConfig cfg)) = Ok be
    /\ be_Stat l be = Ok size /\ size <> 0
    /\ repository_New l be = Ok repo
    /\ repo_SearchKey l repo (Password cfg) = None.

(** The enumeration of [repo] succeeds on [l]: the listing returns no
    error and every snapshot loads. *)
Definition enumerates (l : resticLib) (repo : nat) : Prop :=
  ForAllSnapshots_err l repo = None
  /\ Forall (fun r => exists sn, r = Ok sn) (ForAllSnapshots_calls l repo).

(** *** The WaitGroup and Shutdown *)

(** The WaitGroup counter after the events [tr] of one goroutine. *)
Definition wait_counter (tr : list event) : Z :=
  foldl (fun n e => match e with
                    | WaitAdd => n + 1
                    | WaitDone => n - 1
                    | _ => n
                    end) 0 tr.

(** The [gatherOne] goroutines of a run, each with the number of events it
    has got through, and the events they have got through. *)
Definition progress_of (lib : resticLib) (gs : list (configEntry * nat))
    : list (list event) :=
  (fun g => take g.2 (gatherOne lib g.1)) <$> gs.

(** [func (c *ResticCollector) Shutdown()]: [c.wait.Wait()] returns once the
    counter is zero.  [progress] is how far each [gatherOne] goroutine has
    come; the result tells whether the call returns at that point. *)
Definition ResticCollector_Shutdown (progress : list (list event)) : bool :=
  bool_decide (foldr (fun tr n => wait_counter tr + n) 0 progress = 0).

Definition isLogError (e : event) : bool :=
  match e with LogError _ _ _ => true | _ => false end.
Definition isEnumerate (e : event) : bool :=
  match e with Enumerate _ => true | _ => false end.

(** The number of repositories of a run that reported a read error. *)
Definition failures (l : list repoStats) : nat :=
  length (filter (fun stats => ReadErrors stats = 1) l).

(** *** Describe and the samples of a scrape *)

(** [func (c *ResticCollector) Describe(ch)]: the descriptors sent, in
    order. *)
Definition Describe : list Desc :=
  [lastSuccessTime; jobErrorCount; readErrorCount; snapshotCount;
   newestTimestamp; backupSetDayAge].

(** A sample agrees with the descriptors: its descriptor is one of those
    [Describe] sends, and it has one value per label. *)
Definition described (x : Metric) : Prop :=
  desc x ∈ Describe /\ length (labelValues x) = length (variableLabels (desc x)).

(** The identity of the time series a sample belongs to. *)
Definition series (x : Metric) : string * list string :=
  (fqName (desc x), labelValues x).
Definition oseries (o : option Metric) : option (string * list string) := series <$> o.

(** The number of samples [Collect] emits for the repositories [l]. *)
Definition samples (l : list repoStats) : nat :=
  sum_list ((fun stats => S (3 * size (Stats stats))) <$> l).

(** A sample of the backup set [set] of the repository [name]: it carries
    the repository, the host and the owner as its first labels. *)
Definition of_set (name : string) (set : snapshotInfo) (o : option Metric) : Prop :=
  exists x, o = Some x /\ described x
    /\ fqName (desc x) <> fqName readErrorCount
    /\ take 3 (labelValues x) = [name; Host set; Username set].

(** A sample of the scrape of the repositories [l]: the error gauge of one
    of them, or a sample of one of its backup sets. *)
Definition of_stats (l : list repoStats) (o : option Metric) : Prop :=
  exists stats, stats ∈ l
    /\ (o = Some {| desc := readErrorCount;
                    value := float64.of_int (ReadErrors stats);
                    labelValues := [Name stats] |}
        \/ exists set, set ∈ snd <$> map_to_list (Stats stats)
             /\ of_set (Name stats) set o).

(** The value of the gauge job_last_success_unixtime for a run published
    at [t]: [float64(metrics.Time.UnixNano())/1e9]. *)
Definition lastSuccess_value (t : Z) : Q :=
  float64.div (float64.of_int (time.UnixNano t)) 1000000000%Q.

(** *** The process *)

(** A call of [GatherMetrics] that is between its [TryLock] and its
    deferred [Unlock]. *)
Definition holding (st : gmState) : bool :=
  match st with
  | AtLoad | AtReceive _ | AtStore _ | AtUnlock => true
  | _ => false
  end.

Definition count_holding (l : list gmState) : nat := length (List.filter holding l).
Arguments count_holding : simpl never.

(** The calls of [GatherMetrics] of the process: the one main makes and the
    goroutines'. *)
Definition running_calls (s : system) : list gmState :=
  match main_call s with
  | Some st => st :: goroutines s
  | None => goroutines s
  end.

Definition holders (s : system) : nat := count_holding (running_calls s).

Definition isNilConfig (e : sysEvent) : bool :=
  match e with Call _ NilConfig => true | _ => false end.

Definition isRunMain (a : action) : bool :=
  match a with RunMain => true | _ => false end.
Definition isCronFires (a : action) : bool :=
  match a with CronFires => true | _ => false end.

(** How many steps main takes in a sequence of actions. *)
Definition main_steps (acts : list action) : nat := length (List.filter isRunMain acts).

(** What does not happen when the scheduler stays quiet: a scrape that
    panics, and the call main makes being turned away. *)
Definition quiet_ok (e : sysEvent) : bool :=
  match e with
  | Served NilPointerDereference | Served LabelPanic | Call None LogBusy => false
  | _ => true
  end.

(** ** Invariants of the process *)

(** The three stages of the process: before the configuration is loaded,
    after it, and after the process has exited. *)
Definition not_started (s : system) : Prop :=
  (main_rest s = main \/ main_rest s = tail main)
  /\ collector s = NewResticCollector
  /\ main_call s = None /\ goroutines s = []
  /\ sched_started s = false /\ http_listening s = false /\ log s = [].

Definition started_up (s : system) : Prop :=
  SignalLoop ∈ main_rest s /\ NewCollector ∉ main_rest s
  /\ InitialReloadConfig ∉ main_rest s
  /\ config (collector s) <> None
  /\ holders s = (if locked (collector s) then 1 else 0)%nat.

Definition exited (s : system) : Prop :=
  main_rest s = [] /\ main_call s = None /\ goroutines s = []
  /\ sched_started s = false /\ http_listening s = false.

Definition sys_inv (s : system) : Prop :=
  Forall (fun e => isNilConfig e = false) (log s)
  /\ (not_started s \/ started_up s \/ exited s).

(** The process after [n] steps of main, when the configuration does not
    load; [log] holds the events that are followed, see [sysEvent]. *)
Definition fatal_inv (n : nat) (s : system) : Prop :=
  collector s = NewResticCollector /\ main_call s = None /\ goroutines s = []
  /\ sched_started s = false /\ http_listening s = false
  /\ match n with
     | 0%nat => main_rest s = main /\ log s = []
     | 1%nat => main_rest s = tail main /\ log s = []
     | _ => main_rest s = [] /\ log s = [Fatal "Error loading configuration"]
     end.

(** The stages of a start during which the scheduler does not fire: main
    before its call of [GatherMetrics], in it, and after it. *)
Definition before_gather (s : system) : Prop :=
  (exists k, (k <= 4)%nat /\ main_rest s = drop k main)
  /\ main_call s = None /\ goroutines s = []
  /\ locked (collector s) = false /\ http_listening s = false.

Definition in_gather (s : system) : Prop :=
  main_rest s = drop 5 main /\ goroutines s = [] /\ http_listening s = false
  /\ exists st, main_call s = Some st
       /\ match st with
          | AtTryLock => locked (collector s) = false
          | AtLoad | AtReceive _ | AtStore _ => True
          | AtUnlock => metrics (collector s) <> None
          | _ => False
          end.

Definition after_gather (s : system) : Prop :=
  (main_rest s = drop 5 main \/ main_rest s = drop 6 main)
  /\ main_call s = None /\ metrics (collector s) <> None.

Definition quiet_inv (s : system) : Prop :=
  Forall (fun e => quiet_ok e = true) (log s)
  /\ (before_gather s \/ in_gather s \/ after_gather s \/ exited s).

(** ** Concrete repositories, configurations and schedules, used by the
    examples *)

Definition snap (username hostname : string) (t : Z) : Snapshot :=
  {| sn_Username := username; sn_Hostname := hostname; sn_Time := t |}.

(** A REST server on which everything succeeds, except that the repository
    whose URI is "rest:R2" does not parse.  Every repository holds two
    snapshots of host h1, owner u1. *)
Definition lib_ok : resticLib :=
  {| location_Parse := fun uri =>
       if decide (uri = "rest:R2") then Err "invalid backend"
       else Ok {| Scheme := "rest"; Config := rest_Config uri |};
     backend_Transport := None;
     factory_Open := fun _ => Ok 1%nat;
     be_Stat := fun _ => Ok 155;
     repository_New := fun be => Ok 2%nat;
     repo_SearchKey := fun _ _ => None;
     repository_Lock := fun _ => (Some 3%nat, None);
     ForAllSnapshots_calls := fun _ => [Ok (snap "u1" "h1" 10); Ok (snap "u1" "h1" 20)];
     ForAllSnapshots_err := fun _ => None |}.

(** The same, with a snapshot that fails to load after one that loaded. *)
Definition lib_bad_snapshot : resticLib :=
  {| location_Parse := location_Parse lib_ok;
     backend_Transport := None;
     factory_Open := factory_Open lib_ok;
     be_Stat := be_Stat lib_ok;
     repository_New := repository_New lib_ok;
     repo_SearchKey := repo_SearchKey lib_ok;
     repository_Lock := repository_Lock lib_ok;
     ForAllSnapshots_calls := fun _ => [Ok (snap "u1" "h1" 10); Err "load failed"];
     ForAllSnapshots_err := fun _ => None |}.

(** The same as [lib_ok], with a repository that is locked exclusively by
    another process: [repository.Lock] returns no lock and an error. *)
Definition lib_locked : resticLib :=
  {| location_Parse := location_Parse lib_ok;
     backend_Transport := None;
     factory_Open := factory_Open lib_ok;
     be_Stat := be_Stat lib_ok;
     repository_New := repository_New lib_ok;
     repo_SearchKey := repo_SearchKey lib_ok;
     repository_Lock := fun _ => (None, Some "repository is already locked exclusively");
     ForAllSnapshots_calls := ForAllSnapshots_calls lib_ok;
     ForAllSnapshots_err := fun _ => None |}.

Definition entry (disabled : bool) (repo : string) : configEntry :=
  {| Disabled := disabled; Repo := repo; Password := "secret";
     VaultMaterial := ""; B2VaultMaterial := ""; B2AccountId := ""; B2Key := "" |}.

Definition world_ok : world := {| lib := lib_ok; picks := [1%nat]; clock := 1000 |}.

(** A configuration source whose file "config.json" holds two enabled
    repositories, and one whose file can no longer be parsed. *)
Definition source_ok : configSource :=
  {| os_Open := fun name =>
       if decide (name = "config.json") then Ok "[...]" else Err "no such file";
     json_Decode := fun _ => Ok [entry false "rest:R1"; entry false "rest:R2"] |}.

Definition source_broken : configSource :=
  {| os_Open := os_Open source_ok;
     json_Decode := fun _ => Err "unexpected end of JSON input" |}.


Definition collector_all_disabled : ResticCollector :=
  {| config := Some [entry true "rest:R1"; entry true "rest:R2"];
     metrics := None; locked := false |}.

(** A process whose configuration loads and whose cron expression is
    accepted. *)
Definition env_ok : environment :=
  {| env_source := source_ok; env_secrets := None;
     env_configFile := "config.json"; env_cron_ok := true;
     env_world := world_ok |}.

(** A start in which the cron expression matches right after
    [sched.Start()]: the scheduler's goroutine takes the mutex, the call
    main makes finds it held and returns, the server starts, and /metrics
    is scraped before the scheduler's run has got any further. *)
Definition startup_race : list action :=
  [RunMain; RunMain; RunMain; RunMain; CronFires; RunGoroutine 0;
   RunMain; RunMain; RunMain; Scrape 2000 (fun _ => 2000)].

(** A start in which the scheduler stays quiet until main has collected:
    main runs all its statements up to the signal loop, then /metrics is
    scraped. *)
Definition startup_quiet : list action :=
  replicate 11 RunMain ++ [Scrape 2000 (fun _ => 2000)].

(** A library on which every URI parses to a location of a backend type
    that is not registered. *)
Definition lib_local : resticLib :=
  {| location_Parse := fun uri => Ok {| Scheme := "local"; Config := rest_Config uri |};
     backend_Transport := None;
     factory_Open := factory_Open lib_ok;
     be_Stat := be_Stat lib_ok;
     repository_New := repository_New lib_ok;
     repo_SearchKey := repo_SearchKey lib_ok;
     repository_Lock := repository_Lock lib_ok;
     ForAllSnapshots_calls := ForAllSnapshots_calls lib_ok;
     ForAllSnapshots_err := ForAllSnapshots_err lib_ok |}.

(** A secrets client that answers every lookup, and one that answers none. *)
Definition client_up : secretsClient :=
  {| Secret_ApiKey := fun _ => Ok "from-vault";
     Secret_b2Config := fun _ => Ok {| AccountID := "id"; Key := "key" |} |}.

Definition client_down : secretsClient :=
  {| Secret_ApiKey := fun _ => Err "vault is sealed";
     Secret_b2Config := fun _ => Err "vault is sealed" |}.

(** An entry whose password is to be looked up, and a file that holds it
    after an entry that needs no lookup. *)
Definition entry_vault (repo : string) : configEntry :=
  {| Disabled := false; Repo := repo; Password := "";
     VaultMaterial := "kv/restic"; B2VaultMaterial := ""; B2AccountId := ""; B2Key := "" |}.

Definition source_vault : configSource :=
  {| os_Open := os_Open source_ok;
     json_Decode := fun _ => Ok [entry false "rest:R1"; entry_vault "rest:R3"] |}.

(** An entry that gives a B2 account id and leaves the password and the
    B2 key to the secrets store, a file that holds it, and a store that
    answers for passwords only. *)
Definition entry_b2 (repo : string) : configEntry :=
  {| Disabled := false; Repo := repo; Password := "";
     VaultMaterial := "kv/restic"; B2VaultMaterial := "kv/b2";
     B2AccountId := "account-of-the-file"; B2Key := "" |}.

Definition source_b2 : configSource :=
  {| os_Open := os_Open source_ok;
     json_Decode := fun _ => Ok [entry false "rest:R1"; entry_b2 "b2:bucket:/"] |}.

Definition client_no_b2 : secretsClient :=
  {| Secret_ApiKey := fun _ => Ok "from-vault";
     Secret_b2Config := fun _ => Err "permission denied" |}.

(** A process whose configuration file does not parse. *)
Definition env_broken : environment :=
  {| env_source := source_broken; env_secrets := None;
     env_configFile := "config.json"; env_cron_ok := true;
     env_world := world_ok |}.

(** A run published on 2025-11-29 at 08:00:00.25 UTC. *)
Definition run_2025 : allRepoMetrics :=
  {| run_Time := 63900000000250000000; run_Errors := 0; run_Stats := [] |}.

(** The run [world_ok] publishes for the two repositories "rest:R1" and
    "rest:R2". *)
Definition run_ok : allRepoMetrics :=
  {| run_Time := 1000; run_Errors := 1;
     run_Stats :=
       [ {| Name := "rest:R2"; ReadErrors := 1; Stats := ∅ |};
         {| Name := "rest:R1"; ReadErrors := 0;
            Stats := {[ "h1-u1" := {| Host := "h1"; Username := "u1";
                                      Time := 20; Count := 2 |} ]} |} ] |}.

(* ===================================================================== *)
(** * Part II: theorems                                                   *)
(* ===================================================================== *)

(** ** Machine integers *)

Lemma int64_wrap_small (z : Z) : minInt64 <= z <= maxInt64 -> int64_wrap z = z.
Proof.
  unfold int64_wrap, minInt64, maxInt64. intros H.
  rewrite Z.mod_small; lia.
Qed.

(** ** SnapshotCollection.Add *)

Section AddFacts.

Implicit Types (c : SnapshotCollection) (username hostname : string).

Lemma owner_of_empty : owner_of "" = "UNKNOWN".
Proof. reflexivity. Qed.

Lemma Add_fresh c username hostname t :
  c !! snapshotKey hostname (owner_of username) = None ->
  Add c username hostname t !! snapshotKey hostname (owner_of username)
  = Some {| Host := hostname; Username := owner_of username;
            Time := Z.max 0 t; Count := 1 |}.
Proof.
  intros Hnone. unfold Add. rewrite Hnone. simpl.
  rewrite lookup_insert_eq. unfold time.Before, time.zero.
  destruct (0 <? t) eqn:E; simpl; do 2 f_equal.
  - apply Z.ltb_lt in E. lia.
  - apply Z.ltb_ge in E. lia.
Qed.

Lemma Add_existing c username hostname t val :
  c !! snapshotKey hostname (owner_of username) = Some val ->
  Add c username hostname t !! snapshotKey hostname (owner_of username)
  = Some {| Host := Host val; Username := Username val;
            Time := Z.max (Time val) t; Count := int64_wrap (Count val + 1) |}.
Proof.
  intros Hsome. unfold Add. rewrite Hsome. simpl.
  rewrite lookup_insert_eq. unfold time.Before.
  destruct (Time val <? t) eqn:E; simpl; do 2 f_equal.
  - apply Z.ltb_lt in E. lia.
  - apply Z.ltb_ge in E. lia.
Qed.

(** A call leaves the records under every other key alone. *)
Lemma Add_other_key c username hostname t key :
  key ≠ snapshotKey hostname (owner_of username) ->
  Add c username hostname t !! key = c !! key.
Proof.
  intros Hne. unfold Add. by rewrite lookup_insert_ne.
Qed.

Lemma AddAll_cons c call calls :
  AddAll c (call :: calls) = AddAll (Add c call.1.1 call.1.2 call.2) calls.
Proof. reflexivity. Qed.

(** Further calls under a key that is already present. *)
Lemma AddAll_existing ts : forall c username hostname val,
  c !! snapshotKey hostname (owner_of username) = Some val ->
  0 <= Count val ->
  Count val + Z.of_nat (length ts) <= maxInt64 ->
  AddAll c ((fun t => (username, hostname, t)) <$> ts)
    !! snapshotKey hostname (owner_of username)
  = Some {| Host := Host val; Username := Username val;
            Time := max_time (Time val) ts;
            Count := Count val + Z.of_nat (length ts) |}.
Proof.
  induction ts as [|t ts IH]; intros c username hostname val Hsome H0 Hmax.
  - simpl. rewrite Hsome. destruct val; simpl. do 2 f_equal. lia.
  - rewrite fmap_cons, AddAll_cons. cbn [fst snd length] in *.
    pose proof (Add_existing c username hostname t val Hsome) as Hadd.
    rewrite (IH _ _ _ _ Hadd); simpl.
    + rewrite int64_wrap_small by (unfold minInt64, maxInt64 in *; lia).
      do 2 f_equal. lia.
    + rewrite int64_wrap_small by (unfold minInt64, maxInt64 in *; lia). lia.
    + rewrite int64_wrap_small by (unfold minInt64, maxInt64 in *; lia). lia.
Qed.

(** A sequence of calls sharing (host, owner), on a collection that has no
    record for the pair yet: the count is the number of calls, and the
    time is the greatest of the zero Time and the calls' times. *)
Lemma AddAll_same_pair c username hostname t ts :
  c !! snapshotKey hostname (owner_of username) = None ->
  Z.of_nat (length (t :: ts)) <= maxInt64 ->
  AddAll c ((fun t => (username, hostname, t)) <$> (t :: ts))
    !! snapshotKey hostname (owner_of username)
  = Some {| Host := hostname; Username := owner_of username;
            Time := max_time time.zero (t :: ts);
            Count := Z.of_nat (length (t :: ts)) |}.
Proof.
  intros Hnone Hlen.
  pose proof (Add_fresh c username hostname t Hnone) as Hadd.
  rewrite fmap_cons, AddAll_cons. cbn [fst snd].
  rewrite (AddAll_existing ts _ _ _ _ Hadd); simpl in *; try lia.
  do 2 f_equal. lia.
Qed.

(** When some call's time is not before the zero Time, that greatest
    value is the maximum over the calls. *)
Lemma max_time_max a b ts : max_time (Z.max a b) ts = Z.max a (max_time b ts).
Proof.
  unfold max_time. revert a b.
  induction ts as [|t ts IH]; intros a b; simpl; [done|].
  by rewrite <- Z.max_assoc, IH.
Qed.

Lemma max_time_zero t ts :
  0 <= max_time t ts -> max_time time.zero (t :: ts) = max_time t ts.
Proof.
  intros H. change (max_time time.zero (t :: ts)) with (max_time (Z.max 0 t) ts).
  rewrite max_time_max. lia.
Qed.

End AddFacts.

(** C3, at an input on which the code departs from it: one call whose time
    is a nanosecond before the zero Time.  The record's count is the number
    of calls, but its time is the zero Time, not the maximum (here the
    only) time of the calls. *)
Theorem Add_time_before_zero_Time :
  AddAll ∅ [("u", "h", -1)] !! snapshotKey "h" "u"
    = Some {| Host := "h"; Username := "u"; Time := 0; Count := 1 |}
  /\ max_time (-1) [] = -1
  /\ time.zero <> max_time (-1) [].
Proof. repeat split; vm_compute; congruence. Qed.

(** C4, at an input on which the code departs from it: two calls whose
    (host, owner) pairs differ, ("a-b", "c") and ("a", "b-c"), are filed
    under the same key and update one record, which keeps the first pair
    and counts both snapshots. *)
Theorem Add_merges_distinct_pairs :
  ("a-b", "c") <> ("a", "b-c")
  /\ snapshotKey "a-b" (owner_of "c") = snapshotKey "a" (owner_of "b-c")
  /\ AddAll ∅ [("c", "a-b", 5); ("b-c", "a", 7)]
     = {[ "a-b-c" := {| Host := "a-b"; Username := "c"; Time := 7; Count := 2 |} ]}.
Proof.
  split; [congruence|]. split; [reflexivity|].
  apply map_eq. intros k. unfold AddAll. simpl.
  unfold Add. simpl. rewrite lookup_empty. simpl.
  change (snapshotKey "a-b" "c") with "a-b-c".
  change (snapshotKey "a" "b-c") with "a-b-c".
  rewrite lookup_insert_eq. simpl. rewrite insert_insert_eq. reflexivity.
Qed.

(** ** openResticBackend and collectionFromAllSnapshots *)

(** A failed [repository.Lock] is not an error of [openResticBackend]: the
    call returns the repository with a nil lock. *)
Lemma openResticBackend_lock_error_dropped :
  repository_Lock lib_locked 2%nat = (None, Some "repository is already locked exclusively")
  /\ openResticBackend lib_locked "rest:R1" "secret" None = Ok (2%nat, None).
Proof. split; reflexivity. Qed.

Lemma ForAllSnapshots_no_error calls listErr col col' :
  ForAllSnapshots calls listErr col = (col', None) ->
  listErr = None /\ Forall (fun loaded => exists sn, loaded = Ok sn) calls.
Proof.
  revert col col'. induction calls as [|loaded calls IH]; intros col col'; simpl.
  - intros [= _ ->]. split; [done|constructor].
  - destruct loaded as [sn|err]; simpl.
    + destruct (ForAllSnapshots calls listErr _) as [c later] eqn:E.
      intros [= _ ->]. destruct (IH _ _ E) as [-> HF]. split; [done|].
      constructor; eauto.
    + destruct (ForAllSnapshots calls listErr col) as [c later]. intros [= _].
Qed.

(** ** gatherOne *)

Section GatherOne.

Variable lib : resticLib.
Variable cfg : configEntry.

Let failed : repoStats := {| Name := Repo cfg; ReadErrors := 1; Stats := ∅ |}.

Lemma gatherOne_open_error err :
  openResticBackend lib (Repo cfg) (Password cfg) (ExtraConfig cfg) = Err err ->
  gatherOne lib cfg
  = [WaitAdd; OpenBackend (Repo cfg);
     LogError "Error opening restic backend" (Repo cfg) err;
     Send failed; WaitDone].
Proof. intros H. unfold gatherOne. rewrite H. reflexivity. Qed.

Lemma gatherOne_enumerate_error repo lock col err :
  openResticBackend lib (Repo cfg) (Password cfg) (ExtraConfig cfg) = Ok (repo, lock) ->
  collectionFromAllSnapshots lib repo = (col, Some err) ->
  gatherOne lib cfg
  = [WaitAdd; OpenBackend (Repo cfg); Enumerate repo;
     LogError "Error iterating restic snapshots" (Repo cfg) err;
     Send failed; Unlock lock; WaitDone].
Proof. intros H1 H2. unfold gatherOne. rewrite H1, H2. reflexivity. Qed.

Lemma gatherOne_success repo lock col :
  openResticBackend lib (Repo cfg) (Password cfg) (ExtraConfig cfg) = Ok (repo, lock) ->
  collectionFromAllSnapshots lib repo = (col, None) ->
  gatherOne lib cfg
  = [WaitAdd; OpenBackend (Repo cfg); Enumerate repo;
     Send {| Name := Repo cfg; ReadErrors := 0; Stats := col |};
     Unlock lock; WaitDone].
Proof. intros H1 H2. unfold gatherOne. rewrite H1, H2. reflexivity. Qed.

(** Every path sends exactly one value. *)
Lemma gatherOne_sends_once : exists stats, sent (gatherOne lib cfg) = [stats].
Proof.
  destruct (openResticBackend lib (Repo cfg) (Password cfg) (ExtraConfig cfg))
    as [[repo lock]|err] eqn:Hopen.
  - destruct (collectionFromAllSnapshots lib repo) as [col [err|]] eqn:Hcol.
    + rewrite (gatherOne_enumerate_error _ _ _ _ Hopen Hcol). by eexists.
    + rewrite (gatherOne_success _ _ _ Hopen Hcol). by eexists.
  - rewrite (gatherOne_open_error _ Hopen). by eexists.
Qed.

(** Every path marks the WaitGroup done last, after any unlock. *)
Lemma gatherOne_ends_with_WaitDone : exists tr, gatherOne lib cfg = tr ++ [WaitDone].
Proof.
  destruct (openResticBackend lib (Repo cfg) (Password cfg) (ExtraConfig cfg))
    as [[repo lock]|err] eqn:Hopen.
  - destruct (collectionFromAllSnapshots lib repo) as [col [err|]] eqn:Hcol.
    + rewrite (gatherOne_enumerate_error _ _ _ _ Hopen Hcol).
      by eexists [_; _; _; _; _; _].
    + rewrite (gatherOne_success _ _ _ Hopen Hcol). by eexists [_; _; _; _; _].
  - rewrite (gatherOne_open_error _ Hopen). by eexists [_; _; _; _].
Qed.

End GatherOne.

(** The path of a failed enumeration: a snapshot loads, the next does not.
    The collection that was being filled is dropped and the lock released. *)
Example gatherOne_bad_snapshot :
  gatherOne lib_bad_snapshot (entry false "rest:R1")
  = [WaitAdd; OpenBackend "rest:R1"; Enumerate 2;
     LogError "Error iterating restic snapshots" "rest:R1" "load failed";
     Send {| Name := "rest:R1"; ReadErrors := 1; Stats := ∅ |};
     Unlock (Some 3%nat); WaitDone].
Proof. reflexivity. Qed.

(** A repository whose lock cannot be taken: the open returns no error, the
    repository is enumerated without a lock and reported as read, and
    [Unlock] is called on the nil lock. *)
Example gatherOne_lock_not_taken :
  gatherOne lib_locked (entry false "rest:R1")
  = [WaitAdd; OpenBackend "rest:R1"; Enumerate 2;
     Send {| Name := "rest:R1"; ReadErrors := 0;
             Stats := {[ "h1-u1" := {| Host := "h1"; Username := "u1";
                                       Time := 20; Count := 2 |} ]} |};
     Unlock None; WaitDone].
Proof. vm_compute. reflexivity. Qed.

(** C1, as amended: when [openResticBackend] returns without error, the
    goroutine calls [Unlock] exactly once, on the lock it was given, on the
    normal path and on the path of a failed enumeration alike.  The call is
    deferred: it comes after the goroutine has sent its value on [done] and
    before [wait.Done()], on which [Shutdown] waits.  When the open returned
    an error, [Unlock] is never called. *)
Theorem gatherOne_unlocks_once (lib : resticLib) (cfg : configEntry) :
  match openResticBackend lib (Repo cfg) (Password cfg) (ExtraConfig cfg) with
  | Ok (repo, lock) =>
      unlocks (gatherOne lib cfg) = 1%nat
      /\ exists pre stats,
           gatherOne lib cfg = pre ++ [Send stats; Unlock lock; WaitDone]
           /\ unlocks pre = 0%nat /\ sent pre = []
           /\ (snd (collectionFromAllSnapshots lib repo) = None ->
               stats = {| Name := Repo cfg; ReadErrors := 0;
                          Stats := fst (collectionFromAllSnapshots lib repo) |})
           /\ (snd (collectionFromAllSnapshots lib repo) <> None ->
               stats = {| Name := Repo cfg; ReadErrors := 1; Stats := ∅ |})
  | Err _ => unlocks (gatherOne lib cfg) = 0%nat
  end.
Proof.
  destruct (openResticBackend lib (Repo cfg) (Password cfg) (ExtraConfig cfg))
    as [[repo lock]|err] eqn:Hopen.
  - destruct (collectionFromAllSnapshots lib repo) as [col [err|]] eqn:Hcol.
    + rewrite (gatherOne_enumerate_error _ _ _ _ _ _ Hopen Hcol).
      split; [reflexivity|].
      eexists [_; _; _; _], _. repeat split; simpl; congruence.
    + rewrite (gatherOne_success _ _ _ _ _ Hopen Hcol).
      split; [reflexivity|].
      eexists [_; _; _], _. repeat split; simpl; congruence.
  - rewrite (gatherOne_open_error _ _ _ Hopen). reflexivity.
Qed.

(** C1 as stated fails: on a repository that opens and enumerates, the
    goroutine reports on [done] at position 3 of its trace and releases the
    lock at position 4, after the report; [wait.Done()] follows at
    position 5. *)
Lemma gatherOne_reports_before_unlock :
  openResticBackend lib_ok "rest:R1" "secret" None = Ok (2%nat, Some 3%nat)
  /\ position isSend (gatherOne lib_ok (entry false "rest:R1")) = Some 3%nat
  /\ position isUnlock (gatherOne lib_ok (entry false "rest:R1")) = Some 4%nat
  /\ gatherOne lib_ok (entry false "rest:R1") !! 5%nat = Some WaitDone
  /\ ~ released_before_report (gatherOne lib_ok (entry false "rest:R1")).
Proof.
  do 4 (split; [reflexivity|]).
  intros (i & j & Hi & Hj & Hlt).
  vm_compute in Hi, Hj. injection Hi as <-. injection Hj as <-. lia.
Qed.

(** ** The receive loop *)

Lemma arrivals_Permutation {A : Type} (picks : list nat) (l : list A) :
  arrivals (length l) picks l ≡ₚ l.
Proof.
  remember (length l) as n eqn:Hn. revert picks l Hn.
  induction n as [|n IH]; intros picks l Hn.
  - destruct l; [done|discriminate].
  - simpl.
    assert (Hlt : (hd 0 picks mod length l < length l)%nat)
      by (apply Nat.mod_upper_bound; lia).
    destruct (lookup_lt_is_Some_2 l _ Hlt) as [x Hx]. rewrite Hx.
    etrans; [|symmetry; apply (delete_Permutation l _ x Hx)]. constructor.
    apply IH. rewrite length_delete by eauto. lia.
Qed.

Lemma receiveLoop_all (started : nat) (now : Z) (done : list repoStats) :
  forall m, done <> [] ->
    (length (run_Stats m) + length done)%nat = started ->
    receiveLoop started m done now
    = Published {| run_Time := now; run_Errors := tally (run_Errors m) done;
                   run_Stats := run_Stats m ++ done |}.
Proof.
  induction done as [|stats done IH]; intros m Hne Hlen; [done|].
  simpl. rewrite length_app. simpl in *.
  destruct done as [|stats' done].
  - simpl in *. replace (length (run_Stats m) + 1)%nat with started by lia.
    rewrite Nat.eqb_refl. reflexivity.
  - destruct (Nat.eqb_spec (length (run_Stats m) + 1) started) as [E|_];
      [simpl in *; lia|].
    rewrite IH; [|done|simpl in *; rewrite length_app; simpl; lia].
    simpl. by rewrite <- app_assoc.
Qed.

Lemma sent_length (l : resticLib) (entries : list configEntry) :
  length (concat (map (fun entry => sent (gatherOne l entry)) entries))
  = length entries.
Proof.
  induction entries as [|e entries IH]; [done|]. simpl.
  destruct (gatherOne_sends_once l e) as [stats ->]. simpl. by rewrite IH.
Qed.

Lemma channel_Permutation (W : world) (cfg : ConfigFile) :
  channel W cfg
  ≡ₚ concat (map (fun entry => sent (gatherOne (lib W) entry)) (spawned cfg)).
Proof. apply arrivals_Permutation. Qed.

Lemma channel_length (W : world) (cfg : ConfigFile) :
  length (channel W cfg) = length (spawned cfg).
Proof. by rewrite channel_Permutation, sent_length. Qed.

(** With at least one repository enabled the run receives every value and
    publishes. *)
Lemma collect_publishes (W : world) (cfg : ConfigFile) :
  spawned cfg <> [] ->
  collect W cfg
  = Published {| run_Time := clock W; run_Errors := tally 0 (channel W cfg);
                 run_Stats := channel W cfg |}.
Proof.
  intros Hne. unfold collect. rewrite receiveLoop_all; [done| |].
  - intros E. apply (f_equal length) in E. rewrite channel_length in E.
    destruct (spawned cfg); [done|discriminate].
  - simpl. apply channel_length.
Qed.

(** With none enabled nothing is ever sent and the run blocks in its first
    receive. *)
Lemma collect_blocks (W : world) (cfg : ConfigFile) :
  spawned cfg = [] ->
  collect W cfg
  = BlockedOnReceive {| run_Time := time.zero; run_Errors := 0; run_Stats := [] |}.
Proof.
  intros E. unfold collect.
  assert (channel W cfg = []) as ->; [|by rewrite E].
  apply length_zero_iff_nil. by rewrite channel_length, E.
Qed.

(** One run over the repository "rest:R1", which holds two snapshots of
    (h1, u1), and "rest:R2", which fails to open; the value of R2 arrives
    first. *)
Example run_with_one_failure :
  collect world_ok [entry false "rest:R1"; entry false "rest:R2"]
  = Published
      {| run_Time := 1000; run_Errors := 1;
         run_Stats :=
           [ {| Name := "rest:R2"; ReadErrors := 1; Stats := ∅ |};
             {| Name := "rest:R1"; ReadErrors := 0;
                Stats := {[ "h1-u1" := {| Host := "h1"; Username := "u1";
                                          Time := 20; Count := 2 |} ]} |} ] |}.
Proof. vm_compute. reflexivity. Qed.

(** C2, at an input on which the code departs from it: a repository that
    opens, but whose lock cannot be taken because another process holds it
    exclusively.  [repository.Lock] returns no lock and an error;
    [openResticBackend] assigns that error and returns nil in its place.
    The task takes the open as succeeded, enumerates the repository
    without a lock and sends its backup sets with ReadErrors = 0, where
    the claim has ReadErrors = 1 and no backup sets; the run counts no
    error. *)
Theorem lock_failure_is_reported_as_read :
  repository_Lock lib_locked 2%nat
  = (None, Some "repository is already locked exclusively")
  /\ openResticBackend lib_locked "rest:R1" "secret" None = Ok (2%nat, None)
  /\ sent (gatherOne lib_locked (entry false "rest:R1"))
     = [{| Name := "rest:R1"; ReadErrors := 0;
           Stats := {[ "h1-u1" := {| Host := "h1"; Username := "u1";
                                     Time := 20; Count := 2 |} ]} |}]
  /\ collect {| lib := lib_locked; picks := []; clock := 1000 |}
       [entry false "rest:R1"]
     = Published
         {| run_Time := 1000; run_Errors := 0;
            run_Stats :=
              [{| Name := "rest:R1"; ReadErrors := 0;
                  Stats := {[ "h1-u1" := {| Host := "h1"; Username := "u1";
                                            Time := 20; Count := 2 |} ]} |}] |}.
Proof. repeat split; vm_compute; reflexivity. Qed.

(** ** ReloadConfig *)

Lemma NewConfigFileFromFile_Err_inv src name sc err :
  NewConfigFileFromFile src name sc = Err err ->
  os_Open src name = Err err
  \/ (exists fd, os_Open src name = Ok fd /\ json_Decode src fd = Err err)
  \/ (exists fd out client, os_Open src name = Ok fd /\ json_Decode src fd = Ok out
        /\ sc = Some client /\ populateAll client out = Err err).
Proof.
  unfold NewConfigFileFromFile.
  destruct (os_Open src name) as [fd|e] eqn:Hopen; [|intros [= ->]; by left].
  destruct (json_Decode src fd) as [out|e] eqn:Hdec;
    [|intros [= ->]; right; left; eauto].
  destruct sc as [client|]; [|done].
  intros H. right; right. by exists fd, out, client.
Qed.

(** C8: when the file cannot be opened, cannot be parsed, or a secret
    cannot be resolved, [ReloadConfig] returns that error and leaves the
    collector as it was; the next run then loads the list that was stored
    before; and in the signal loop the failed reload is logged and the
    process goes on. *)
Theorem ReloadConfig_failure_keeps_config
    (src : configSource) (c : ResticCollector) (filename : string)
    (sc : option secretsClient) (err : error) :
  (os_Open src filename = Err err
   \/ (exists fd, os_Open src filename = Ok fd /\ json_Decode src fd = Err err)
   \/ (exists fd out client,
         os_Open src filename = Ok fd /\ json_Decode src fd = Ok out
         /\ sc = Some client /\ populateAll client out = Err err)) ->
  ReloadConfig src c filename sc = (c, Some err)
  /\ (forall W cfg, config c = Some cfg -> locked c = false ->
        calls (pool_run W [0%nat; 0%nat] (pool0 (ReloadConfig src c filename sc).1 1))
        = [AtReceive cfg])
  /\ (forall E s rest pending,
        env_source E = src -> env_configFile E = filename -> env_secrets E = sc ->
        collector s = c -> main_call s = None ->
        main_rest s = SignalLoop :: rest -> sigs s = SIGHUP :: pending ->
        collector (step E RunMain s) = c
        /\ main_rest (step E RunMain s) = SignalLoop :: rest
        /\ log (step E RunMain s) = log s ++ [LogReloadError err]).
Proof.
  intros Hfail.
  assert (Hnew : NewConfigFileFromFile src filename sc = Err err).
  { unfold NewConfigFileFromFile.
    destruct Hfail as [H|[(fd & H1 & H2)|(fd & out & client & H1 & H2 & -> & H3)]].
    - by rewrite H.
    - by rewrite H1, H2.
    - by rewrite H1, H2. }
  assert (Hreload : ReloadConfig src c filename sc = (c, Some err))
    by (unfold ReloadConfig; by rewrite Hnew).
  split; [exact Hreload|]. split.
  - intros W cfg Hcfg Hlocked. rewrite Hreload. simpl.
    unfold pool_step. simpl. rewrite Hlocked. simpl. by rewrite Hcfg.
  - intros E s rest pending <- <- <- <- Hcall Hrest Hsigs.
    simpl. unfold main_step. rewrite Hcall, Hrest, Hsigs, Hreload. by simpl.
Qed.

(** The witness: a collector that holds a configuration, and a file that
    no longer parses. *)
Lemma ReloadConfig_failure_keeps_config_witness :
  let c := (ReloadConfig source_ok NewResticCollector "config.json" None).1 in
  ReloadConfig source_broken c "config.json" None
  = (c, Some "unexpected end of JSON input").
Proof.
  intros c.
  apply (ReloadConfig_failure_keeps_config source_broken c "config.json" None
           "unexpected end of JSON input").
  right; left. exists "[...]". split; reflexivity.
Defined.

(** ** Concurrent calls of GatherMetrics *)

Section Pool.

Variable W : world.

Lemma pool_step_outside i p : calls p !! i = None -> pool_step W i p = p.
Proof. intros H. unfold pool_step. by rewrite H. Qed.


Lemma count_events_app f l1 l2 :
  count_events f (l1 ++ l2) = (count_events f l1 + count_events f l2)%nat.
Proof. unfold count_events. by rewrite List.filter_app, length_app. Qed.


(** A call that finds the mutex held returns at once: it logs that a run
    is in progress and does nothing else. *)
Lemma GatherMetrics_busy c :
  locked c = true ->
  GatherMetrics_step W c AtTryLock = (c, Returned true, [LogBusy]).
Proof. intros H. simpl. by rewrite H. Qed.

(** A call that has returned takes no further step. *)
Lemma GatherMetrics_returned c busy :
  GatherMetrics_step W c (Returned busy) = (c, Returned busy, []).
Proof. reflexivity. Qed.

Lemma stuck_inv_step c cfg i p :
  config c = Some cfg -> spawned cfg = [] ->
  stuck_inv c cfg p -> stuck_inv c cfg (pool_step W i p).
Proof.
  intros Hcfg Hnone (Hcoll & Hpub & st0 & others & Hcalls & Hst0 & Hothers).
  unfold pool_step. rewrite Hcalls.
  destruct i as [|i]; simpl.
  - destruct Hst0 as [->| ->]; simpl.
    + rewrite Hcoll. simpl. rewrite Hcfg. unfold stuck_inv. simpl.
      rewrite count_events_app, Hpub. repeat split; try done.
      exists (AtReceive cfg), others. eauto.
    + rewrite (collect_blocks W cfg Hnone). unfold stuck_inv. simpl.
      rewrite app_nil_r. repeat split; try done.
      exists (AtReceive cfg), others. eauto.
  - destruct (others !! i) as [st|] eqn:Hi; simpl.
    + pose proof (Forall_lookup_1 _ _ _ _ Hothers Hi) as Hst. simpl in Hst.
      destruct Hst as [->| ->]; simpl.
      * rewrite Hcoll. unfold stuck_inv. simpl.
        rewrite count_events_app, Hpub. repeat split; try done.
        exists st0, (<[i := Returned true]> others).
        repeat split; [done|]. apply Forall_insert; eauto.
      * unfold stuck_inv. simpl. rewrite app_nil_r. repeat split; try done.
        exists st0, (<[i := Returned true]> others).
        repeat split; [done|]. apply Forall_insert; eauto.
    + unfold stuck_inv. repeat split; try done. exists st0, others. eauto.
Qed.

Lemma stuck_inv_run c cfg schedule : forall p,
  config c = Some cfg -> spawned cfg = [] ->
  stuck_inv c cfg p -> stuck_inv c cfg (pool_run W schedule p).
Proof.
  induction schedule as [|i schedule IH]; intros p Hcfg Hnone Hinv; [done|].
  simpl. apply IH; [done|done|]. by apply stuck_inv_step.
Qed.







End Pool.

Lemma spawned_nonempty (cfg : ConfigFile) :
  spawned cfg <> [] <-> exists entry, entry ∈ cfg /\ Disabled entry = false.
Proof.
  unfold spawned. split.
  - intros Hne. destruct (filter _ cfg) as [|e l] eqn:E; [done|].
    exists e.
    assert (H : e ∈ filter (fun entry => Disabled entry = false) cfg)
      by (rewrite E; by left).
    apply list_elem_of_filter in H. tauto.
  - intros (e & Hin & Hd) E.
    assert (H : e ∈ filter (fun entry => Disabled entry = false) cfg)
      by (by apply list_elem_of_filter).
    rewrite E in H. inversion H.
Qed.

(** C9: a run publishes exactly when the configuration it loaded has an
    enabled repository.  With none enabled the receive loop blocks: in every
    schedule in which the call takes the lock first, it never returns, the
    lock stays held, nothing is published, and every other call that runs
    returns busy. *)
Theorem GatherMetrics_needs_an_enabled_repository (W : world) (cfg : ConfigFile) :
  ((exists m, collect W cfg = Published m)
   <-> (exists entry, entry ∈ cfg /\ Disabled entry = false))
  /\ (spawned cfg = [] ->
      (exists m, collect W cfg = BlockedOnReceive m)
      /\ forall c n schedule, config c = Some cfg -> locked c = false ->
           let p := pool_run W (0%nat :: schedule) (pool0 c (S n)) in
           (calls p !! 0%nat = Some AtLoad \/ calls p !! 0%nat = Some (AtReceive cfg))
           /\ locked (coll p) = true
           /\ metrics (coll p) = metrics c
           /\ count_events isPublish (plog p) = 0%nat
           /\ forall i st, i <> 0%nat -> calls p !! i = Some st ->
                 st = AtTryLock \/ st = Returned true).
Proof.
  split.
  - rewrite <- spawned_nonempty. split.
    + intros [m Hm] E. by rewrite (collect_blocks W cfg E) in Hm.
    + intros Hne. rewrite (collect_publishes W cfg Hne). by eexists.
  - intros Hnone. split; [rewrite (collect_blocks W cfg Hnone); by eexists|].
    intros c n schedule Hcfg Hlocked p.
    assert (Hinv : stuck_inv c cfg p).
    { unfold p. simpl. apply stuck_inv_run; [done|done|].
      unfold pool_step. simpl. rewrite Hlocked. unfold stuck_inv. simpl.
      repeat split. exists AtLoad, (replicate n AtTryLock).
      repeat split; [by left|]. apply Forall_replicate. by left. }
    destruct Hinv as (Hcoll & Hpub & st0 & others & Hcalls & Hst0 & Hothers).
    rewrite Hcalls, Hcoll. simpl. repeat split; try done.
    + destruct Hst0 as [->| ->]; eauto.
    + intros [|i] st Hi Hst; [done|]. simpl in Hst.
      exact (Forall_lookup_1 _ _ _ _ Hothers Hst).
Qed.

(** The witness: a configuration with both repositories disabled, the
    scheduler having fired twice more while the first call is blocked. *)
Lemma GatherMetrics_needs_an_enabled_repository_witness :
  let p := pool_run world_ok [0; 0; 0; 1; 2; 0; 1]%nat (pool0 collector_all_disabled 3) in
  locked (coll p) = true /\ count_events isPublish (plog p) = 0%nat.
Proof.
  intros p.
  destruct (GatherMetrics_needs_an_enabled_repository world_ok
              [entry true "rest:R1"; entry true "rest:R2"]) as [_ H].
  destruct (H eq_refl) as [_ H'].
  destruct (H' collector_all_disabled 2%nat [0; 0; 1; 2; 0; 1]%nat eq_refl eq_refl)
    as (_ & Hl & _ & Hp & _).
  split; [exact Hl|exact Hp].
Defined.





(** ** Collect *)

Lemma collectSet_Some name now legacyNow set :
  Forall is_Some (collectSet name now legacyNow set).
Proof. repeat constructor; by eexists. Qed.

Lemma collectSets_Some name now clk sets : forall k,
  Forall is_Some (collectSets name now clk k sets).1.
Proof.
  induction sets as [|set sets IH]; intros k; simpl; [constructor|].
  specialize (IH (S k)). destruct (collectSets name now clk (S k) sets) as [ms k'].
  simpl in *. repeat (constructor; [by eexists|]). done.
Qed.

Lemma collectStats_Some now clk l : forall k,
  Forall is_Some (collectStats now clk k l).
Proof.
  induction l as [|stats l IH]; intros k; simpl; [constructor|].
  pose proof (collectSets_Some (Name stats) now clk
                (snd <$> map_to_list (Stats stats)) k) as Hsets.
  destruct (collectSets _ now clk k _) as [ms k']. simpl in *.
  constructor; [by eexists|]. apply Forall_app. split; [done|apply IH].
Qed.

Lemma collectStats_readErrorCount now clk l stats : forall k,
  stats ∈ l ->
  Some {| desc := readErrorCount; value := float64.of_int (ReadErrors stats);
          labelValues := [Name stats] |} ∈ collectStats now clk k l.
Proof.
  induction l as [|stats' l IH]; intros k Hin; [inversion Hin|]. simpl.
  destruct (collectSets _ now clk k _) as [ms k'].
  apply elem_of_cons in Hin as [->|Hin].
  - by left.
  - right. apply elem_of_app. right. by apply IH.
Qed.

Lemma mapM_id_elem {A : Type} (l : list (option A)) (k : list A) (x : A) :
  mapM id l = Some k -> Some x ∈ l -> x ∈ k.
Proof.
  intros HM Hin. apply mapM_Some in HM.
  apply list_elem_of_lookup in Hin as [i Hi].
  destruct (Forall2_lookup_l _ _ _ _ _ HM Hi) as (y & Hy & Heq).
  simpl in Heq. injection Heq as <-. apply list_elem_of_lookup. eauto.
Qed.

(** C10: [Collect] dereferences the pointer it loads.  Before any run has
    been published the pointer is nil and the call ends in a nil pointer
    dereference.  Once a run has been published the call does not panic,
    leaves the collector as it was, and every sample it emits is computed
    from the one run it loaded: the two job gauges are that run's, there is
    a read_error_count gauge for each of its repositories, and the outcome
    is the same for every collector state holding that run. *)
Theorem Collect_reads_one_published_run
    (c : ResticCollector) (now : Z) (clk : nat -> Z) :
  (metrics c = None -> Collect c now clk = (c, NilPointerDereference))
  /\ (forall m, metrics c = Some m ->
        (Collect c now clk).1 = c
        /\ (forall c', metrics c' = Some m ->
              (Collect c' now clk).2 = (Collect c now clk).2)
        /\ exists ms,
             (Collect c now clk).2 = Scraped ms
             /\ ms !! 0%nat
                = Some {| desc := lastSuccessTime;
                          value := float64.div
                                     (float64.of_int (time.UnixNano (run_Time m)))
                                     1000000000%Q;
                          labelValues := [] |}
             /\ ms !! 1%nat
                = Some {| desc := jobErrorCount;
                          value := float64.of_int (run_Errors m);
                          labelValues := [] |}
             /\ forall stats, stats ∈ run_Stats m ->
                  {| desc := readErrorCount;
                     value := float64.of_int (ReadErrors stats);
                     labelValues := [Name stats] |} ∈ ms).
Proof.
  split.
  - intros H. unfold Collect. by rewrite H.
  - intros m Hm. unfold Collect. rewrite Hm. simpl.
    split; [done|]. split; [intros c' ->; done|].
    unfold collectRun.
    set (l := MustNewConstMetric lastSuccessTime _ [] :: _).
    assert (HS : is_Some (mapM id l)).
    { apply mapM_is_Some. unfold l.
      repeat (constructor; [by eexists|]). apply collectStats_Some. }
    destruct HS as [ms Hms]. rewrite Hms. exists ms. split; [done|].
    pose proof Hms as HF. apply mapM_Some in HF.
    split; [|split].
    + destruct (Forall2_lookup_l _ _ _ 0%nat _ HF eq_refl) as (y & -> & Hy).
      simpl in Hy. by injection Hy as <-.
    + destruct (Forall2_lookup_l _ _ _ 1%nat _ HF eq_refl) as (y & -> & Hy).
      simpl in Hy. by injection Hy as <-.
    + intros stats Hin. apply (mapM_id_elem l ms _ Hms).
      unfold l. do 2 right. by apply collectStats_readErrorCount.
Qed.

(** The witness: a scrape of a collector that has published nothing. *)
Lemma Collect_reads_one_published_run_witness :
  Collect NewResticCollector 0 (fun _ => 0) = (NewResticCollector, NilPointerDereference).
Proof.
  apply (Collect_reads_one_published_run NewResticCollector 0 (fun _ => 0)).
  reflexivity.
Defined.

(** ** main *)

(** When the scheduler stays quiet during the start, the synchronous call
    collects and publishes before the server listens, and the scrape is
    answered from that run. *)
Example startup_quiet_serves_the_first_run :
  match log (run env_ok startup_quiet boot) with
  | [Call None Acquired; Call None (LoadedConfig _); Call None (Started 2);
     Call None (Publish m); Call None Released; Served (Scraped _)] =>
      metrics (collector (run env_ok startup_quiet boot)) = Some m
  | _ => False
  end.
Proof. vm_compute. reflexivity. Qed.

(** C6, at an input on which the code departs from it.  In program order
    [main] starts the scheduler before its synchronous collection, and the
    server after it.  When the cron expression matches between
    [sched.Start()] and the synchronous call, the scheduler's run holds the
    mutex, the synchronous call returns busy without collecting, and a
    scrape is served, by a nil pointer dereference, before any run has been
    published. *)
Theorem startup_scrape_before_first_publish :
  main = [NewCollector; InitialReloadConfig; NewScheduler]
         ++ SchedStart :: InitialGatherMetrics :: ListenAndServe :: [SignalLoop]
  /\ log (run env_ok startup_race boot)
     = [Call (Some 0%nat) Acquired; Call None LogBusy; Served NilPointerDereference]
  /\ metrics (collector (run env_ok startup_race boot)) = None
  /\ http_listening (run env_ok startup_race boot) = true.
Proof. repeat split; reflexivity. Qed.

(** ** float64 and DayAge *)

Section Float64.

Import float64.
Local Open Scope Q_scope.

(** *** Powers of two *)

Lemma pow2_pos e : 0 < 2 ^ e.
Proof. apply Qpower_0_lt. reflexivity. Qed.

Lemma pow2_le a b : (a <= b)%Z -> 2 ^ a <= 2 ^ b.
Proof. intros H. apply Qpower_le_compat_l; [exact H|discriminate]. Qed.

Lemma pow2_lt a b : (a < b)%Z -> 2 ^ a < 2 ^ b.
Proof. intros H. apply Qpower_lt_compat_l; [exact H|reflexivity]. Qed.

Lemma pow2_add a b : 2 ^ (a + b) == 2 ^ a * 2 ^ b.
Proof. apply Qpower_plus. discriminate. Qed.

Lemma pow2_succ a : 2 ^ (a + 1) == 2 * 2 ^ a.
Proof. rewrite pow2_add. change (2 ^ 1) with 2. ring. Qed.

Lemma pow2_Z n : (0 <= n)%Z -> inject_Z (2 ^ n) == 2 ^ n.
Proof. intros H. exact (Zpower_Qpower 2 n H). Qed.

Lemma pow2_div x e : x / 2 ^ e == x * 2 ^ (- e).
Proof. rewrite Qpower_opp. reflexivity. Qed.

Lemma Qlog2_spec x : 0 < x -> 2 ^ Qlog2 x <= x /\ x < 2 ^ (Qlog2 x + 1).
Proof.
  intros Hx. unfold Qlog2.
  destruct x as [n d]. cbn [Qnum Qden].
  assert (Hn : (0 < n)%Z) by (unfold Qlt in Hx; simpl in Hx; lia).
  set (a := Z.log2 n). set (b := Z.log2 (Zpos d)).
  destruct (Z.log2_spec n Hn) as [Ha1 Ha2]. fold a in Ha1, Ha2.
  destruct (Z.log2_spec (Zpos d) eq_refl) as [Hb1 Hb2]. fold b in Hb1, Hb2.
  assert (Ha0 : (0 <= a)%Z) by apply Z.log2_nonneg.
  assert (Hb0 : (0 <= b)%Z) by apply Z.log2_nonneg.
  assert (Hx' : n # d == inject_Z n / inject_Z (Zpos d)) by apply Qmake_Qdiv.
  assert (Hd : 0 < inject_Z (Zpos d)) by reflexivity.
  assert (Hxd : (n # d) * inject_Z (Zpos d) == inject_Z n).
  { rewrite Hx'. field. intros E. rewrite E in Hd. discriminate. }
  assert (Ea : 2 ^ a == 2 ^ (a - b) * 2 ^ b).
  { rewrite <- pow2_add. replace (a - b + b)%Z with a by lia. reflexivity. }
  assert (Qa1 : 2 ^ a <= inject_Z n).
  { rewrite <- pow2_Z by lia. rewrite <- Zle_Qle. exact Ha1. }
  assert (Qa2 : inject_Z n < 2 ^ (a + 1)).
  { rewrite <- pow2_Z by lia. rewrite <- Zlt_Qlt. exact Ha2. }
  assert (Qb1 : 2 ^ b <= inject_Z (Zpos d)).
  { rewrite <- pow2_Z by lia. rewrite <- Zle_Qle. exact Hb1. }
  assert (Qb2 : inject_Z (Zpos d) < 2 ^ (b + 1)).
  { rewrite <- pow2_Z by lia. rewrite <- Zlt_Qlt. exact Hb2. }
  pose proof (pow2_pos (a - b)) as Hp.
  pose proof (pow2_pos b) as Hpb.
  rewrite pow2_succ in Qa2, Qb2.
  destruct (Qle_bool (2 ^ (a - b)) (n # d)) eqn:E.
  - apply Qle_bool_iff in E. split; [exact E|].
    rewrite pow2_succ.
    apply (Qmult_lt_r _ _ (inject_Z (Zpos d)) Hd). rewrite Hxd.
    eapply Qlt_le_trans; [exact Qa2|]. rewrite Ea.
    rewrite <- Qmult_assoc. apply Qmult_le_l; [reflexivity|].
    apply Qmult_le_l; [exact Hp|exact Qb1].
  - assert (E' : n # d < 2 ^ (a - b)).
    { apply Qnot_le_lt. intros H. apply Qle_bool_iff in H. congruence. }
    replace (a - b - 1 + 1)%Z with (a - b)%Z by lia. split; [|exact E'].
    apply Qlt_le_weak.
    apply (Qmult_lt_r _ _ (inject_Z (Zpos d)) Hd). rewrite Hxd.
    eapply Qlt_le_trans; [|exact Qa1]. rewrite Ea.
    assert (E2 : 2 ^ (a - b) == 2 * 2 ^ (a - b - 1)).
    { rewrite <- pow2_succ. replace (a - b - 1 + 1)%Z with (a - b)%Z by lia. reflexivity. }
    rewrite E2. pose proof (pow2_pos (a - b - 1)) as Hp1.
    assert (H3 : 2 ^ (a - b - 1) * inject_Z (Zpos d) < 2 ^ (a - b - 1) * (2 * 2 ^ b)).
    { apply Qmult_lt_l; [exact Hp1|exact Qb2]. }
    eapply Qlt_le_trans; [exact H3|]. apply Qle_lteq. right. ring.
Qed.

Lemma Qlog2_unique x e : 0 < x -> 2 ^ e <= x -> x < 2 ^ (e + 1) -> Qlog2 x = e.
Proof.
  intros Hx H1 H2. destruct (Qlog2_spec x Hx) as [L1 L2].
  assert (A : (Qlog2 x < e + 1)%Z).
  { apply (Qpower_lt_compat_l_inv 2); [|reflexivity]. eapply Qle_lt_trans; eauto. }
  assert (B : (e < Qlog2 x + 1)%Z).
  { apply (Qpower_lt_compat_l_inv 2); [|reflexivity]. eapply Qle_lt_trans; eauto. }
  lia.
Qed.

Lemma Qlog2_mono x y : 0 < x -> x <= y -> (Qlog2 x <= Qlog2 y)%Z.
Proof.
  intros Hx Hxy.
  assert (Hy : 0 < y) by (eapply Qlt_le_trans; eauto).
  destruct (Qlog2_spec x Hx) as [L1 L2]. destruct (Qlog2_spec y Hy) as [M1 M2].
  assert (A : (Qlog2 x < Qlog2 y + 1)%Z).
  { apply (Qpower_lt_compat_l_inv 2); [|reflexivity].
    eapply Qle_lt_trans; [exact L1|]. eapply Qle_lt_trans; eauto. }
  lia.
Qed.

(** *** Rounding to the nearest float64 is monotone *)

Lemma rnd_ne_bounds x : (Qfloor x <= rnd_ne x <= Qfloor x + 1)%Z.
Proof.
  unfold rnd_ne. destruct (Qcompare _ _); [destruct (Z.even _)| |]; lia.
Qed.

Lemma rnd_ne_Z z : rnd_ne (inject_Z z) = z.
Proof.
  unfold rnd_ne. rewrite Qfloor_Z.
  destruct (Qcompare_spec (inject_Z z - inject_Z z) (1 # 2)) as [E|L|G];
    [exfalso; lra|reflexivity|exfalso; lra].
Qed.

Lemma rnd_ne_mono x y : x <= y -> (rnd_ne x <= rnd_ne y)%Z.
Proof.
  intros Hxy.
  pose proof (Qfloor_resp_le x y Hxy) as Hf.
  pose proof (rnd_ne_bounds x) as Bx. pose proof (rnd_ne_bounds y) as By.
  destruct (Z.eq_dec (Qfloor x) (Qfloor y)) as [E|NE]; [|lia].
  unfold rnd_ne in *. rewrite <- E in *. clear Bx By Hf.
  set (f := Qfloor x) in *.
  assert (Hr : x - inject_Z f <= y - inject_Z f) by lra.
  destruct (Qcompare_spec (x - inject_Z f) (1 # 2)) as [Ex|Lx|Gx];
  destruct (Qcompare_spec (y - inject_Z f) (1 # 2)) as [Ey|Ly|Gy];
    try destruct (Z.even f); try lia; exfalso; lra.
Qed.

Lemma rnd_ne_le_Z x z : x <= inject_Z z -> (rnd_ne x <= z)%Z.
Proof. intros H. rewrite <- (rnd_ne_Z z). by apply rnd_ne_mono. Qed.

Lemma rnd_ne_ge_Z x z : inject_Z z <= x -> (z <= rnd_ne x)%Z.
Proof. intros H. rewrite <- (rnd_ne_Z z). by apply rnd_ne_mono. Qed.

Lemma ulp_exp_mono x y : 0 < x -> x <= y -> (ulp_exp x <= ulp_exp y)%Z.
Proof. intros Hx Hxy. unfold ulp_exp. pose proof (Qlog2_mono x y Hx Hxy). lia. Qed.

(** Scaling by the unit in the last place and back. *)
Lemma scale_back x e : x / 2 ^ e * 2 ^ e == x.
Proof. field. intros E. pose proof (pow2_pos e) as H. rewrite E in H. discriminate. Qed.

Lemma scale_le x y e : x <= y -> x / 2 ^ e <= y / 2 ^ e.
Proof.
  intros H. unfold Qdiv. apply Qmult_le_compat_r; [exact H|].
  apply Qlt_le_weak, Qinv_lt_0_compat, pow2_pos.
Qed.

(** A value on the grid of spacing [2^e]: an integer multiple of it. *)
Lemma pow2_ratio a e : (e <= a)%Z -> 2 ^ a / 2 ^ e == inject_Z (2 ^ (a - e)).
Proof.
  intros H. rewrite pow2_Z by lia. rewrite Qpower_minus by discriminate. reflexivity.
Qed.

Lemma round_pos_le_pow2 x a :
  0 < x -> x <= 2 ^ a -> (ulp_exp x <= a)%Z -> round_pos x <= 2 ^ a.
Proof.
  intros Hx Hle He. unfold round_pos. set (e := ulp_exp x) in *.
  assert (H : (rnd_ne (x / 2 ^ e) <= 2 ^ (a - e))%Z).
  { apply rnd_ne_le_Z. rewrite <- pow2_ratio by lia. by apply scale_le. }
  rewrite Zle_Qle in H.
  assert (E : 2 ^ a == inject_Z (2 ^ (a - e)) * 2 ^ e).
  { rewrite <- pow2_ratio by lia. by rewrite scale_back. }
  rewrite E. apply Qmult_le_compat_r; [exact H|]. apply Qlt_le_weak, pow2_pos.
Qed.

Lemma round_pos_ge_pow2 x a :
  0 < x -> 2 ^ a <= x -> (ulp_exp x <= a)%Z -> 2 ^ a <= round_pos x.
Proof.
  intros Hx Hle He. unfold round_pos. set (e := ulp_exp x) in *.
  assert (H : (2 ^ (a - e) <= rnd_ne (x / 2 ^ e))%Z).
  { apply rnd_ne_ge_Z. rewrite <- pow2_ratio by lia. by apply scale_le. }
  rewrite Zle_Qle in H.
  assert (E : 2 ^ a == inject_Z (2 ^ (a - e)) * 2 ^ e).
  { rewrite <- pow2_ratio by lia. by rewrite scale_back. }
  rewrite E. apply Qmult_le_compat_r; [exact H|]. apply Qlt_le_weak, pow2_pos.
Qed.

Lemma round_pos_mono x y : 0 < x -> x <= y -> round_pos x <= round_pos y.
Proof.
  intros Hx Hxy.
  assert (Hy : 0 < y) by (eapply Qlt_le_trans; eauto).
  pose proof (ulp_exp_mono x y Hx Hxy) as He.
  destruct (Z.eq_dec (ulp_exp x) (ulp_exp y)) as [E|NE].
  - unfold round_pos. rewrite E.
    apply Qmult_le_compat_r; [|apply Qlt_le_weak, pow2_pos].
    rewrite <- Zle_Qle. apply rnd_ne_mono. by apply scale_le.
  - assert (Hy' : ulp_exp y = (Qlog2 y - 52)%Z) by (unfold ulp_exp in *; lia).
    destruct (Qlog2_spec x Hx) as [_ Lx]. destruct (Qlog2_spec y Hy) as [Ly _].
    assert (Hl : (Qlog2 x + 1 <= Qlog2 y)%Z) by (unfold ulp_exp in *; lia).
    apply Qle_trans with (2 ^ Qlog2 y).
    + apply round_pos_le_pow2; [done| |lia].
      apply Qlt_le_weak. eapply Qlt_le_trans; [exact Lx|]. by apply pow2_le.
    + apply round_pos_ge_pow2; [done|done|lia].
Qed.

Lemma round_pos_nonneg x : 0 < x -> 0 <= round_pos x.
Proof.
  intros Hx. unfold round_pos.
  apply Qmult_le_0_compat; [|apply Qlt_le_weak, pow2_pos].
  change 0 with (inject_Z 0). rewrite <- Zle_Qle. apply rnd_ne_ge_Z.
  apply Qlt_le_weak. unfold Qdiv. apply Qmult_lt_0_compat; [done|].
  apply Qinv_lt_0_compat, pow2_pos.
Qed.

(** [round64] by the sign of its argument. *)
Lemma round64_pos x : 0 < x -> round64 x = round_pos x.
Proof.
  intros H. unfold round64. destruct x as [[|p|p] d]; try done.
Qed.

Lemma round64_neg x : x < 0 -> round64 x = - round_pos (- x).
Proof.
  intros H. unfold round64. destruct x as [[|p|p] d]; try done.
Qed.

Lemma round64_zero x : x == 0 -> round64 x = 0.
Proof.
  intros H. unfold round64. destruct x as [[|p|p] d]; try done.
Qed.

Lemma round64_mono x y : x <= y -> round64 x <= round64 y.
Proof.
  intros Hxy.
  destruct (Qlt_le_dec 0 x) as [Hx|Hx].
  - assert (Hy : 0 < y) by (eapply Qlt_le_trans; eauto).
    rewrite (round64_pos x Hx), (round64_pos y Hy). by apply round_pos_mono.
  - assert (Hrx : round64 x <= 0).
    { destruct (Qle_lt_or_eq _ _ Hx) as [Hx'|Hx'].
      - rewrite (round64_neg x Hx').
        assert (0 <= round_pos (- x)) by (apply round_pos_nonneg; lra). lra.
      - rewrite (round64_zero x Hx'). apply Qle_refl. }
    destruct (Qlt_le_dec 0 y) as [Hy|Hy].
    + rewrite (round64_pos y Hy). pose proof (round_pos_nonneg y Hy). lra.
    + destruct (Qle_lt_or_eq _ _ Hy) as [Hy'|Hy'].
      * assert (Hx' : x < 0) by lra.
        rewrite (round64_neg x Hx'), (round64_neg y Hy').
        apply Qopp_le_compat. apply round_pos_mono; lra.
      * rewrite (round64_zero y Hy'). exact Hrx.
Qed.

Lemma round64_opp x : round64 (- x) == - round64 x.
Proof.
  destruct (Qlt_le_dec 0 x) as [Hx|Hx].
  - rewrite (round64_pos x Hx). rewrite round64_neg by lra.
    assert (E : - - x = x) by (destruct x; unfold Qopp; simpl; f_equal; lia).
    rewrite E. reflexivity.
  - destruct (Qle_lt_or_eq _ _ Hx) as [Hx'|Hx'].
    + rewrite (round64_neg x Hx'). rewrite round64_pos by lra. ring.
    + rewrite (round64_zero x Hx'). rewrite round64_zero by lra. reflexivity.
Qed.

#[global] Instance round64_Proper : Proper (Qeq ==> Qeq) round64.
Proof.
  intros x y E. apply Qle_antisym; apply round64_mono; rewrite E; apply Qle_refl.
Qed.

(** *** Float64 values are left unchanged *)

Lemma rnd_ne_eq_Z x z : x == inject_Z z -> rnd_ne x = z.
Proof.
  intros E. apply Z.le_antisymm.
  - apply rnd_ne_le_Z. rewrite E. apply Qle_refl.
  - apply rnd_ne_ge_Z. rewrite E. apply Qle_refl.
Qed.

Lemma Qlog2_scaled m e : (0 < m)%Z -> Qlog2 (inject_Z m * 2 ^ e) = (Z.log2 m + e)%Z.
Proof.
  intros Hm. destruct (Z.log2_spec m Hm) as [L1 L2].
  pose proof (Z.log2_nonneg m) as L0. pose proof (pow2_pos e) as He.
  rewrite Zle_Qle, pow2_Z in L1 by lia. rewrite Zlt_Qlt, pow2_Z in L2 by lia.
  apply Qlog2_unique.
  - apply Qmult_lt_0_compat; [|exact He]. change 0 with (inject_Z 0).
    rewrite <- Zlt_Qlt. exact Hm.
  - rewrite pow2_add. apply Qmult_le_compat_r; [exact L1|lra].
  - replace (Z.log2 m + e + 1)%Z with (Z.succ (Z.log2 m) + e)%Z by lia.
    rewrite pow2_add. apply Qmult_lt_compat_r; [exact He|exact L2].
Qed.

Lemma round_pos_exact m e :
  (0 < m < 2 ^ 53)%Z -> (-1074 <= e)%Z ->
  round_pos (inject_Z m * 2 ^ e) == inject_Z m * 2 ^ e.
Proof.
  intros [Hm Hm53] He. unfold round_pos, ulp_exp. rewrite Qlog2_scaled by exact Hm.
  assert (Hl : (Z.log2 m < 53)%Z) by (apply Z.log2_lt_pow2; lia).
  set (u := Z.max (Z.log2 m + e - 52) (-1074)).
  assert (Hu : (u <= e)%Z) by (unfold u; lia).
  assert (E : inject_Z m * 2 ^ e / 2 ^ u == inject_Z (m * 2 ^ (e - u))).
  { rewrite inject_Z_mult, pow2_Z by lia. rewrite Qpower_minus by discriminate.
    field. intros E. pose proof (pow2_pos u) as H. rewrite E in H. discriminate. }
  rewrite (rnd_ne_eq_Z _ _ E).
  rewrite inject_Z_mult, pow2_Z by lia. rewrite Qpower_minus by discriminate.
  field. intros E'. pose proof (pow2_pos u) as H. rewrite E' in H. discriminate.
Qed.

(** A value with a 53-bit significand and an exponent in range is a
    float64: rounding leaves it unchanged. *)
Lemma round64_exact m e :
  (Z.abs m < 2 ^ 53)%Z -> (-1074 <= e)%Z ->
  round64 (inject_Z m * 2 ^ e) == inject_Z m * 2 ^ e.
Proof.
  intros Hm He. pose proof (pow2_pos e) as Hp.
  destruct (Z.lt_trichotomy m 0) as [Hneg|[->|Hpos]].
  - assert (E : inject_Z m * 2 ^ e == - (inject_Z (- m) * 2 ^ e))
      by (rewrite inject_Z_opp; ring).
    rewrite E, round64_opp.
    assert (Hx : 0 < inject_Z (- m) * 2 ^ e).
    { apply Qmult_lt_0_compat; [|exact Hp]. change 0 with (inject_Z 0).
      rewrite <- Zlt_Qlt. lia. }
    rewrite (round64_pos _ Hx), round_pos_exact by lia. reflexivity.
  - rewrite round64_zero; ring.
  - assert (Hx : 0 < inject_Z m * 2 ^ e).
    { apply Qmult_lt_0_compat; [|exact Hp]. change 0 with (inject_Z 0).
      rewrite <- Zlt_Qlt. lia. }
    rewrite (round64_pos _ Hx). apply round_pos_exact; lia.
Qed.

Lemma round64_Z z : (Z.abs z < 2 ^ 53)%Z -> round64 (inject_Z z) == inject_Z z.
Proof.
  intros H. pose proof (round64_exact z 0 H ltac:(lia)) as E.
  change (2 ^ 0) with 1 in E. rewrite Qmult_1_r in E. exact E.
Qed.

Lemma of_int_exact z : (Z.abs z < 2 ^ 53)%Z -> of_int z == inject_Z z.
Proof. apply round64_Z. Qed.

Lemma of_int_mono a b : (a <= b)%Z -> of_int a <= of_int b.
Proof. intros H. apply round64_mono. rewrite <- Zle_Qle. exact H. Qed.

Lemma of_int_opp a : of_int (- a) == - of_int a.
Proof. unfold of_int. rewrite inject_Z_opp. apply round64_opp. Qed.

(** Bounding a rounded value by a float64. *)
Lemma round64_le x m e :
  (Z.abs m < 2 ^ 53)%Z -> (-1074 <= e)%Z ->
  x <= inject_Z m * 2 ^ e -> round64 x <= inject_Z m * 2 ^ e.
Proof. intros Hm He H. rewrite <- (round64_exact m e Hm He). by apply round64_mono. Qed.

Lemma round64_ge x m e :
  (Z.abs m < 2 ^ 53)%Z -> (-1074 <= e)%Z ->
  inject_Z m * 2 ^ e <= x -> inject_Z m * 2 ^ e <= round64 x.
Proof. intros Hm He H. rewrite <- (round64_exact m e Hm He). by apply round64_mono. Qed.

Lemma round64_le_Z x z : (Z.abs z < 2 ^ 53)%Z -> x <= inject_Z z -> round64 x <= inject_Z z.
Proof. intros Hz H. rewrite <- (round64_Z z Hz). by apply round64_mono. Qed.

Lemma round64_ge_Z x z : (Z.abs z < 2 ^ 53)%Z -> inject_Z z <= x -> inject_Z z <= round64 x.
Proof. intros Hz H. rewrite <- (round64_Z z Hz). by apply round64_mono. Qed.

(** [to_int] *)
Lemma to_int_nonneg x : 0 <= x -> to_int x = Qfloor x.
Proof.
  intros H. destruct x as [n d]. unfold to_int, Qfloor. simpl.
  apply Z.quot_div_nonneg; [|lia]. unfold Qle in H. simpl in H. lia.
Qed.

Lemma to_int_opp x : to_int (- x) = (- to_int x)%Z.
Proof. destruct x as [n d]. unfold to_int. simpl. apply Z.quot_opp_l. lia. Qed.

Lemma to_int_nonpos x : x <= 0 -> to_int x = (- Qfloor (- x))%Z.
Proof.
  intros H. assert (E : x = - - x) by (destruct x; unfold Qopp; simpl; f_equal; lia).
  rewrite E at 1. rewrite to_int_opp, to_int_nonneg by lra. reflexivity.
Qed.

Lemma to_int_mono x y : x <= y -> (to_int x <= to_int y)%Z.
Proof.
  intros Hxy.
  destruct (Qlt_le_dec x 0) as [Hx|Hx]; destruct (Qlt_le_dec y 0) as [Hy|Hy].
  - rewrite (to_int_nonpos x), (to_int_nonpos y) by lra.
    assert (Qfloor (- y) <= Qfloor (- x))%Z; [|lia].
    apply Qfloor_resp_le. lra.
  - rewrite (to_int_nonpos x), (to_int_nonneg y) by lra.
    assert (0 <= Qfloor (- x))%Z
      by (rewrite <- (Qfloor_Z 0); apply Qfloor_resp_le; change (inject_Z 0) with 0; lra).
    assert (0 <= Qfloor y)%Z
      by (rewrite <- (Qfloor_Z 0); apply Qfloor_resp_le; exact Hy).
    lia.
  - exfalso. lra.
  - rewrite !to_int_nonneg by lra. by apply Qfloor_resp_le.
Qed.

Lemma to_int_Z z : to_int (inject_Z z) = z.
Proof. unfold to_int. simpl. apply Z.quot_1_r. Qed.

Lemma to_int_below x k : (0 <= k)%Z -> x < inject_Z (k + 1) -> (to_int x <= k)%Z.
Proof.
  intros Hk H. destruct (Qlt_le_dec x 0) as [Hx|Hx].
  - assert (to_int x <= to_int 0)%Z by (apply to_int_mono; lra).
    change (to_int 0) with 0%Z in *. lia.
  - rewrite to_int_nonneg by done.
    pose proof (Qfloor_le x) as Hf.
    assert (H0 : inject_Z (Qfloor x) < inject_Z (k + 1)) by lra.
    rewrite <- Zlt_Qlt in H0. lia.
Qed.

(** *** Hours *)


Lemma Hour_val : time.Hour = 3600000000000%Z.
Proof. reflexivity. Qed.

Lemma Day_val : Day = 86400000000000%Z.
Proof. reflexivity. Qed.

Lemma Hours_unfold d :
  time.Hours d = add (of_int (Z.quot d time.Hour)) (frac (Z.rem d time.Hour)).
Proof. reflexivity. Qed.

Lemma div_mono x y c : 0 < c -> x <= y -> div x c <= div y c.
Proof.
  intros Hc H. apply round64_mono. unfold Qdiv.
  apply Qmult_le_compat_r; [exact H|]. apply Qlt_le_weak, Qinv_lt_0_compat, Hc.
Qed.

Lemma add_mono x y x' y' : x <= x' -> y <= y' -> add x y <= add x' y'.
Proof. intros H1 H2. apply round64_mono. lra. Qed.

Lemma frac_mono a b : (a <= b)%Z -> frac a <= frac b.
Proof. intros H. apply div_mono; [reflexivity|]. by apply of_int_mono. Qed.

Lemma frac_bounds n : (0 <= n < 3600000000000)%Z -> 0 <= frac n /\ frac n <= 1.
Proof.
  intros [H0 H1]. unfold frac, div.
  assert (E : of_int n == inject_Z n) by (apply of_int_exact; lia).
  rewrite Zle_Qle in H0. rewrite Zlt_Qlt in H1.
  change (inject_Z 0) with 0 in H0.
  change (inject_Z 3600000000000) with 3600000000000 in H1.
  split.
  - change 0 with (inject_Z 0). apply round64_ge_Z; [reflexivity|].
    change (inject_Z 0) with 0. rewrite E.
    apply Qle_shift_div_l; [reflexivity|]. lra.
  - change 1 with (inject_Z 1). apply round64_le_Z; [reflexivity|].
    change (inject_Z 1) with 1. rewrite E.
    apply Qle_shift_div_r; [reflexivity|]. lra.
Qed.

(** [Hours] on durations that are not negative. *)
Section NonNegative.

Variables (d : Z).
Hypothesis Hd : (0 <= d <= 2 ^ 63)%Z.

Let h := (d / 3600000000000)%Z.
Let n := (d mod 3600000000000)%Z.

Lemma Hours_nonneg : time.Hours d = add (of_int h) (frac n).
Proof.
  rewrite Hours_unfold, Hour_val.
  rewrite Z.quot_div_nonneg, Z.rem_mod_nonneg by lia. reflexivity.
Qed.

Lemma hn_facts : (0 <= h <= 2562047 /\ 0 <= n < 3600000000000
                  /\ d = 3600000000000 * h + n)%Z.
Proof. unfold h, n. Z.div_mod_to_equations. lia. Qed.

Lemma of_int_h : of_int h == inject_Z h.
Proof. apply of_int_exact. pose proof hn_facts. lia. Qed.

Lemma Hours_lower : inject_Z h <= time.Hours d.
Proof.
  rewrite Hours_nonneg. pose proof hn_facts as (Hh & Hn & _).
  apply round64_ge_Z; [lia|]. rewrite of_int_h.
  destruct (frac_bounds n Hn). lra.
Qed.

Lemma Hours_upper : time.Hours d <= inject_Z (h + 1).
Proof.
  rewrite Hours_nonneg. pose proof hn_facts as (Hh & Hn & _).
  apply round64_le_Z; [lia|]. rewrite of_int_h, inject_Z_plus.
  destruct (frac_bounds n Hn). change (inject_Z 1) with 1. lra.
Qed.

End NonNegative.

Lemma Hours_mono_nonneg d d' : (0 <= d <= d')%Z -> (d' <= 2 ^ 63)%Z ->
  time.Hours d <= time.Hours d'.
Proof.
  intros Hd Hd'.
  pose proof (hn_facts d ltac:(lia)) as (Hh & Hn & Ed).
  pose proof (hn_facts d' ltac:(lia)) as (Hh' & Hn' & Ed').
  set (h := (d / 3600000000000)%Z) in *. set (n := (d mod 3600000000000)%Z) in *.
  set (h' := (d' / 3600000000000)%Z) in *. set (n' := (d' mod 3600000000000)%Z) in *.
  destruct (Z.eq_dec h h') as [E|NE].
  - rewrite (Hours_nonneg d), (Hours_nonneg d') by lia. fold h h' n n'.
    rewrite E. apply add_mono; [apply Qle_refl|]. apply frac_mono. lia.
  - apply Qle_trans with (inject_Z (h + 1)).
    + apply Hours_upper. lia.
    + apply Qle_trans with (inject_Z h').
      * rewrite <- Zle_Qle. lia.
      * apply Hours_lower. lia.
Qed.

Lemma frac_opp n : frac (- n) == - frac n.
Proof.
  unfold frac, div. rewrite of_int_opp.
  assert (E : - of_int n / 3600000000000 == - (of_int n / 3600000000000)) by (field).
  rewrite E. apply round64_opp.
Qed.

Lemma Hours_opp d : time.Hours (- d) == - time.Hours d.
Proof.
  rewrite !Hours_unfold. rewrite Z.quot_opp_l, Z.rem_opp_l by (rewrite Hour_val; lia).
  unfold add. rewrite of_int_opp, frac_opp.
  assert (E : forall a b, - a + - b == - (a + b)) by (intros; ring).
  rewrite E. apply round64_opp.
Qed.

Lemma days_opp d : days (- d) == - days d.
Proof.
  unfold days, div. rewrite Hours_opp.
  assert (E : - time.Hours d / 24 == - (time.Hours d / 24)) by field.
  rewrite E. apply round64_opp.
Qed.

Lemma days_mono_nonneg d d' : (0 <= d <= d')%Z -> (d' <= 2 ^ 63)%Z ->
  days d <= days d'.
Proof. intros. apply div_mono; [reflexivity|]. by apply Hours_mono_nonneg. Qed.

Lemma days_zero : days 0 == 0.
Proof. reflexivity. Qed.

Lemma days_mono d d' : (- 2 ^ 63 <= d)%Z -> (d <= d')%Z -> (d' <= 2 ^ 63)%Z ->
  days d <= days d'.
Proof.
  intros H1 H2 H3.
  destruct (Z.le_gt_cases 0 d) as [Hd|Hd].
  - apply days_mono_nonneg; lia.
  - assert (Hneg : days d <= 0).
    { assert (E : d = (- - d)%Z) by lia. rewrite E, (days_opp (- d)).
      pose proof (days_mono_nonneg 0 (- d) ltac:(lia) ltac:(lia)) as H.
      rewrite days_zero in H. lra. }
    destruct (Z.le_gt_cases 0 d') as [Hd'|Hd'].
    + pose proof (days_mono_nonneg 0 d' ltac:(lia) ltac:(lia)) as H.
      rewrite days_zero in H. lra.
    + assert (E : d = (- - d)%Z) by lia. assert (E' : d' = (- - d')%Z) by lia.
      rewrite E, E', (days_opp (- d)), (days_opp (- d')).
      pose proof (days_mono_nonneg (- d') (- d) ltac:(lia) ltac:(lia)) as H. lra.
Qed.

(** *** The age in days *)


Lemma to_int_eq x y : x == y -> to_int x = to_int y.
Proof. intros E. apply Z.le_antisymm; apply to_int_mono; rewrite E; apply Qle_refl. Qed.

Section Accuracy.

Variable d : Z.
Hypothesis Hd : (0 <= d <= 2 ^ 63)%Z.

Let h := (d / 3600000000000)%Z.
Let n := (d mod 3600000000000)%Z.
Let q := (d / 86400000000000)%Z.
Let r := (d mod 86400000000000)%Z.

Lemma qr_facts :
  (0 <= q <= 106751 /\ 0 <= r < 86400000000000 /\ d = 86400000000000 * q + r
   /\ 24 * q <= h <= 24 * q + 23 /\ 0 <= n < 3600000000000
   /\ d = 3600000000000 * h + n)%Z.
Proof. unfold q, r, h, n. Z.div_mod_to_equations. lia. Qed.

Lemma days_lower : inject_Z q <= days d.
Proof.
  pose proof qr_facts as (Hq & Hr & Ed & Hh & Hn & Ed').
  unfold days, div. apply round64_ge_Z; [lia|].
  pose proof (Hours_lower d Hd) as HL. fold h in HL.
  apply Qle_shift_div_l; [reflexivity|].
  eapply Qle_trans; [|exact HL].
  change 24 with (inject_Z 24). rewrite <- inject_Z_mult, <- Zle_Qle. lia.
Qed.

Lemma days_upper : days d <= inject_Z (q + 1).
Proof.
  pose proof qr_facts as (Hq & Hr & Ed & Hh & Hn & Ed').
  unfold days, div. apply round64_le_Z; [lia|].
  pose proof (Hours_upper d Hd) as HU. fold h in HU.
  apply Qle_shift_div_r; [reflexivity|].
  eapply Qle_trans; [exact HU|].
  change 24 with (inject_Z 24). rewrite <- inject_Z_mult, <- Zle_Qle. lia.
Qed.

(** Away from the end of a day the quotient stays below the next integer. *)
Lemma days_below : (r <= 86400000000000 - 2000)%Z -> days d < inject_Z (q + 1).
Proof.
  intros Hr'. pose proof qr_facts as (Hq & Hr & Ed & Hh & Hn & Ed').
  destruct (Z.le_gt_cases h (24 * q + 22)) as [Hcase|Hcase].
  - (* the hour is not the last of the day *)
    apply Qle_lt_trans with (inject_Z (32 * q + 31) * 2 ^ (-5)).
    + unfold days, div. apply round64_le; [lia|lia|].
      pose proof (Hours_upper d Hd) as HU. fold h in HU.
      assert (HU' : time.Hours d <= inject_Z (24 * q + 23)).
      { eapply Qle_trans; [exact HU|]. rewrite <- Zle_Qle. lia. }
      rewrite inject_Z_plus, inject_Z_mult in HU'.
      rewrite inject_Z_plus, inject_Z_mult.
      change (2 ^ (-5)) with (1 # 32).
      change (inject_Z 24) with 24 in HU'. change (inject_Z 23) with 23 in HU'.
      change (inject_Z 32) with 32. change (inject_Z 31) with 31.
      apply Qle_shift_div_r; [reflexivity|]. lra.
    + rewrite !inject_Z_plus, inject_Z_mult. change (2 ^ (-5)) with (1 # 32).
      change (inject_Z 32) with 32. change (inject_Z 31) with 31.
      change (inject_Z 1) with 1. lra.
  - (* the last hour of the day, at least 2000 ns before its end *)
    assert (Eh : h = (24 * q + 23)%Z) by lia.
    assert (Hn' : (n <= 3600000000000 - 2000)%Z) by lia.
    assert (Hfrac : frac n <= inject_Z (2 ^ 31 - 1) * 2 ^ (-31)).
    { unfold frac, div. apply round64_le; [reflexivity|lia|].
      rewrite (of_int_exact n) by lia.
      apply Qle_shift_div_r; [reflexivity|].
      apply Qle_trans with (inject_Z (3600000000000 - 2000)).
      - rewrite <- Zle_Qle. exact Hn'.
      - apply Qle_bool_imp_le. reflexivity. }
    assert (HH : time.Hours d <= inject_Z ((h + 1) * 2 ^ 31 - 1) * 2 ^ (-31)).
    { rewrite (Hours_nonneg d Hd). fold h n. unfold add.
      apply round64_le; [lia|lia|]. rewrite (of_int_exact h) by lia.
      unfold Z.sub. rewrite inject_Z_plus, inject_Z_mult, inject_Z_plus.
      change (2 ^ (-31)) with (1 # 2147483648) in *.
      change (inject_Z (2 ^ 31)) with 2147483648.
      change (inject_Z (2 ^ 31 - 1)) with 2147483647 in Hfrac.
      change (inject_Z (- (1))) with (- (1)). change (inject_Z 1) with 1. lra. }
    apply Qle_lt_trans with (inject_Z ((q + 1) * 2 ^ 36 - 1) * 2 ^ (-36)).
    + unfold days, div. apply round64_le; [lia|lia|].
      apply Qle_shift_div_r; [reflexivity|]. eapply Qle_trans; [exact HH|].
      rewrite Eh. unfold Z.sub.
      rewrite !inject_Z_plus, !inject_Z_mult, !inject_Z_plus, inject_Z_mult.
      change (2 ^ (-31)) with (1 # 2147483648).
      change (2 ^ (-36)) with (1 # 68719476736).
      change (inject_Z (2 ^ 31)) with 2147483648.
      change (inject_Z (2 ^ 36)) with 68719476736.
      change (inject_Z (- (1))) with (- (1)). change (inject_Z 1) with 1.
      change (inject_Z 24) with 24. change (inject_Z 23) with 23. lra.
    + unfold Z.sub. rewrite !inject_Z_plus, !inject_Z_mult, !inject_Z_plus.
      change (2 ^ (-36)) with (1 # 68719476736).
      change (inject_Z (2 ^ 36)) with 68719476736.
      change (inject_Z (- (1))) with (- (1)). change (inject_Z 1) with 1. lra.
Qed.

Lemma to_int_days_bounds : (q <= to_int (days d) <= q + 1)%Z.
Proof.
  split.
  - rewrite <- (to_int_Z q). apply to_int_mono, days_lower.
  - rewrite <- (to_int_Z (q + 1)). apply to_int_mono, days_upper.
Qed.

Lemma to_int_days_exact : (r <= 86400000000000 - 2000)%Z -> to_int (days d) = q.
Proof.
  intros Hr. pose proof qr_facts as (Hq & _).
  apply Z.le_antisymm; [|apply to_int_days_bounds].
  apply to_int_below; [lia|]. by apply days_below.
Qed.

End Accuracy.

(** The age in days of a duration, against the exact quotient. *)
Lemma to_int_days_char d : (- 2 ^ 63 <= d <= 2 ^ 63)%Z ->
  to_int (days d) = Z.quot d Day
  \/ (Z.abs (to_int (days d)) = Z.abs (Z.quot d Day) + 1
      /\ Day - 2000 < Z.abs (Z.rem d Day))%Z.
Proof.
  intros Hd. rewrite Day_val.
  assert (Hpos : forall e, (0 <= e <= 2 ^ 63)%Z ->
            to_int (days e) = (e / 86400000000000)%Z
            \/ (to_int (days e) = e / 86400000000000 + 1
                /\ 86400000000000 - 2000 < e mod 86400000000000)%Z).
  { intros e He. pose proof (to_int_days_bounds e He) as B.
    destruct (Z.le_gt_cases (e mod 86400000000000) (86400000000000 - 2000)) as [H|H].
    - left. by apply to_int_days_exact.
    - destruct (Z.eq_dec (to_int (days e)) (e / 86400000000000)%Z); [by left|right]. lia. }
  destruct (Z.le_gt_cases 0 d) as [H0|H0].
  - rewrite Z.quot_div_nonneg, Z.rem_mod_nonneg by lia.
    pose proof (qr_facts d ltac:(lia)) as (Hq & Hr & _).
    destruct (Hpos d ltac:(lia)) as [E|[E Hr']]; [by left|right].
    rewrite E. split; lia.
  - set (e := (- d)%Z). assert (E : d = (- e)%Z) by (unfold e; lia).
    assert (He : (0 <= e <= 2 ^ 63)%Z) by (unfold e; lia).
    clearbody e. subst d.
    pose proof (qr_facts e He) as (Hq & Hr & _).
    rewrite (to_int_eq _ _ (days_opp e)), to_int_opp.
    rewrite Z.quot_opp_l, Z.rem_opp_l by lia.
    rewrite Z.quot_div_nonneg, Z.rem_mod_nonneg by lia.
    destruct (Hpos e He) as [E'|[E' Hr']].
    + left. by rewrite E'.
    + right. rewrite E'. split; lia.
Qed.

Lemma Sub_range t u : (- 2 ^ 63 <= time.Sub t u <= 2 ^ 63)%Z.
Proof. unfold time.Sub, time.minDuration, time.maxDuration, minInt64, maxInt64. lia. Qed.

Lemma Sub_mono t t' u : (t <= t')%Z -> (time.Sub t u <= time.Sub t' u)%Z.
Proof. unfold time.Sub. lia. Qed.

Lemma DayAge_unfold i now : DayAge i now = to_int (days (time.Sub now (Time i))).
Proof. reflexivity. Qed.

(** C7, as amended.  With [d] the duration [now.Sub(i.Time)] (saturated to
    the range of a Duration), [DayAge] is the float64 quotient
    [d.Hours() / 24] truncated toward zero.  It equals the exact quotient of
    [d] by a day, truncated toward zero, unless [d] lies within 2000
    nanoseconds before a whole number of days, where the rounding of the
    float64 operations can carry it to the next whole number: then it is one
    further from zero.  [DayAge(t, t) = 0], [DayAge(t, t + 25h) = 1], and
    for a fixed set [DayAge] does not decrease as [now] advances. *)
Theorem DayAge_truncates_float64_days (i : snapshotInfo) (now : Z) :
  let d := time.Sub now (Time i) in
  (DayAge i now = Z.quot d Day
   \/ (Z.abs (DayAge i now) = Z.abs (Z.quot d Day) + 1
       /\ Day - 2000 < Z.abs (Z.rem d Day))%Z)
  /\ DayAge i (Time i) = 0%Z
  /\ DayAge i (Time i + 25 * time.Hour) = 1%Z
  /\ (forall now', (now <= now')%Z -> (DayAge i now <= DayAge i now')%Z).
Proof.
  intros d. split; [|split; [|split]].
  - rewrite DayAge_unfold. apply to_int_days_char, Sub_range.
  - rewrite DayAge_unfold. unfold time.Sub. rewrite Z.sub_diag. reflexivity.
  - rewrite DayAge_unfold. unfold time.Sub.
    replace (Time i + 25 * time.Hour - Time i)%Z with (25 * time.Hour)%Z by lia.
    vm_compute. reflexivity.
  - intros now' Hle. rewrite !DayAge_unfold. apply to_int_mono.
    pose proof (Sub_range now (Time i)). pose proof (Sub_range now' (Time i)).
    apply days_mono; [lia| |lia]. by apply Sub_mono.
Qed.

(** C7 as stated fails: for a set that is one nanosecond short of 171 days
    old, the hours divided by 24 and truncated toward zero are 170, and
    [DayAge] is 171.  [float64(4103) + float64(3599999999999)/3.6e12] rounds
    to 4104. *)
Lemma DayAge_rounds_up_at_171_days :
  let i := {| Host := "h1"; Username := "u1";
              Time := 63850000000000000000; Count := 1 |} in
  let now := (Time i + 171 * Day - 1)%Z in
  DayAge i now = 171%Z /\ DayAge_exact i now = 170%Z
  /\ DayAge i now <> DayAge_exact i now
  /\ time.Hours (time.Sub now (Time i)) == 4104.
Proof. repeat split; vm_compute; congruence. Qed.

(** [round64] against the Standard Library's IEEE-754 binary64 operations,
    on the quotient [DayAge] truncates, for durations of either sign, small
    and large, and next to day boundaries. *)
Example days_agrees_with_binary64 :
  forallb (fun d => match days_binary64 d with
                    | Some x => Qeq_bool x (days d)
                    | None => false
                    end)
    [0; 1; -1; 3599999999999; 3600000000000; 86399999999999; 86400000000000;
     90000000000000; 171 * Day - 1; 171 * Day; -171 * Day + 1; 4096 * time.Hour - 1;
     12345678901234567; -98765432109876543; maxInt64; minInt64]%Z
  = true.
Proof. vm_compute. reflexivity. Qed.

End Float64.

(* ===================================================================== *)
(** * Part III: further properties of the code                            *)
(* ===================================================================== *)

(** ** SnapshotCollection.Add, over any sequence of calls *)

Section AddMore.

Implicit Types (c : SnapshotCollection).

Lemma Add_updated c username hostname t :
  Add c username hostname t
  = <[snapshotKey hostname (owner_of username) :=
        updated (c !! snapshotKey hostname (owner_of username))
                (owner_of username) hostname t]> c.
Proof.
  unfold Add, updated. f_equal.
  destruct (c !! snapshotKey hostname (owner_of username)) as [val|]; simpl;
    unfold time.Before.
  - destruct (Time val <? t) eqn:E; simpl; f_equal; lia.
  - unfold time.zero. destruct (0 <? t) eqn:E; simpl; f_equal; lia.
Qed.

Lemma int64_wrap_add a b : int64_wrap (int64_wrap a + b) = int64_wrap (a + b).
Proof.
  unfold int64_wrap. f_equal.
  replace (((a + 2 ^ 63) mod 2 ^ 64 - 2 ^ 63) + b + 2 ^ 63)
    with ((a + 2 ^ 63) mod 2 ^ 64 + b) by lia.
  rewrite Zplus_mod_idemp_l. f_equal. lia.
Qed.

Lemma summary_cons found call calls :
  summary (Some (updated found (owner_of call.1.1) call.1.2 call.2)) calls
  = summary found (call :: calls).
Proof.
  destruct calls as [|call' calls].
  - destruct found as [val|]; reflexivity.
  - unfold summary, updated. cbn [Host Username Time Count].
    rewrite int64_wrap_add. f_equal.
    destruct found as [val|]; cbn [Host Username Time Count]; f_equal;
      try (f_equal; cbn [length]; lia); reflexivity.
Qed.

Lemma AddAll_lookup_from key calls : forall c,
  AddAll c calls !! key = summary (c !! key) (calls_for key calls).
Proof.
  induction calls as [|call calls IH]; intros c; [done|].
  rewrite AddAll_cons, IH, Add_updated. unfold calls_for. rewrite filter_cons.
  destruct (decide (call_key call = key)) as [<-|Hne].
  - unfold call_key. rewrite lookup_insert_eq. apply summary_cons.
  - unfold call_key in Hne. by rewrite lookup_insert_ne.
Qed.

(** X1: the collection built from any sequence of calls, key by key.  A key
    under which no call is filed is absent.  Otherwise the record has the
    host and the owner of the first call filed under the key, as its time
    the greatest of the zero Time and the times of the calls filed under
    it, and as its count their number (in 64-bit arithmetic). *)
Theorem AddAll_lookup (calls : list (string * string * Z)) (key : string) :
  AddAll ∅ calls !! key
  = match calls_for key calls with
    | [] => None
    | first :: rest =>
        Some {| Host := first.1.2; Username := owner_of first.1.1;
                Time := max_time time.zero (snd <$> first :: rest);
                Count := int64_wrap (Z.of_nat (length (first :: rest))) |}
    end.
Proof.
  rewrite AddAll_lookup_from, lookup_empty.
  by destruct (calls_for key calls).
Qed.

Lemma owner_of_nonempty username : owner_of username <> "".
Proof. unfold owner_of. by destruct (decide (username = "")). Qed.

Lemma Add_filed c username hostname t :
  map_Forall filed c -> map_Forall filed (Add c username hostname t).
Proof.
  intros Hc. rewrite Add_updated. apply map_Forall_insert_2; [|exact Hc].
  unfold updated, filed.
  destruct (c !! snapshotKey hostname (owner_of username)) as [val|] eqn:E; simpl.
  - destruct (Hc _ _ E) as (Hk & Hu & Ht). repeat split; [done|done|lia].
  - repeat split; [apply owner_of_nonempty|unfold time.zero; lia].
Qed.

Lemma AddAll_filed calls : forall c,
  map_Forall filed c -> map_Forall filed (AddAll c calls).
Proof.
  induction calls as [|call calls IH]; intros c Hc; [done|].
  rewrite AddAll_cons. apply IH. by apply Add_filed.
Qed.

(** X2: every record of a collection built by [Add] is stored under the
    key of its own host and owner, has a non-empty owner, and a time that
    is not before the zero Time. *)
Theorem AddAll_records_filed (calls : list (string * string * Z)) :
  map_Forall filed (AddAll ∅ calls).
Proof. apply AddAll_filed, map_Forall_empty. Qed.

Lemma Add_dom c username hostname t :
  dom (Add c username hostname t)
  = {[ snapshotKey hostname (owner_of username) ]} ∪ dom c.
Proof. rewrite Add_updated. apply dom_insert_L. Qed.

(** X3: a sequence of calls adds the keys of its calls to the collection
    and no other, removes none, and leaves the record under every key that
    is not the key of one of its calls as it was. *)
Theorem AddAll_touches_only_its_keys (calls : list (string * string * Z)) :
  forall c,
    dom (AddAll c calls) = dom c ∪ list_to_set (call_key <$> calls)
    /\ forall key, key ∉ call_key <$> calls -> AddAll c calls !! key = c !! key.
Proof.
  induction calls as [|call calls IH]; intros c.
  - simpl. split; [set_solver|done].
  - rewrite AddAll_cons, fmap_cons. destruct (IH (Add c call.1.1 call.1.2 call.2))
      as [Hdom Hother].
    split.
    + rewrite Hdom, Add_dom. unfold call_key. set_solver.
    + intros key Hkey. apply not_elem_of_cons in Hkey as [Hne Hkey].
      rewrite (Hother key Hkey). apply Add_other_key. unfold call_key in Hne. congruence.
Qed.

Lemma total_insert_fresh c key val :
  c !! key = None -> total (<[key := val]> c) = Count val + total c.
Proof.
  intros H. unfold total.
  apply (map_fold_insert_L (fun _ val acc => Count val + acc) 0 key val c); [|done].
  intros. lia.
Qed.

Lemma total_delete c key val :
  c !! key = Some val -> total c = Count val + total (delete key c).
Proof.
  intros H. unfold total.
  apply (map_fold_delete_L (fun _ val acc => Count val + acc) 0 key val c); [|done].
  intros. lia.
Qed.

Lemma total_insert_existing c key val found :
  c !! key = Some found ->
  total (<[key := val]> c) = Count val + total c - Count found.
Proof.
  intros H. rewrite <- insert_delete_eq.
  rewrite total_insert_fresh by apply lookup_delete_eq.
  rewrite (total_delete c key found H). lia.
Qed.

Lemma total_nonneg c : map_Forall (fun _ val => 1 <= Count val) c -> 0 <= total c.
Proof.
  induction c as [|key val c Hnone IH] using map_ind; intros Hc.
  - unfold total. by rewrite map_fold_empty.
  - rewrite total_insert_fresh by done.
    apply map_Forall_insert in Hc as [Hv Hc]; [|done]. specialize (IH Hc). lia.
Qed.

Lemma total_lookup c key val :
  map_Forall (fun _ val => 1 <= Count val) c ->
  c !! key = Some val -> Count val <= total c.
Proof.
  intros Hc H. rewrite (total_delete c key val H).
  assert (0 <= total (delete key c)); [|lia].
  apply total_nonneg. intros k v Hk. apply lookup_delete_Some in Hk as [_ Hk].
  exact (Hc k v Hk).
Qed.

Lemma Add_total c username hostname t :
  map_Forall (fun _ val => 1 <= Count val) c -> total c + 1 <= maxInt64 ->
  map_Forall (fun _ val => 1 <= Count val) (Add c username hostname t)
  /\ total (Add c username hostname t) = total c + 1.
Proof.
  intros Hc Hmax. rewrite Add_updated. unfold updated.
  destruct (c !! snapshotKey hostname (owner_of username)) as [val|] eqn:E; simpl.
  - pose proof (Hc _ _ E) as H1. simpl in H1.
    pose proof (total_lookup c _ val Hc E) as H2.
    rewrite int64_wrap_small by (unfold minInt64, maxInt64 in *; lia).
    split.
    + apply map_Forall_insert_2; [simpl; lia|done].
    + rewrite (total_insert_existing c _ _ val E). simpl. lia.
  - rewrite int64_wrap_small by (unfold minInt64, maxInt64 in *; lia).
    split.
    + apply map_Forall_insert_2; [simpl; lia|done].
    + rewrite total_insert_fresh by done. simpl. lia.
Qed.

Lemma AddAll_total calls : forall c,
  map_Forall (fun _ val => 1 <= Count val) c ->
  total c + Z.of_nat (length calls) <= maxInt64 ->
  total (AddAll c calls) = total c + Z.of_nat (length calls)
  /\ map_Forall (fun _ val => 1 <= Count val) (AddAll c calls).
Proof.
  induction calls as [|call calls IH]; intros c Hc Hmax.
  - simpl. split; [lia|done].
  - rewrite AddAll_cons. simpl length in *.
    destruct (Add_total c call.1.1 call.1.2 call.2 Hc ltac:(lia)) as [Hc' Ht].
    destruct (IH _ Hc' ltac:(lia)) as [IH1 IH2]. split; [lia|done].
Qed.

(** X4: no call is lost or counted twice.  While the number of calls fits
    a 64-bit integer, the counts of the records of the collection sum to
    the number of calls, and every record counts at least one. *)
Theorem AddAll_counts_every_call (calls : list (string * string * Z)) :
  Z.of_nat (length calls) <= maxInt64 ->
  total (AddAll ∅ calls) = Z.of_nat (length calls)
  /\ map_Forall (fun _ val => 1 <= Count val) (AddAll ∅ calls).
Proof.
  intros Hlen. destruct (AddAll_total calls ∅) as [H1 H2].
  - apply map_Forall_empty.
  - unfold total. rewrite map_fold_empty. lia.
  - split; [|done]. rewrite H1. unfold total. rewrite map_fold_empty. lia.
Qed.

(** Three snapshots of two backup sets, one of them without a username. *)
Lemma AddAll_counts_every_call_witness :
  total (AddAll ∅ [("u1", "h1", 10); ("", "h2", 20); ("u1", "h1", 5)]) = 3.
Proof.
  apply (AddAll_counts_every_call [("u1", "h1", 10); ("", "h2", 20); ("u1", "h1", 5)]).
  vm_compute. discriminate.
Defined.

Lemma Add_comm c a b :
  compatible a b ->
  Add (Add c a.1.1 a.1.2 a.2) b.1.1 b.1.2 b.2
  = Add (Add c b.1.1 b.1.2 b.2) a.1.1 a.1.2 a.2.
Proof.
  destruct a as [[ua ha] ta], b as [[ub hb] tb]. unfold compatible, call_key, call_pair.
  simpl. intros Hc. rewrite !Add_updated.
  destruct (decide (snapshotKey ha (owner_of ua) = snapshotKey hb (owner_of ub)))
    as [E|NE].
  - specialize (Hc E). injection Hc as -> Ho. rewrite Ho.
    rewrite !lookup_insert_eq, !insert_insert_eq. f_equal.
    unfold updated. destruct (c !! _) as [val|]; simpl; f_equal; lia.
  - rewrite (lookup_insert_ne _ _ _ _ NE).
    rewrite (lookup_insert_ne c (snapshotKey hb (owner_of ub))) by congruence.
    by apply insert_insert_ne.
Qed.

(** X5: the order in which the snapshots of a repository are enumerated
    does not matter.  When no two calls share a key without sharing host
    and owner, every reordering of the calls builds the same collection. *)
Theorem AddAll_order_irrelevant (calls calls' : list (string * string * Z)) :
  calls ≡ₚ calls' ->
  Forall (fun a => Forall (compatible a) calls) calls ->
  forall c, AddAll c calls = AddAll c calls'.
Proof.
  intros HP. induction HP as [|x l l' HP IH|x y l|l l' l'' HP1 IH1 HP2 IH2];
    intros Hall c.
  - done.
  - rewrite !AddAll_cons. apply IH.
    inversion Hall as [|? ? _ Hl]; subst.
    eapply Forall_impl; [exact Hl|]. simpl. intros a Ha. by inversion Ha.
  - rewrite !AddAll_cons. f_equal. apply Add_comm.
    inversion Hall as [|? ? Hy _]; subst.
    inversion Hy as [|? ? _ Hy']; subst. by inversion Hy'.
  - rewrite IH1 by done. apply IH2.
    rewrite <- HP1. eapply Forall_impl; [exact Hall|]. simpl.
    intros a Ha. by rewrite <- HP1.
Qed.

(** Two snapshots of one backup set around a snapshot of another, in two
    orders. *)
Lemma AddAll_order_irrelevant_witness :
  AddAll ∅ [("u1", "h1", 10); ("u2", "h2", 20); ("u1", "h1", 5)]
  = AddAll ∅ [("u2", "h2", 20); ("u1", "h1", 5); ("u1", "h1", 10)].
Proof.
  apply (AddAll_order_irrelevant
           [("u1", "h1", 10); ("u2", "h2", 20); ("u1", "h1", 5)]
           [("u2", "h2", 20); ("u1", "h1", 5); ("u1", "h1", 10)]).
  - apply perm_trans with [("u2", "h2", 20); ("u1", "h1", 10); ("u1", "h1", 5)].
    + apply perm_swap.
    + apply perm_skip, perm_swap.
  - repeat (apply Forall_cons_2 || apply Forall_nil_2);
      unfold compatible; vm_compute; congruence.
Defined.

Lemma filed_pairs_NoDup (col : SnapshotCollection) :
  map_Forall filed col -> NoDup (pair_of <$> (snd <$> map_to_list col)).
Proof.
  intros Hc. apply (NoDup_fmap_1 (fun p => snapshotKey p.1 p.2)).
  rewrite <- !list_fmap_compose.
  assert (E : (fun p => snapshotKey p.1 p.2) ∘ pair_of ∘ snd <$> map_to_list col
              = fst <$> map_to_list col).
  { apply list_fmap_ext. intros i [key val] Hi. simpl.
    assert (Hin : (key, val) ∈ map_to_list col) by (apply list_elem_of_lookup; eauto).
    apply elem_of_map_to_list in Hin. by destruct (Hc _ _ Hin) as [-> _]. }
  rewrite E. apply NoDup_fst_map_to_list.
Qed.

End AddMore.

(** ** IsLegacy *)

Lemma DayAge_mono i now now' : now <= now' -> DayAge i now <= DayAge i now'.
Proof.
  intros Hle. rewrite !DayAge_unfold. apply to_int_mono.
  pose proof (Sub_range now (Time i)). pose proof (Sub_range now' (Time i)).
  apply days_mono; [lia| |lia]. by apply Sub_mono.
Qed.

Lemma DayAge_range i now : -106752 <= DayAge i now <= 106752.
Proof.
  rewrite DayAge_unfold. pose proof (Sub_range now (Time i)) as Hr.
  pose proof (to_int_mono _ _ (days_mono (- 2 ^ 63) (time.Sub now (Time i))
                                 ltac:(lia) ltac:(lia) ltac:(lia))) as H1.
  pose proof (to_int_mono _ _ (days_mono (time.Sub now (Time i)) (2 ^ 63)
                                 ltac:(lia) ltac:(lia) ltac:(lia))) as H2.
  assert (E1 : float64.to_int (days (- 2 ^ 63)) = -106751) by (vm_compute; reflexivity).
  assert (E2 : float64.to_int (days (2 ^ 63)) = 106751) by (vm_compute; reflexivity).
  lia.
Qed.

(** X6: a backup set is legacy exactly when its newest snapshot is at
    least 61 days old: the float64 arithmetic of [DayAge] does not move
    this threshold.  A set whose age in days at one instant exceeds 60 is
    legacy at every later instant, so a sample never carries an age above
    60 days together with the label isLegacy="false" when the clock does
    not go back between the two readings [Collect] takes. *)
Theorem IsLegacy_threshold (i : snapshotInfo) (now : Z) :
  (IsLegacy i now = true <-> Time i + 61 * Day <= now)
  /\ (forall now', now <= now' -> 60 < DayAge i now -> IsLegacy i now' = true).
Proof.
  assert (Hiff : IsLegacy i now = true <-> Time i + 61 * Day <= now).
  { unfold IsLegacy. rewrite Z.ltb_lt. split.
    - intros H. destruct (Z.le_gt_cases (Time i + 61 * Day) now) as [|Hlt]; [done|].
      exfalso.
      pose proof (DayAge_mono i now (Time i + 61 * Day - 1) ltac:(lia)) as Hm.
      assert (E : DayAge i (Time i + 61 * Day - 1) = 60).
      { rewrite DayAge_unfold. unfold time.Sub.
        replace (Time i + 61 * Day - 1 - Time i) with (61 * Day - 1) by lia.
        vm_compute. reflexivity. }
      lia.
    - intros H.
      pose proof (DayAge_mono i (Time i + 61 * Day) now H) as Hm.
      assert (E : DayAge i (Time i + 61 * Day) = 61).
      { rewrite DayAge_unfold. unfold time.Sub.
        replace (Time i + 61 * Day - Time i) with (61 * Day) by lia.
        vm_compute. reflexivity. }
      lia. }
  split; [exact Hiff|].
  intros now' Hle H. unfold IsLegacy. apply Z.ltb_lt.
  pose proof (DayAge_mono i now now' Hle). lia.
Qed.

(** ** The configuration file *)

(** X7: what the B2 fields of an entry do to the location a repository is
    opened at.  [ExtraConfig] is nil exactly when both fields are empty;
    otherwise the account and the key of a B2 location are both replaced
    by the entry's fields (an empty field included), the bucket is kept,
    and a REST location is left as it is.  The scheme never changes. *)
Theorem ExtraConfig_override (e : configEntry) (loc : Location) :
  (ExtraConfig e = None <-> B2AccountId e = "" /\ B2Key e = "")
  /\ Scheme (applyExtraConfig loc (ExtraConfig e)) = Scheme loc
  /\ Config (applyExtraConfig loc (ExtraConfig e))
     = match Config loc with
       | b2_Config accountID key bucket =>
           if bool_decide (B2AccountId e = "" /\ B2Key e = "")
           then b2_Config accountID key bucket
           else b2_Config (B2AccountId e) (B2Key e) bucket
       | rest_Config url => rest_Config url
       end.
Proof.
  unfold ExtraConfig, applyExtraConfig.
  destruct (decide (B2AccountId e = "")) as [Ha|Ha];
  destruct (decide (B2Key e = "")) as [Hk|Hk].
  all: rewrite ?(bool_decide_eq_true_2 _ Ha), ?(bool_decide_eq_false_2 _ Ha),
         ?(bool_decide_eq_true_2 _ Hk), ?(bool_decide_eq_false_2 _ Hk).
  all: repeat match goal with
         | |- context [bool_decide (?x ≠ "")] =>
             first [rewrite (bool_decide_eq_true_2 (x ≠ "")) by done
                   |rewrite (bool_decide_eq_false_2 (x ≠ "")) by (intros H; by apply H)]
         end; simpl.
  all: destruct (Config loc) eqn:EC; simpl; rewrite ?EC.
  all: try (rewrite bool_decide_eq_true_2 by done).
  all: try (rewrite bool_decide_eq_false_2 by (intros [? ?]; done)).
  all: repeat split; try done; try (intros [? ?]; done).
Qed.

Lemma lookup_skipped (a b : string) :
  a <> "" \/ b = "" -> bool_decide (a = "") && bool_decide (b ≠ "") = false.
Proof.
  intros H. apply andb_false_iff. destruct H as [H|H].
  - left. by apply bool_decide_eq_false_2.
  - right. apply bool_decide_eq_false_2. intros Hb. by apply Hb.
Qed.

Lemma lookup_made (a b : string) :
  a = "" -> b <> "" -> bool_decide (a = "") && bool_decide (b ≠ "") = true.
Proof.
  intros Ha Hb. by rewrite (bool_decide_eq_true_2 _ Ha), (bool_decide_eq_true_2 _ Hb).
Qed.

Lemma lookup_cases (a b : string) :
  (a = "" /\ b <> "") \/ (a <> "" \/ b = "").
Proof.
  destruct (decide (a = "")) as [Ha|Ha]; [|right; by left].
  destruct (decide (b = "")) as [Hb|Hb]; [right; by right|left; done].
Qed.

Lemma populateSecrets_kept sc e e' :
  populateSecrets sc e = Ok e' -> kept e e' /\ looked_up sc e e'.
Proof.
  unfold populateSecrets, kept, looked_up.
  destruct (lookup_cases (Password e) (VaultMaterial e)) as [[Hp Hv]|Hp].
  - rewrite (lookup_made _ _ Hp Hv).
    destruct (Secret_ApiKey sc (VaultMaterial e)) as [key|]; [|done]. simpl.
    destruct (lookup_cases (B2Key e) (B2VaultMaterial e)) as [[Hk Hb]|Hk].
    + rewrite (lookup_made _ _ Hk Hb).
      destruct (Secret_b2Config sc (B2VaultMaterial e)) as [secret|]; [|done].
      intros [= <-]. simpl. repeat split; try done; try tauto; eauto.
    + rewrite (lookup_skipped _ _ Hk).
      intros [= <-]. simpl. repeat split; try done; try tauto.
  - rewrite (lookup_skipped _ _ Hp).
    destruct (lookup_cases (B2Key e) (B2VaultMaterial e)) as [[Hk Hb]|Hk].
    + rewrite (lookup_made _ _ Hk Hb).
      destruct (Secret_b2Config sc (B2VaultMaterial e)) as [secret|]; [|done].
      intros [= <-]. simpl. repeat split; try done; try tauto; eauto.
    + rewrite (lookup_skipped _ _ Hk).
      intros [= <-]. simpl. repeat split; try done; try tauto.
Qed.

Lemma populateSecrets_no_secret sc e : needs_no_secret e -> populateSecrets sc e = Ok e.
Proof.
  intros [Hp Hb]. unfold populateSecrets.
  by rewrite (lookup_skipped _ _ Hp), (lookup_skipped _ _ Hb).
Qed.

Lemma populateAll_kept sc out : forall out',
  populateAll sc out = Ok out' ->
  Forall2 kept out out' /\ Forall2 (looked_up sc) out out'.
Proof.
  induction out as [|e out IH]; intros out'; simpl.
  - intros [= <-]. split; constructor.
  - destruct (populateSecrets sc e) as [e'|] eqn:He; [|done].
    destruct (populateAll sc out) as [rest|] eqn:Hr; [|done].
    intros [= <-]. destruct (populateSecrets_kept _ _ _ He) as [H1 H2].
    destruct (IH _ eq_refl) as [IH1 IH2]. split; by constructor.
Qed.

Lemma spawned_kept out out' :
  Forall2 kept out out' -> Repo <$> spawned out' = Repo <$> spawned out.
Proof.
  induction 1 as [|e e' out out' (Hd & Hr & _) _ IH]; [done|].
  unfold spawned in *. rewrite !filter_cons, Hd.
  destruct (decide (Disabled e = false)); [|done].
  rewrite !fmap_cons. by f_equal.
Qed.

Lemma NewConfigFileFromFile_kept src name sc fd out cfg :
  os_Open src name = Ok fd -> json_Decode src fd = Ok out ->
  NewConfigFileFromFile src name sc = Ok cfg -> Forall2 kept out cfg.
Proof.
  intros H1 H2. unfold NewConfigFileFromFile. rewrite H1, H2.
  destruct sc as [client|]; [intros H; by apply (populateAll_kept client)|].
  intros [= <-]. apply Forall_Forall2_diag, Forall_forall. intros e _. by repeat split.
Qed.

(** X8: a load that succeeds returns the entries of the file, one for one
    and in order, and changes two things only.  The password is replaced
    by the secret the entry names when the file leaves the password
    empty.  The B2 key and the B2 account id are both replaced by those of
    the B2 secret the entry names when the file leaves the B2 key empty:
    an account id the file gives is overwritten then.  Everything else is
    as in the file, so the repositories a run scans are those the file
    enables; with a nil client the entries are returned unchanged. *)
Theorem NewConfigFileFromFile_keeps_entries (src : configSource) (name : string)
    (sc : option secretsClient) (fd : string) (out cfg : ConfigFile) :
  os_Open src name = Ok fd -> json_Decode src fd = Ok out ->
  NewConfigFileFromFile src name sc = Ok cfg ->
  Forall2 kept out cfg
  /\ length cfg = length out
  /\ Repo <$> spawned cfg = Repo <$> spawned out
  /\ match sc with
     | Some client => Forall2 (looked_up client) out cfg
     | None => cfg = out
     end.
Proof.
  intros H1 H2 H3.
  pose proof (NewConfigFileFromFile_kept src name sc fd out cfg H1 H2 H3) as Hk.
  split; [done|]. split; [symmetry; by eapply Forall2_length|].
  split; [by apply spawned_kept|].
  unfold NewConfigFileFromFile in H3. rewrite H1, H2 in H3.
  destruct sc as [client|]; [by apply (populateAll_kept client)|by injection H3].
Qed.

(** A file with an entry that gives a B2 account id and leaves the B2 key
    to the secrets store: the account id of the store replaces it. *)
Lemma NewConfigFileFromFile_keeps_entries_witness :
  Forall2 (looked_up client_up)
    [entry false "rest:R1"; entry_b2 "b2:bucket:/"]
    [entry false "rest:R1";
     {| Disabled := false; Repo := "b2:bucket:/"; Password := "from-vault";
        VaultMaterial := "kv/restic"; B2VaultMaterial := "kv/b2";
        B2AccountId := "id"; B2Key := "key" |}].
Proof.
  exact (proj2 (proj2 (proj2
    (NewConfigFileFromFile_keeps_entries source_b2 "config.json" (Some client_up)
       "[...]" [entry false "rest:R1"; entry_b2 "b2:bucket:/"]
       [entry false "rest:R1";
        {| Disabled := false; Repo := "b2:bucket:/"; Password := "from-vault";
           VaultMaterial := "kv/restic"; B2VaultMaterial := "kv/b2";
           B2AccountId := "id"; B2Key := "key" |}]
       eq_refl eq_refl eq_refl)))).
Defined.

Lemma populateAll_no_secret sc out :
  Forall needs_no_secret out -> populateAll sc out = Ok out.
Proof.
  induction 1 as [|e out He _ IH]; simpl; [done|].
  by rewrite (populateSecrets_no_secret sc e He), IH.
Qed.

(** X9: when every entry of the file carries its password or names no
    secret for it, and likewise for its B2 key, the loader makes no lookup:
    the load returns the file's entries unchanged, whatever the secrets
    client is, a nil client included. *)
Theorem NewConfigFileFromFile_without_lookups (src : configSource) (name : string)
    (sc : option secretsClient) (fd : string) (out : ConfigFile) :
  os_Open src name = Ok fd -> json_Decode src fd = Ok out ->
  Forall needs_no_secret out ->
  NewConfigFileFromFile src name sc = Ok out.
Proof.
  intros H1 H2 Hall. unfold NewConfigFileFromFile. rewrite H1, H2.
  destruct sc as [client|]; [by apply populateAll_no_secret|done].
Qed.

(** A file whose entries carry their passwords, read with a secrets store
    that answers nothing. *)
Lemma NewConfigFileFromFile_without_lookups_witness :
  NewConfigFileFromFile source_ok "config.json" (Some client_down)
  = Ok [entry false "rest:R1"; entry false "rest:R2"].
Proof.
  apply (NewConfigFileFromFile_without_lookups source_ok "config.json"
           (Some client_down) "[...]"); [reflexivity|reflexivity|].
  repeat (apply Forall_cons_2 || apply Forall_nil_2); split; by left + right.
Defined.

Lemma populateSecrets_B2_fails sc e err :
  B2Key e = "" -> B2VaultMaterial e <> "" ->
  Secret_b2Config sc (B2VaultMaterial e) = Err err ->
  exists err', populateSecrets sc e = Err err'.
Proof.
  intros Hk Hb Hs. unfold populateSecrets.
  destruct (bool_decide (Password e = "") && bool_decide (VaultMaterial e ≠ "")).
  - destruct (Secret_ApiKey sc (VaultMaterial e)) as [key|err0]; [|eauto]. simpl.
    rewrite (lookup_made _ _ Hk Hb), Hs. eauto.
  - rewrite (lookup_made _ _ Hk Hb), Hs. eauto.
Qed.

Lemma populateAll_fails sc out e :
  e ∈ out -> (exists err, populateSecrets sc e = Err err) ->
  exists err', populateAll sc out = Err err'.
Proof.
  induction out as [|e0 out IH]; intros Hin [err He]; [inversion Hin|]. simpl.
  apply elem_of_cons in Hin as [<-|Hin].
  - rewrite He. eauto.
  - destruct (populateSecrets sc e0); [|eauto].
    destruct (IH Hin) as [err' ->]; eauto.
Qed.

(** X10: one lookup that fails makes the whole load fail.  When some entry
    of the file leaves its password empty and names a secret for it, or
    leaves its B2 key empty and names a B2 secret, and that lookup returns
    an error, the load returns an error and no configuration, whatever
    the other entries are and whatever the entry's other lookup gives. *)
Theorem NewConfigFileFromFile_failed_lookup (src : configSource) (name : string)
    (client : secretsClient) (fd : string) (out : ConfigFile)
    (e : configEntry) (err : error) :
  os_Open src name = Ok fd -> json_Decode src fd = Ok out -> e ∈ out ->
  (Password e = "" /\ VaultMaterial e <> ""
   /\ Secret_ApiKey client (VaultMaterial e) = Err err)
  \/ (B2Key e = "" /\ B2VaultMaterial e <> ""
      /\ Secret_b2Config client (B2VaultMaterial e) = Err err) ->
  exists err', NewConfigFileFromFile src name (Some client) = Err err'.
Proof.
  intros H1 H2 Hin Hfail. unfold NewConfigFileFromFile. rewrite H1, H2.
  apply (populateAll_fails client out e Hin).
  destruct Hfail as [(Hp & Hv & Hs)|(Hk & Hb & Hs)].
  - exists err. unfold populateSecrets. by rewrite (lookup_made _ _ Hp Hv), Hs.
  - by apply (populateSecrets_B2_fails client e err).
Qed.

(** The second entry of the file gets its password from the store, which
    then refuses its B2 secret. *)
Lemma NewConfigFileFromFile_failed_lookup_witness :
  exists err', NewConfigFileFromFile source_b2 "config.json" (Some client_no_b2)
               = Err err'.
Proof.
  apply (NewConfigFileFromFile_failed_lookup source_b2 "config.json" client_no_b2
           "[...]" [entry false "rest:R1"; entry_b2 "b2:bucket:/"]
           (entry_b2 "b2:bucket:/") "permission denied");
    [reflexivity|reflexivity|by right; left|].
  right. split; [reflexivity|]. split; [discriminate|reflexivity].
Defined.

(** ** Opening and enumerating a repository *)

(** X11: when [openResticBackend] succeeds.  It returns a repository
    exactly when the URI parses, the transport is built, the scheme is b2
    or rest, the backend opens at the location with the entry's B2
    credentials applied, the size of the config file is read and is not
    zero, the repository is created, and the key search succeeds; the
    lock returned is whatever [repository.Lock] returned as its lock. *)
Theorem openResticBackend_Ok_iff (lib : resticLib) (uri cryptoKey : string)
    (extraConfig : option b2Config) (repo : nat) (lock : option nat) :
  openResticBackend lib uri cryptoKey extraConfig = Ok (repo, lock)
  <-> exists loc be size,
        location_Parse lib uri = Ok loc
        /\ backend_Transport lib = None
        /\ (Scheme loc = "b2" \/ Scheme loc = "rest")
        /\ factory_Open lib (applyExtraConfig loc extraConfig) = Ok be
        /\ be_Stat lib be = Ok size /\ size <> 0
        /\ repository_New lib be = Ok repo
        /\ repo_SearchKey lib repo cryptoKey = None
        /\ lock = (repository_Lock lib repo).1.
Proof.
  unfold openResticBackend, backends_Lookup. split.
  - destruct (location_Parse lib uri) as [loc|] eqn:H1; [|done].
    destruct (backend_Transport lib) eqn:H2; [done|].
    destruct (bool_decide (Scheme loc = "b2") || bool_decide (Scheme loc = "rest"))
      eqn:H3; simpl; [|done].
    destruct (factory_Open lib _) as [be|] eqn:H4; [|done].
    destruct (be_Stat lib be) as [size|] eqn:H5; [|done].
    destruct (size =? 0) eqn:H6; [done|].
    destruct (repository_New lib be) as [repo'|] eqn:H7; [|done].
    destruct (repo_SearchKey lib repo' cryptoKey) eqn:H8; [done|].
    destruct (repository_Lock lib repo') as [l e] eqn:H9.
    intros [= <- <-]. exists loc, be, size. rewrite H9. simpl.
    apply orb_true_iff in H3. rewrite !bool_decide_eq_true in H3.
    apply Z.eqb_neq in H6. repeat split; done.
  - intros (loc & be & size & H1 & H2 & H3 & H4 & H5 & H6 & H7 & H8 & ->).
    rewrite H1, H2.
    assert (E : bool_decide (Scheme loc = "b2") || bool_decide (Scheme loc = "rest") = true).
    { apply orb_true_iff. rewrite !bool_decide_eq_true. exact H3. }
    rewrite E. simpl. rewrite H4, H5.
    apply Z.eqb_neq in H6. rewrite H6, H7, H8.
    by destruct (repository_Lock lib repo).
Qed.

(** X12: the outcome of [repository.Lock] never decides whether the open
    succeeds.  With any other behaviour of [repository.Lock], the open
    fails with the same error or succeeds with the same repository; only
    the lock handed back differs, and an error of the locking is never
    returned. *)
Theorem openResticBackend_ignores_Lock_error (lib : resticLib)
    (uri cryptoKey : string) (extraConfig : option b2Config)
    (lock : nat -> option nat * option error) :
  openResticBackend (with_Lock lib lock) uri cryptoKey extraConfig
  = match openResticBackend lib uri cryptoKey extraConfig with
    | Ok (repo, _) => Ok (repo, (lock repo).1)
    | Err err => Err err
    end.
Proof.
  unfold openResticBackend. simpl.
  destruct (location_Parse lib uri) as [loc|]; [|done].
  destruct (backend_Transport lib); [done|].
  destruct (negb (backends_Lookup (Scheme loc))); [done|].
  destruct (factory_Open lib _) as [be|]; [|done].
  destruct (be_Stat lib be) as [size|]; [|done].
  destruct (size =? 0); [done|].
  destruct (repository_New lib be) as [repo|]; [|done].
  destruct (repo_SearchKey lib repo cryptoKey); [done|].
  destruct (repository_Lock lib repo). by destruct (lock repo) eqn:E.
Qed.

(** X13: the two errors [openResticBackend] makes itself.  A URI that
    parses to a scheme other than b2 and rest is refused as "No such
    backend type", before any backend is opened; a repository whose config
    file has size zero is refused as "Invalid repo size 0". *)
Theorem openResticBackend_rejects (lib : resticLib) (uri cryptoKey : string)
    (extraConfig : option b2Config) (loc : Location) :
  location_Parse lib uri = Ok loc -> backend_Transport lib = None ->
  (Scheme loc <> "b2" -> Scheme loc <> "rest" ->
   openResticBackend lib uri cryptoKey extraConfig = Err "No such backend type")
  /\ (forall be, (Scheme loc = "b2" \/ Scheme loc = "rest") ->
        factory_Open lib (applyExtraConfig loc extraConfig) = Ok be ->
        be_Stat lib be = Ok 0 ->
        openResticBackend lib uri cryptoKey extraConfig = Err "Invalid repo size 0").
Proof.
  intros H1 H2. unfold openResticBackend, backends_Lookup. rewrite H1, H2. split.
  - intros Hb Hr. rewrite !bool_decide_eq_false_2 by done. reflexivity.
  - intros be Hs H4 H5.
    assert (E : bool_decide (Scheme loc = "b2") || bool_decide (Scheme loc = "rest") = true).
    { apply orb_true_iff. rewrite !bool_decide_eq_true. exact Hs. }
    rewrite E. simpl. by rewrite H4, H5.
Qed.

(** A URI of a backend type that is not registered. *)
Lemma openResticBackend_rejects_witness :
  openResticBackend lib_local "local:/srv/restic" "secret" None
  = Err "No such backend type".
Proof.
  apply (openResticBackend_rejects lib_local "local:/srv/restic" "secret" None
           {| Scheme := "local"; Config := rest_Config "local:/srv/restic" |});
    [reflexivity|reflexivity|discriminate|discriminate].
Defined.

Lemma ForAllSnapshots_spec calls listErr : forall col,
  ForAllSnapshots calls listErr col
  = (AddAll col (call_of <$> loaded calls), first_error calls listErr).
Proof.
  induction calls as [|[sn|err] calls IH]; intros col; simpl.
  - done.
  - rewrite IH. reflexivity.
  - rewrite IH. reflexivity.
Qed.

Lemma first_error_None calls listErr :
  first_error calls listErr = None
  <-> listErr = None /\ Forall (fun r => exists sn, r = Ok sn) calls.
Proof.
  induction calls as [|[sn|err] calls IH]; simpl.
  - split; [intros ->; split; [done|constructor]|by intros [-> _]].
  - rewrite IH. split.
    + intros [-> HF]. split; [done|]. constructor; eauto.
    + intros [-> HF]. split; [done|]. by inversion HF.
  - split; [done|]. intros [_ HF]. inversion HF as [|? ? [sn Hsn] _]. done.
Qed.

Lemma loaded_all calls :
  Forall (fun r => exists sn, r = Ok sn) calls -> length (loaded calls) = length calls.
Proof.
  induction 1 as [|r calls [sn ->] _ IH]; simpl; [done|]. unfold loaded in *. simpl.
  by rewrite IH.
Qed.

(** X14: what an enumeration returns.  The collection is the one [Add]
    builds from the snapshots that loaded, in the order of the callback's
    invocations; the error is the first load error, or else the error of
    the listing.  There is no error exactly when the listing had none and
    every snapshot loaded, and then the counts of the collection sum to
    the number of snapshots the repository holds. *)
Theorem collectionFromAllSnapshots_spec (lib : resticLib) (repo : nat) :
  let calls := ForAllSnapshots_calls lib repo in
  let listErr := ForAllSnapshots_err lib repo in
  collectionFromAllSnapshots lib repo
  = (AddAll ∅ (call_of <$> loaded calls), first_error calls listErr)
  /\ ((collectionFromAllSnapshots lib repo).2 = None
      <-> listErr = None /\ Forall (fun r => exists sn, r = Ok sn) calls)
  /\ ((collectionFromAllSnapshots lib repo).2 = None ->
      Z.of_nat (length calls) <= maxInt64 ->
      total (collectionFromAllSnapshots lib repo).1 = Z.of_nat (length calls)).
Proof.
  intros calls listErr. unfold collectionFromAllSnapshots.
  rewrite ForAllSnapshots_spec. fold calls listErr. simpl.
  split; [done|]. split; [apply first_error_None|].
  intros Hnone Hlen. apply first_error_None in Hnone as [_ Hall].
  pose proof (loaded_all calls Hall) as Hl.
  destruct (AddAll_total (call_of <$> loaded calls) ∅) as [Ht _].
  - apply map_Forall_empty.
  - unfold total. rewrite map_fold_empty, length_fmap, Hl. lia.
  - rewrite Ht, length_fmap, Hl. unfold total. rewrite map_fold_empty. lia.
Qed.

(** ** One gatherOne goroutine, and Shutdown *)

(** X15: the shape of every trace of [gatherOne].  It begins by adding to
    the WaitGroup and opening the repository of its entry, and ends by
    marking the WaitGroup done; in between it touches the WaitGroup no
    more and sends exactly one value, named after the repository, with
    either no error or one error and no backup sets.  It logs an error
    exactly when it reports one, and it enumerates, and later unlocks,
    exactly when the open succeeded. *)
Theorem gatherOne_trace (lib : resticLib) (cfg : configEntry) :
  exists mid stats,
    gatherOne lib cfg = [WaitAdd; OpenBackend (Repo cfg)] ++ mid ++ [WaitDone]
    /\ WaitAdd ∉ mid /\ WaitDone ∉ mid
    /\ sent mid = [stats] /\ Name stats = Repo cfg
    /\ (ReadErrors stats = 0 \/ ReadErrors stats = 1 /\ Stats stats = ∅)
    /\ (existsb isLogError mid = bool_decide (ReadErrors stats = 1))
    /\ (existsb isEnumerate mid = existsb isUnlock mid)
    /\ (existsb isEnumerate mid = true
        <-> exists r, openResticBackend lib (Repo cfg) (Password cfg) (ExtraConfig cfg)
                      = Ok r).
Proof.
  destruct (openResticBackend lib (Repo cfg) (Password cfg) (ExtraConfig cfg))
    as [[repo lock]|err] eqn:Hopen.
  - destruct (collectionFromAllSnapshots lib repo) as [col [err|]] eqn:Hcol.
    + rewrite (gatherOne_enumerate_error _ _ _ _ _ _ Hopen Hcol).
      eexists [_; _; _; _], _. split; [reflexivity|].
      repeat split; simpl; try done; try set_solver; eauto.
    + rewrite (gatherOne_success _ _ _ _ _ Hopen Hcol).
      eexists [_; _; _], _. split; [reflexivity|].
      repeat split; simpl; try done; try set_solver; eauto.
  - rewrite (gatherOne_open_error _ _ _ Hopen).
    eexists [_; _], _. split; [reflexivity|].
    repeat split; simpl; try done; try set_solver; eauto.
Qed.

Lemma wait_counter_gatherOne (lib : resticLib) (cfg : configEntry) (k : nat) :
  let tr := gatherOne lib cfg in
  (wait_counter (take k tr) = 0 /\ (k = 0%nat \/ (length tr <= k)%nat))
  \/ (wait_counter (take k tr) = 1 /\ (0 < k < length tr)%nat).
Proof.
  intros tr. unfold tr.
  destruct (openResticBackend lib (Repo cfg) (Password cfg) (ExtraConfig cfg))
    as [[repo lock]|err] eqn:Hopen.
  - destruct (collectionFromAllSnapshots lib repo) as [col [err|]] eqn:Hcol.
    + rewrite (gatherOne_enumerate_error _ _ _ _ _ _ Hopen Hcol).
      do 7 (destruct k as [|k]; [vm_compute; intuition (try lia; try done)|]).
      left. split; [simpl; by rewrite take_nil|right; simpl; lia].
    + rewrite (gatherOne_success _ _ _ _ _ Hopen Hcol).
      do 6 (destruct k as [|k]; [vm_compute; intuition (try lia; try done)|]).
      left. split; [simpl; by rewrite take_nil|right; simpl; lia].
  - rewrite (gatherOne_open_error _ _ _ Hopen).
    do 5 (destruct k as [|k]; [vm_compute; intuition (try lia; try done)|]).
    left. split; [simpl; by rewrite take_nil|right; simpl; lia].
Qed.

Lemma gatherOne_head (lib : resticLib) (cfg : configEntry) :
  gatherOne lib cfg !! 0%nat = Some WaitAdd.
Proof.
  unfold gatherOne.
  destruct (openResticBackend lib (Repo cfg) (Password cfg) (ExtraConfig cfg))
    as [[repo lock]|err]; [|done].
  by destruct (collectionFromAllSnapshots lib repo) as [col [err|]].
Qed.

Lemma progress_counter_nonneg lib gs :
  0 <= foldr (fun tr n => wait_counter tr + n) 0 (progress_of lib gs).
Proof.
  induction gs as [|[cfg k] gs IH]; simpl; [done|].
  destruct (wait_counter_gatherOne lib cfg k) as [[-> _]|[-> _]]; lia.
Qed.

(** X16: what [Shutdown] waits for.  With the goroutines of a run each
    somewhere in its trace, [c.wait.Wait()] returns exactly when every one
    of them has either not yet run its first statement or has run its
    last.  A goroutine that is about to release its lock keeps [Shutdown]
    waiting; one that was started and has not yet called [wait.Add] does
    not. *)
Theorem Shutdown_waits_for_started_goroutines
    (lib : resticLib) (gs : list (configEntry * nat)) :
  (ResticCollector_Shutdown (progress_of lib gs) = true
   <-> Forall (fun g => g.2 = 0%nat \/ (length (gatherOne lib g.1) <= g.2)%nat) gs)
  /\ (forall cfg k lock, (cfg, k) ∈ gs ->
        gatherOne lib cfg !! k = Some (Unlock lock) ->
        ResticCollector_Shutdown (progress_of lib gs) = false).
Proof.
  assert (Hiff : ResticCollector_Shutdown (progress_of lib gs) = true
            <-> Forall (fun g => g.2 = 0%nat \/ (length (gatherOne lib g.1) <= g.2)%nat) gs).
  { unfold ResticCollector_Shutdown. rewrite bool_decide_eq_true.
    induction gs as [|[cfg k] gs IH]; simpl; [split; [constructor|done]|].
    pose proof (progress_counter_nonneg lib gs) as Hnn.
    rewrite Forall_cons. simpl.
    destruct (wait_counter_gatherOne lib cfg k) as [[-> Hk]|[-> Hk]].
    - rewrite Z.add_0_l, IH. tauto.
    - split; [lia|]. intros [[->|H] _]; lia. }
  split; [exact Hiff|].
  intros cfg k lock Hin Hk. apply not_true_is_false. rewrite Hiff.
  intros HF. rewrite Forall_forall in HF. specialize (HF _ Hin). simpl in HF.
  pose proof (lookup_lt_Some _ _ _ Hk) as Hlt.
  destruct HF as [->|HF]; [|lia].
  by rewrite gatherOne_head in Hk.
Qed.

(** ** Every outcome of one repository, from what the library returns *)

Lemma openResticBackend_opens l cfg repo lock :
  openResticBackend l (Repo cfg) (Password cfg) (ExtraConfig cfg) = Ok (repo, lock)
  <-> opens l cfg repo /\ lock = (repository_Lock l repo).1.
Proof.
  unfold opens, openResticBackend, backends_Lookup. split.
  - destruct (location_Parse l (Repo cfg)) as [loc|] eqn:H1; [|done].
    destruct (backend_Transport l) eqn:H2; [done|].
    destruct (bool_decide (Scheme loc = "b2") || bool_decide (Scheme loc = "rest"))
      eqn:H3; simpl; [|done].
    destruct (factory_Open l _) as [be|] eqn:H4; [|done].
    destruct (be_Stat l be) as [size|] eqn:H5; [|done].
    destruct (size =? 0) eqn:H6; [done|].
    destruct (repository_New l be) as [repo'|] eqn:H7; [|done].
    destruct (repo_SearchKey l repo' (Password cfg)) eqn:H8; [done|].
    destruct (repository_Lock l repo') as [lk e] eqn:H9.
    intros [= <- <-]. rewrite H9. split; [|done]. exists loc, be, size.
    apply orb_true_iff in H3. rewrite !bool_decide_eq_true in H3.
    apply Z.eqb_neq in H6. repeat split; done.
  - intros [(loc & be & size & H1 & H2 & H3 & H4 & H5 & H6 & H7 & H8) ->].
    rewrite H1, H2.
    assert (E : bool_decide (Scheme loc = "b2") || bool_decide (Scheme loc = "rest") = true).
    { apply orb_true_iff. rewrite !bool_decide_eq_true. exact H3. }
    rewrite E. simpl. rewrite H4, H5.
    apply Z.eqb_neq in H6. rewrite H6, H7, H8.
    by destruct (repository_Lock l repo).
Qed.

Lemma collectionFromAllSnapshots_enumerates l repo :
  (collectionFromAllSnapshots l repo).2 = None <-> enumerates l repo.
Proof.
  unfold collectionFromAllSnapshots, enumerates.
  rewrite ForAllSnapshots_spec. simpl. apply first_error_None.
Qed.

(** X27: what a task reports, from what the library returns for its
    repository.  When some step of the open before the lock fails on the
    library, and when the open succeeds but the listing returns an error
    or a snapshot does not load, the task sends ReadErrors = 1 and no
    backup sets.  When the open succeeds and the enumeration does, it
    sends ReadErrors = 0 and the collection of the snapshots, whatever
    [repository.Lock] returned.  No value sent has a non-zero error flag
    together with backup sets, and the run the task takes part in
    publishes all the same, with one value per enabled repository, each
    what that repository's task sends on its own. *)
Theorem gatherOne_reports_every_failure (l : resticLib) (cfg : configEntry) :
  let failed := {| Name := Repo cfg; ReadErrors := 1; Stats := ∅ |} in
  ((forall repo, ~ opens l cfg repo) -> sent (gatherOne l cfg) = [failed])
  /\ (forall repo, opens l cfg repo -> ~ enumerates l repo ->
        sent (gatherOne l cfg) = [failed])
  /\ (forall repo, opens l cfg repo -> enumerates l repo ->
        sent (gatherOne l cfg)
        = [{| Name := Repo cfg; ReadErrors := 0;
              Stats := AddAll ∅ (call_of <$> loaded (ForAllSnapshots_calls l repo)) |}])
  /\ (forall stats, stats ∈ sent (gatherOne l cfg) ->
        ReadErrors stats <> 0 -> ReadErrors stats = 1 /\ Stats stats = ∅)
  /\ (forall W file, lib W = l -> cfg ∈ spawned file ->
        exists m, collect W file = Published m
          /\ run_Stats m
             ≡ₚ concat (map (fun e => sent (gatherOne l e)) (spawned file))
          /\ (forall stats, stats ∈ sent (gatherOne l cfg) -> stats ∈ run_Stats m)
          /\ length (run_Stats m) = length (spawned file)).
Proof.
  intros failed.
  assert (Hopen : forall repo, opens l cfg repo ->
            openResticBackend l (Repo cfg) (Password cfg) (ExtraConfig cfg)
            = Ok (repo, (repository_Lock l repo).1)).
  { intros repo Ho. by apply openResticBackend_opens. }
  split; [|split; [|split; [|split]]].
  - intros Hno.
    destruct (openResticBackend l (Repo cfg) (Password cfg) (ExtraConfig cfg))
      as [[repo lock]|err] eqn:Ho.
    + apply openResticBackend_opens in Ho as [Ho _]. by destruct (Hno repo).
    + by rewrite (gatherOne_open_error _ _ _ Ho).
  - intros repo Ho Hne. specialize (Hopen repo Ho).
    destruct (collectionFromAllSnapshots l repo) as [col [err|]] eqn:Hcol.
    + by rewrite (gatherOne_enumerate_error _ _ _ _ _ _ Hopen Hcol).
    + destruct Hne. apply collectionFromAllSnapshots_enumerates. by rewrite Hcol.
  - intros repo Ho He. specialize (Hopen repo Ho).
    apply collectionFromAllSnapshots_enumerates in He.
    destruct (collectionFromAllSnapshots l repo) as [col err] eqn:Hcol.
    simpl in He. subst err.
    rewrite (gatherOne_success _ _ _ _ _ Hopen Hcol). simpl.
    unfold collectionFromAllSnapshots in Hcol. rewrite ForAllSnapshots_spec in Hcol.
    by injection Hcol as <- _.
  - intros stats Hin Hne.
    destruct (openResticBackend l (Repo cfg) (Password cfg) (ExtraConfig cfg))
      as [[repo lock]|err] eqn:Ho.
    + destruct (collectionFromAllSnapshots l repo) as [col [err|]] eqn:Hcol.
      * rewrite (gatherOne_enumerate_error _ _ _ _ _ _ Ho Hcol) in Hin.
        simpl in Hin. apply list_elem_of_singleton in Hin. by subst.
      * rewrite (gatherOne_success _ _ _ _ _ Ho Hcol) in Hin.
        simpl in Hin. apply list_elem_of_singleton in Hin. by subst.
    + rewrite (gatherOne_open_error _ _ _ Ho) in Hin.
      simpl in Hin. apply list_elem_of_singleton in Hin. by subst.
  - intros W file HW Hin.
    assert (Hne : spawned file <> []) by (intros E; rewrite E in Hin; inversion Hin).
    eexists. split; [apply (collect_publishes W file Hne)|]. simpl.
    pose proof (channel_Permutation W file) as HP. rewrite HW in HP.
    split; [exact HP|]. split; [|apply channel_length].
    intros stats Hs. rewrite HP. apply list_elem_of_In, in_concat.
    exists (sent (gatherOne l cfg)). split.
    + apply in_map_iff. exists cfg. split; [done|]. by apply list_elem_of_In.
    + by apply list_elem_of_In.
Qed.

(** A repository in which a snapshot fails to load after one that
    loaded, and one whose URI does not parse. *)
Lemma gatherOne_reports_every_failure_witness :
  sent (gatherOne lib_bad_snapshot (entry false "rest:R1"))
  = [{| Name := "rest:R1"; ReadErrors := 1; Stats := ∅ |}]
  /\ sent (gatherOne lib_ok (entry false "rest:R2"))
     = [{| Name := "rest:R2"; ReadErrors := 1; Stats := ∅ |}].
Proof.
  pose proof (gatherOne_reports_every_failure lib_bad_snapshot (entry false "rest:R1"))
    as H1.
  pose proof (gatherOne_reports_every_failure lib_ok (entry false "rest:R2")) as H2.
  cbv zeta in H1, H2.
  destruct H1 as (_ & H1 & _). destruct H2 as (H2 & _).
  split.
  - apply (H1 2%nat).
    + exists {| Scheme := "rest"; Config := rest_Config "rest:R1" |}, 1%nat, 155.
      repeat split; first [reflexivity | by right | discriminate].
    + intros [_ HF]. inversion HF as [|? ? _ HF']. inversion HF' as [|? ? [sn Hsn] _].
      discriminate.
  - apply H2. intros repo (loc & be & size & H & _). discriminate.
Defined.

(** ** The run a call of GatherMetrics publishes *)

Lemma sent_gatherOne lib cfg :
  exists stats, sent (gatherOne lib cfg) = [stats] /\ Name stats = Repo cfg
    /\ (ReadErrors stats = 0 \/ ReadErrors stats = 1).
Proof.
  destruct (openResticBackend lib (Repo cfg) (Password cfg) (ExtraConfig cfg))
    as [[repo lock]|err] eqn:Hopen.
  - destruct (collectionFromAllSnapshots lib repo) as [col [err|]] eqn:Hcol.
    + rewrite (gatherOne_enumerate_error _ _ _ _ _ _ Hopen Hcol). eexists. eauto.
    + rewrite (gatherOne_success _ _ _ _ _ Hopen Hcol). eexists. eauto.
  - rewrite (gatherOne_open_error _ _ _ Hopen). eexists. eauto.
Qed.

Lemma sent_all lib entries :
  Name <$> concat (map (fun entry => sent (gatherOne lib entry)) entries)
  = Repo <$> entries
  /\ Forall (fun stats => ReadErrors stats = 0 \/ ReadErrors stats = 1)
       (concat (map (fun entry => sent (gatherOne lib entry)) entries)).
Proof.
  induction entries as [|e entries [IH1 IH2]]; [split; [done|constructor]|].
  cbn [map concat]. destruct (sent_gatherOne lib e) as (stats & -> & Hn & Hr).
  split.
  - rewrite fmap_app, IH1, (fmap_cons Repo), <- Hn. reflexivity.
  - apply Forall_app. split; [|done]. constructor; [done|constructor].
Qed.

Lemma sent_filed lib e stats :
  stats ∈ sent (gatherOne lib e) -> map_Forall filed (Stats stats).
Proof.
  destruct (openResticBackend lib (Repo e) (Password e) (ExtraConfig e))
    as [[repo lock]|err] eqn:Hopen.
  - destruct (collectionFromAllSnapshots lib repo) as [col [err|]] eqn:Hcol.
    + rewrite (gatherOne_enumerate_error _ _ _ _ _ _ Hopen Hcol). simpl.
      intros ->%list_elem_of_singleton. apply map_Forall_empty.
    + rewrite (gatherOne_success _ _ _ _ _ Hopen Hcol). simpl.
      intros ->%list_elem_of_singleton. simpl.
      unfold collectionFromAllSnapshots in Hcol. rewrite ForAllSnapshots_spec in Hcol.
      injection Hcol as <- _. apply AddAll_filed, map_Forall_empty.
  - rewrite (gatherOne_open_error _ _ _ Hopen). simpl.
    intros ->%list_elem_of_singleton. apply map_Forall_empty.
Qed.

Lemma tally_failures done : forall e,
  Forall (fun stats => ReadErrors stats = 0 \/ ReadErrors stats = 1) done ->
  tally (int64_wrap e) done = int64_wrap (e + Z.of_nat (failures done)).
Proof.
  unfold tally, failures.
  induction done as [|stats done IH]; intros e HF; simpl.
  - f_equal. lia.
  - inversion HF as [|? ? [H0|H1] HF']; subst.
    + rewrite H0. simpl. rewrite filter_cons_False by lia. by apply IH.
    + rewrite H1. simpl. rewrite filter_cons_True by done.
      rewrite int64_wrap_add, IH by done. f_equal. simpl length. lia.
Qed.

(** X17: what a published run holds.  When a repository is enabled the
    run publishes; its time is the clock reading of the publication; its
    entries are named after the enabled repositories, one each, the
    disabled ones being absent; every entry carries an error flag of 0 or
    1; and the error count of the run is the number of entries flagged
    (in 64-bit arithmetic), which is zero exactly when no repository
    failed. *)
Theorem published_run_contents (W : world) (cfg : ConfigFile) :
  spawned cfg <> [] ->
  exists m, collect W cfg = Published m
    /\ run_Time m = clock W
    /\ Name <$> run_Stats m ≡ₚ Repo <$> spawned cfg
    /\ Forall (fun stats => ReadErrors stats = 0 \/ ReadErrors stats = 1) (run_Stats m)
    /\ run_Errors m = int64_wrap (Z.of_nat (failures (run_Stats m)))
    /\ (Z.of_nat (length (spawned cfg)) <= maxInt64 ->
        run_Errors m = Z.of_nat (failures (run_Stats m))
        /\ 0 <= run_Errors m <= Z.of_nat (length (spawned cfg))
        /\ (run_Errors m = 0 <-> Forall (fun stats => ReadErrors stats = 0) (run_Stats m))).
Proof.
  intros Hne. rewrite (collect_publishes W cfg Hne). eexists. split; [done|]. simpl.
  pose proof (channel_Permutation W cfg) as HP.
  destruct (sent_all (lib W) (spawned cfg)) as [Hnames Hflags]. simpl in *.
  assert (HF : Forall (fun stats => ReadErrors stats = 0 \/ ReadErrors stats = 1)
                 (channel W cfg)) by (by rewrite HP).
  assert (Hlen : (failures (channel W cfg) <= length (spawned cfg))%nat).
  { rewrite <- (channel_length W cfg). unfold failures. apply length_filter. }
  assert (Ht : tally 0 (channel W cfg)
               = int64_wrap (Z.of_nat (failures (channel W cfg)))).
  { change 0 with (int64_wrap 0) at 1. by rewrite tally_failures. }
  split; [done|]. split; [by rewrite HP, Hnames|]. split; [done|].
  split; [done|]. intros Hmax. rewrite Ht.
  rewrite int64_wrap_small by (unfold minInt64, maxInt64 in *; lia).
  split; [done|]. split; [lia|].
  unfold failures. split.
  - intros H0. apply Forall_forall. intros stats Hin.
    rewrite Forall_forall in HF. destruct (HF _ Hin) as [|H1]; [done|].
    assert (stats ∈ filter (fun stats => ReadErrors stats = 1) (channel W cfg))
      by (by apply list_elem_of_filter).
    destruct (filter _ (channel W cfg)); [set_solver|simpl in H0; lia].
  - intros H0. clear -H0. induction H0 as [|stats l Hs _ IH]; [done|].
    by rewrite filter_cons_False by lia.
Qed.

(** A run over one repository that opens and one that does not. *)
Lemma published_run_contents_witness :
  exists m, collect world_ok [entry false "rest:R1"; entry false "rest:R2"] = Published m
    /\ run_Time m = 1000
    /\ Name <$> run_Stats m ≡ₚ ["rest:R1"; "rest:R2"].
Proof.
  destruct (published_run_contents world_ok
              [entry false "rest:R1"; entry false "rest:R2"])
    as (m & H1 & H2 & H3 & _); [discriminate|].
  exists m. split; [exact H1|]. split; [exact H2|exact H3].
Defined.

(** X18: a reload followed by a collection.  When the file loads and a
    repository is enabled in it, the next call of [GatherMetrics] runs to
    its end in five steps, releases the mutex, leaves the configuration
    as the reload stored it, and publishes a run stamped with the clock
    reading whose entries are named after the repositories the file
    enables, one each. *)
Theorem reload_then_collect
    (src : configSource) (filename : string) (sc : option secretsClient)
    (fd : string) (out : ConfigFile) (c : ResticCollector) (W : world) :
  os_Open src filename = Ok fd -> json_Decode src fd = Ok out ->
  (ReloadConfig src c filename sc).2 = None ->
  locked c = false -> spawned out <> [] ->
  let c1 := (ReloadConfig src c filename sc).1 in
  let p := pool_run W (replicate 5 0%nat) (pool0 c1 1) in
  calls p = [Returned false]
  /\ locked (coll p) = false /\ config (coll p) = config c1
  /\ exists m, metrics (coll p) = Some m /\ run_Time m = clock W
       /\ Name <$> run_Stats m ≡ₚ Repo <$> spawned out
       /\ length (run_Stats m) = length (spawned out).
Proof.
  intros H1 H2 Hok Hlocked Hne.
  unfold ReloadConfig in *.
  destruct (NewConfigFileFromFile src filename sc) as [cfg|err] eqn:Hnew; [|done].
  simpl in *.
  pose proof (NewConfigFileFromFile_kept src filename sc fd out cfg H1 H2 Hnew) as Hk.
  pose proof (spawned_kept out cfg Hk) as Hrepos.
  assert (Hne' : spawned cfg <> []).
  { intros E. rewrite E in Hrepos. simpl in Hrepos.
    symmetry in Hrepos. by apply fmap_nil_inv in Hrepos. }
  unfold pool_run, pool_step. simpl. rewrite Hlocked. simpl.
  rewrite (collect_publishes W cfg Hne'). simpl.
  do 3 (split; [done|]). eexists. split; [done|]. simpl. split; [done|].
  pose proof (channel_Permutation W cfg) as HP.
  destruct (sent_all (lib W) (spawned cfg)) as [Hnames _].
  split.
  - by rewrite HP, Hnames, Hrepos.
  - rewrite channel_length. apply (f_equal length) in Hrepos.
    by rewrite !length_fmap in Hrepos.
Qed.

(** The first load of a collector, from a file with an entry whose
    password comes from the secrets store, and the run that follows. *)
Lemma reload_then_collect_witness :
  calls (pool_run world_ok (replicate 5 0%nat)
           (pool0 (ReloadConfig source_vault NewResticCollector "config.json"
                     (Some client_up)).1 1))
  = [Returned false].
Proof.
  apply (reload_then_collect source_vault "config.json" (Some client_up) "[...]"
           [entry false "rest:R1"; entry_vault "rest:R3"] NewResticCollector world_ok);
    try reflexivity.
  discriminate.
Defined.

(** ** Collect, sample by sample *)

Lemma collectRun_Scraped m now clk : exists ms, collectRun m now clk = Scraped ms.
Proof.
  unfold collectRun.
  set (l := MustNewConstMetric lastSuccessTime _ [] :: _).
  assert (HS : is_Some (mapM id l)).
  { apply mapM_is_Some. unfold l.
    repeat (constructor; [by eexists|]). apply collectStats_Some. }
  destruct HS as [ms ->]. eauto.
Qed.

Lemma mapM_id_Some {A : Type} (l : list (option A)) (k : list A) :
  mapM id l = Some k -> l = Some <$> k.
Proof.
  intros H. apply mapM_Some in H. induction H as [|o x l k Hx _ IH]; [done|].
  simpl in *. by rewrite Hx, IH.
Qed.

Lemma collectSet_of_set name now legacyNow set :
  Forall (of_set name set) (collectSet name now legacyNow set).
Proof.
  unfold collectSet.
  repeat apply Forall_cons_2; try apply Forall_nil_2;
    (eexists; split; [reflexivity|]); repeat split; simpl; try done;
    unfold Describe; set_solver.
Qed.

Lemma collectSets_cons name now clk k set sets :
  (collectSets name now clk k (set :: sets)).1
  = collectSet name now (clk k) set ++ (collectSets name now clk (S k) sets).1.
Proof. simpl. by destruct (collectSets name now clk (S k) sets). Qed.

Lemma collectStats_cons now clk k stats l :
  collectStats now clk k (stats :: l)
  = MustNewConstMetric readErrorCount (float64.of_int (ReadErrors stats)) [Name stats]
    :: (collectSets (Name stats) now clk k (snd <$> map_to_list (Stats stats))).1
    ++ collectStats now clk
         (collectSets (Name stats) now clk k (snd <$> map_to_list (Stats stats))).2 l.
Proof. simpl. by destruct (collectSets (Name stats) now clk k _). Qed.

Lemma collectSets_length name now clk sets : forall k,
  length (collectSets name now clk k sets).1 = (3 * length sets)%nat.
Proof.
  induction sets as [|set sets IH]; intros k; [done|].
  rewrite collectSets_cons, length_app, IH. simpl. lia.
Qed.

Lemma collectSets_of_set name now clk sets : forall k,
  Forall (fun o => exists set, set ∈ sets /\ of_set name set o)
         (collectSets name now clk k sets).1.
Proof.
  induction sets as [|set sets IH]; intros k; [constructor|].
  rewrite collectSets_cons. apply Forall_app. split.
  - eapply Forall_impl; [apply collectSet_of_set|].
    intros o Ho. exists set. split; [by left|done].
  - eapply Forall_impl; [apply IH|]. intros o (set' & Hin & Ho).
    exists set'. split; [by right|done].
Qed.

Lemma collectStats_of_stats now clk l : forall k,
  Forall (of_stats l) (collectStats now clk k l).
Proof.
  induction l as [|stats l IH]; intros k; [constructor|].
  rewrite collectStats_cons. apply Forall_cons_2; [|apply Forall_app; split].
  - exists stats. split; [by left|]. by left.
  - eapply Forall_impl; [apply collectSets_of_set|]. intros o (set & Hin & Ho).
    exists stats. split; [by left|]. right. eauto.
  - eapply Forall_impl; [apply IH|]. intros o (stats' & Hin & Ho).
    exists stats'. split; [by right|done].
Qed.

Lemma samples_cons stats l :
  samples (stats :: l) = (S (3 * size (Stats stats)) + samples l)%nat.
Proof. reflexivity. Qed.

Lemma collectStats_length now clk l : forall k,
  length (collectStats now clk k l) = samples l.
Proof.
  induction l as [|stats l IH]; intros k; [done|].
  rewrite collectStats_cons, samples_cons. cbn [length].
  rewrite length_app, collectSets_length, IH, length_fmap, length_map_to_list. lia.
Qed.

Lemma of_stats_described l o :
  of_stats l o -> exists x, o = Some x /\ described x
    /\ exists stats, stats ∈ l /\ head (labelValues x) = Some (Name stats).
Proof.
  intros (stats & Hin & [->|(set & _ & x & -> & Hd & _ & Hl)]).
  - eexists. split; [done|]. split; [split; [unfold Describe; set_solver|done]|].
    exists stats. by split.
  - exists x. split; [done|]. split; [done|]. exists stats. split; [done|].
    destruct (labelValues x) as [|a ?]; [done|]. simpl in *. by injection Hl as ->.
Qed.

(** X19: [Collect] against [Describe].  A scrape of any published run
    ends without a panic; every sample it emits has a descriptor that
    [Describe] announced and one value per label of that descriptor; the
    scrape has two samples for the job, one per repository and three per
    backup set; every labelled sample carries as its first label the name
    of a repository of the run; and the six descriptors have six distinct
    names. *)
Theorem Collect_emits_described_samples (m : allRepoMetrics) (now : Z) (clk : nat -> Z) :
  exists ms, collectRun m now clk = Scraped ms
    /\ Forall described ms
    /\ length ms = (2 + samples (run_Stats m))%nat
    /\ Forall (fun x => labelValues x = []
                 \/ exists stats, stats ∈ run_Stats m
                      /\ head (labelValues x) = Some (Name stats))
              ms
    /\ NoDup (fqName <$> Describe).
Proof.
  destruct (collectRun_Scraped m now clk) as [ms Hms]. exists ms.
  split; [done|]. unfold collectRun in Hms.
  destruct (mapM id _) as [ms'|] eqn:HM in Hms; [|done]. injection Hms as ->.
  apply mapM_id_Some in HM. simpl in HM.
  destruct ms as [|x0 [|x1 ms]]; try done. injection HM as H0 H1 HM.
  subst x0 x1.
  pose proof (collectStats_of_stats now clk (run_Stats m) 0) as HF. rewrite HM in HF.
  pose proof (collectStats_length now clk (run_Stats m) 0) as HL.
  rewrite HM, length_fmap in HL.
  split; [|split; [|split]].
  - repeat apply Forall_cons_2; try (split; [unfold Describe; set_solver|done]).
    apply Forall_forall. intros x Hx.
    assert (Hin : Some x ∈ Some <$> ms) by (by apply list_elem_of_fmap_2).
    rewrite Forall_forall in HF.
    destruct (of_stats_described _ _ (HF _ Hin)) as (x' & [= <-] & Hd & _). done.
  - simpl. by rewrite HL.
  - repeat apply Forall_cons_2; try (by left).
    apply Forall_forall. intros x Hx.
    assert (Hin : Some x ∈ Some <$> ms) by (by apply list_elem_of_fmap_2).
    rewrite Forall_forall in HF.
    destruct (of_stats_described _ _ (HF _ Hin)) as (x' & [= <-] & _ & Hs). by right.
  - unfold Describe. simpl. repeat (apply NoDup_cons_2; [set_solver|]). apply NoDup_nil_2.
Qed.

Lemma NoDup_collectSet name now legacyNow set :
  NoDup (oseries <$> collectSet name now legacyNow set).
Proof.
  unfold collectSet. simpl.
  repeat (apply NoDup_cons_2; [set_solver|]). apply NoDup_nil_2.
Qed.

Lemma of_set_pair name name' set set' o o' :
  of_set name set o -> of_set name' set' o' -> oseries o = oseries o' ->
  name = name' /\ pair_of set = pair_of set'.
Proof.
  intros (x & -> & _ & _ & Hx) (x' & -> & _ & _ & Hx') [= _ E].
  rewrite E in Hx. rewrite Hx in Hx'. injection Hx' as -> H1 H2.
  split; [done|]. unfold pair_of. by rewrite H1, H2.
Qed.

Lemma NoDup_collectSets name now clk sets : forall k,
  NoDup (pair_of <$> sets) ->
  NoDup (oseries <$> (collectSets name now clk k sets).1).
Proof.
  induction sets as [|set sets IH]; intros k Hnd; [constructor|].
  rewrite collectSets_cons, fmap_app. rewrite fmap_cons in Hnd.
  apply NoDup_cons in Hnd as [Hnotin Hnd].
  apply NoDup_app. split; [apply NoDup_collectSet|]. split; [|by apply IH].
  intros x Hx Hx'.
  apply list_elem_of_fmap in Hx as (o & -> & Ho).
  apply list_elem_of_fmap in Hx' as (o' & E & Ho').
  pose proof (collectSet_of_set name now (clk k) set) as H1.
  rewrite Forall_forall in H1. specialize (H1 _ Ho).
  pose proof (collectSets_of_set name now clk sets (S k)) as H2.
  rewrite Forall_forall in H2. destruct (H2 _ Ho') as (set' & Hin & Hof).
  destruct (of_set_pair _ _ _ _ _ _ H1 Hof E) as [_ Hp].
  apply Hnotin. rewrite Hp. by apply list_elem_of_fmap_2.
Qed.

Lemma of_stats_readError l stats o :
  of_stats l o ->
  oseries o = Some (fqName readErrorCount, [Name stats]) ->
  exists stats', stats' ∈ l /\ Name stats' = Name stats.
Proof.
  intros (stats' & Hin & [->|(set & _ & x & -> & _ & Hfq & _)]).
  - intros [= E]. eauto.
  - intros [= E _]. done.
Qed.

Lemma NoDup_collectStats now clk l : forall k,
  NoDup (Name <$> l) ->
  Forall (fun stats => NoDup (pair_of <$> (snd <$> map_to_list (Stats stats)))) l ->
  NoDup (oseries <$> collectStats now clk k l).
Proof.
  induction l as [|stats l IH]; intros k Hnd Hsets; [constructor|].
  rewrite collectStats_cons, fmap_cons, fmap_app. rewrite fmap_cons in Hnd.
  apply NoDup_cons in Hnd as [Hnotin Hnd].
  apply Forall_cons in Hsets as [Hset Hsets].
  pose proof (collectSets_of_set (Name stats) now clk
                (snd <$> map_to_list (Stats stats)) k) as H1.
  rewrite Forall_forall in H1.
  set (k' := (collectSets (Name stats) now clk k _).2).
  pose proof (collectStats_of_stats now clk l k') as H2.
  rewrite Forall_forall in H2.
  apply NoDup_cons_2; [|apply NoDup_app; split; [|split]].
  - intros Hin. apply elem_of_app in Hin as [Hin|Hin].
    + apply list_elem_of_fmap in Hin as (o & E & Ho).
      destruct (H1 _ Ho) as (set & _ & x & -> & _ & Hfq & _).
      injection E as E _. by symmetry in E.
    + apply list_elem_of_fmap in Hin as (o & E & Ho).
      destruct (of_stats_readError l stats o (H2 _ Ho)) as (stats' & Hin' & En);
        [by symmetry|].
      apply Hnotin. rewrite <- En. by apply list_elem_of_fmap_2.
  - by apply NoDup_collectSets.
  - intros x Hx Hx'.
    apply list_elem_of_fmap in Hx as (o & -> & Ho).
    apply list_elem_of_fmap in Hx' as (o' & E & Ho').
    destruct (H1 _ Ho) as (set & _ & Hof).
    destruct (H2 _ Ho') as (stats' & Hin' & [->|(set' & _ & Hof')]).
    * destruct Hof as (x & -> & _ & Hfq & _). injection E as E _. done.
    * destruct (of_set_pair _ _ _ _ _ _ Hof Hof' E) as [En _].
      apply Hnotin. rewrite En. by apply list_elem_of_fmap_2.
  - by apply IH.
Qed.

(** X20: no time series is emitted twice.  When the enabled entries of
    the configuration name distinct repositories, a scrape of the run that
    configuration publishes emits no two samples with the same metric name
    and the same label values, whatever the repositories hold, in whatever
    order their results arrived, and whatever the clock reads. *)
Theorem Collect_series_are_unique
    (W : world) (cfg : ConfigFile) (now : Z) (clk : nat -> Z) :
  NoDup (Repo <$> spawned cfg) ->
  forall m, collect W cfg = Published m ->
    exists ms, collectRun m now clk = Scraped ms /\ NoDup (series <$> ms).
Proof.
  intros Hnd m Hm.
  assert (Hne : spawned cfg <> []).
  { intros E. by rewrite (collect_blocks W cfg E) in Hm. }
  rewrite (collect_publishes W cfg Hne) in Hm. injection Hm as <-.
  pose proof (channel_Permutation W cfg) as HP.
  destruct (sent_all (lib W) (spawned cfg)) as [Hnames _].
  assert (Hnd' : NoDup (Name <$> channel W cfg)) by (by rewrite HP, Hnames).
  assert (Hsets : Forall (fun stats => NoDup (pair_of <$> (snd <$> map_to_list (Stats stats))))
                    (channel W cfg)).
  { apply Forall_forall. intros stats Hin. apply filed_pairs_NoDup.
    rewrite HP in Hin. apply list_elem_of_In, in_concat in Hin as (l & Hl & Hin).
    apply in_map_iff in Hl as (e & <- & _).
    apply (sent_filed (lib W) e). by apply list_elem_of_In. }
  destruct (collectRun_Scraped
              {| run_Time := clock W; run_Errors := tally 0 (channel W cfg);
                 run_Stats := channel W cfg |} now clk) as [ms Hms].
  exists ms. split; [done|]. unfold collectRun in Hms.
  destruct (mapM id _) as [ms'|] eqn:HM in Hms; [|done]. injection Hms as ->.
  apply mapM_id_Some in HM. simpl in HM.
  destruct ms as [|x0 [|x1 ms]]; try done. injection HM as H0 H1 HM. subst x0 x1.
  pose proof (NoDup_collectStats now clk (channel W cfg) 0 Hnd' Hsets) as HN.
  pose proof (collectStats_of_stats now clk (channel W cfg) 0) as HF.
  rewrite HM in HN, HF. rewrite Forall_forall in HF.
  assert (Hlab : forall x, x ∈ ms -> labelValues x <> []).
  { intros x Hx.
    assert (Hin : Some x ∈ Some <$> ms) by (by apply list_elem_of_fmap_2).
    destruct (of_stats_described _ _ (HF _ Hin)) as (x' & [= <-] & _ & stats & _ & Hh).
    intros E. by rewrite E in Hh. }
  rewrite !fmap_cons. apply NoDup_cons_2; [|apply NoDup_cons_2].
  - intros Hin. apply elem_of_cons in Hin as [E|Hin]; [done|].
    apply list_elem_of_fmap in Hin as (x & E & Hx). injection E as _ E.
    by apply (Hlab x Hx).
  - intros Hin. apply list_elem_of_fmap in Hin as (x & E & Hx). injection E as _ E.
    by apply (Hlab x Hx).
  - apply (NoDup_fmap_1 Some). rewrite <- list_fmap_compose.
    rewrite <- list_fmap_compose in HN. exact HN.
Qed.

(** The run over the two repositories "rest:R1" and "rest:R2", scraped. *)
Lemma Collect_series_are_unique_witness :
  exists ms, collectRun run_ok 2000 (fun _ => 2000) = Scraped ms
    /\ NoDup (series <$> ms).
Proof.
  apply (Collect_series_are_unique world_ok
           [entry false "rest:R1"; entry false "rest:R2"] 2000 (fun _ => 2000)).
  - vm_compute. repeat (apply NoDup_cons_2; [set_solver|]). apply NoDup_nil_2.
  - vm_compute. reflexivity.
Defined.

(** X21: the gauges of a backup set carry exact integers.  For a set
    whose count and whose newest time in Unix seconds are below 2^53 in
    magnitude, the three samples have as values the count, the Unix
    seconds of the newest snapshot and the age in days, each without any
    rounding by the conversion to float64. *)
Theorem collectSet_values_exact (name : string) (now legacyNow : Z) (set : snapshotInfo) :
  Z.abs (Count set) < 2 ^ 53 -> Z.abs (time.Unix (Time set)) < 2 ^ 53 ->
  Forall2 (fun o z => exists x, o = Some x /\ (value x == inject_Z z)%Q)
          (collectSet name now legacyNow set)
          [Count set; time.Unix (Time set); DayAge set now].
Proof.
  intros Hc Ht. pose proof (DayAge_range set now) as Hd. unfold collectSet.
  repeat apply Forall2_cons_2; try apply Forall2_nil_2;
    (eexists; split; [reflexivity|]); simpl; apply of_int_exact; lia.
Qed.

(** A set of two snapshots, the newer taken on 2025-11-29, looked at 25
    hours later. *)
Lemma collectSet_values_exact_witness :
  let set := {| Host := "h1"; Username := "u1";
                Time := 63900000000000000000; Count := 2 |} in
  Forall2 (fun o z => exists x, o = Some x /\ (value x == inject_Z z)%Q)
          (collectSet "rest:R1" (Time set + 25 * time.Hour) (Time set + 25 * time.Hour) set)
          [Count set; time.Unix (Time set); DayAge set (Time set + 25 * time.Hour)].
Proof.
  intros set.
  apply (collectSet_values_exact "rest:R1" (Time set + 25 * time.Hour)
           (Time set + 25 * time.Hour) set); vm_compute; reflexivity.
Defined.

Lemma lastSuccess_value_mono t t' :
  minInt64 <= t - time.unixToInternal * time.Second ->
  t <= t' ->
  t' - time.unixToInternal * time.Second <= maxInt64 ->
  (lastSuccess_value t <= lastSuccess_value t')%Q.
Proof.
  intros H1 H2 H3. unfold lastSuccess_value, time.UnixNano.
  rewrite !int64_wrap_small by lia.
  apply div_mono; [reflexivity|]. apply of_int_mono. lia.
Qed.

Lemma lastSuccess_value_bounds t :
  0 <= time.Unix t < 2 ^ 32 ->
  (inject_Z (time.Unix t) <= lastSuccess_value t
   /\ lastSuccess_value t <= inject_Z (time.Unix t + 1))%Q.
Proof.
  intros Hs. unfold lastSuccess_value, time.UnixNano.
  set (n := t - time.unixToInternal * time.Second).
  set (s := time.Unix t) in *.
  assert (Hn : s * 1000000000 <= n < (s + 1) * 1000000000).
  { unfold s, n, time.Unix.
    change time.Second with 1000000000.
    pose proof (Z.div_mod t 1000000000 ltac:(lia)) as E.
    pose proof (Z.mod_pos_bound t 1000000000 ltac:(lia)). lia. }
  rewrite int64_wrap_small by (unfold minInt64, maxInt64; lia).
  assert (Hrep : forall k, 0 <= k <= s + 1 ->
            (inject_Z (k * 1000000000) == inject_Z (k * 1953125) * 2 ^ 9)%Q).
  { intros k Hk. change (2 ^ 9)%Q with (inject_Z 512).
    rewrite <- inject_Z_mult. apply inject_Z_injective. lia. }
  split.
  - apply round64_ge_Z; [lia|].
    apply Qle_shift_div_l; [reflexivity|].
    change 1000000000%Q with (inject_Z 1000000000). rewrite <- inject_Z_mult.
    rewrite (Hrep s) by lia. apply round64_ge; [lia|lia|].
    rewrite <- (Hrep s) by lia. rewrite <- Zle_Qle. lia.
  - apply round64_le_Z; [lia|].
    apply Qle_shift_div_r; [reflexivity|].
    change 1000000000%Q with (inject_Z 1000000000). rewrite <- inject_Z_mult.
    rewrite (Hrep (s + 1)) by lia. apply round64_le; [lia|lia|].
    rewrite <- (Hrep (s + 1)) by lia. rewrite <- Zle_Qle. lia.
Qed.

(** X22: the gauge of the last successful run.  For a run published
    between 1970 and 2106, the first sample of a scrape is the gauge
    job_last_success_unixtime, without labels, and its value lies between
    the Unix second of the publication and the next second, the two
    roundings of [float64(UnixNano)/1e9] notwithstanding; and a run
    published later never reports a smaller value. *)
Theorem Collect_lastSuccessTime (m : allRepoMetrics) (now : Z) (clk : nat -> Z) :
  0 <= time.Unix (run_Time m) < 2 ^ 32 ->
  exists x ms, collectRun m now clk = Scraped (x :: ms)
    /\ desc x = lastSuccessTime /\ labelValues x = []
    /\ (inject_Z (time.Unix (run_Time m)) <= value x)%Q
    /\ (value x <= inject_Z (time.Unix (run_Time m) + 1))%Q
    /\ forall m' x' ms', run_Time m <= run_Time m' ->
         time.Unix (run_Time m') < 2 ^ 32 ->
         collectRun m' now clk = Scraped (x' :: ms') -> (value x <= value x')%Q.
Proof.
  intros Hs.
  assert (Hhead : forall m0, exists ms,
            collectRun m0 now clk
            = Scraped ({| desc := lastSuccessTime;
                          value := lastSuccess_value (run_Time m0);
                          labelValues := [] |} :: ms)).
  { intros m0. destruct (collectRun_Scraped m0 now clk) as [ms Hms].
    rewrite Hms. unfold collectRun in Hms.
    destruct (mapM id _) as [ms'|] eqn:HM in Hms; [|done]. injection Hms as ->.
    apply mapM_id_Some in HM. simpl in HM.
    destruct ms as [|x0 ms]; [done|]. injection HM as H0 _. subst x0. by exists ms. }
  destruct (Hhead m) as [ms Hms]. eexists _, ms. split; [exact Hms|]. simpl.
  destruct (lastSuccess_value_bounds (run_Time m) Hs) as [Hlo Hhi].
  do 4 (split; [done|]).
  intros m' x' ms' Hle Hs' Hm'. destruct (Hhead m') as [ms'' E].
  rewrite E in Hm'. injection Hm' as <- _. simpl.
  assert (Hsec : time.Unix (run_Time m) <= time.Unix (run_Time m')).
  { unfold time.Unix. apply Z.sub_le_mono_r, Z.div_le_mono; [done|exact Hle]. }
  assert (Hr : forall t, 0 <= time.Unix t < 2 ^ 32 ->
            0 <= t - time.unixToInternal * time.Second < 2 ^ 62).
  { intros t. unfold time.Unix. change time.Second with 1000000000.
    pose proof (Z.div_mod t 1000000000 ltac:(lia)).
    pose proof (Z.mod_pos_bound t 1000000000 ltac:(lia)). lia. }
  pose proof (Hr _ Hs). pose proof (Hr (run_Time m') ltac:(lia)).
  apply lastSuccess_value_mono; unfold minInt64, maxInt64; lia.
Qed.

(** A run published a quarter of a second into a second of 2025. *)
Lemma Collect_lastSuccessTime_witness :
  exists x ms, collectRun run_2025 0 (fun _ => 0) = Scraped (x :: ms)
    /\ (inject_Z 1764403200 <= value x)%Q /\ (value x <= inject_Z 1764403201)%Q.
Proof.
  destruct (Collect_lastSuccessTime run_2025 0 (fun _ => 0))
    as (x & ms & H1 & _ & _ & H2 & H3 & _); [vm_compute; split; congruence|].
  exists x, ms. split; [exact H1|]. split; [exact H2|exact H3].
Defined.

(** ** The process: invariants of every interleaving *)

Ltac events_ok := repeat (apply Forall_cons_2; [reflexivity|]); apply Forall_nil_2.

Lemma count_holding_app l1 l2 :
  count_holding (l1 ++ l2) = (count_holding l1 + count_holding l2)%nat.
Proof. unfold count_holding. by rewrite List.filter_app, length_app. Qed.

Lemma count_holding_cons st l :
  count_holding (st :: l) = ((if holding st then 1 else 0) + count_holding l)%nat.
Proof. unfold count_holding. simpl. by destruct (holding st). Qed.

Lemma count_holding_spawn l : count_holding (l ++ [AtTryLock]) = count_holding l.
Proof. rewrite count_holding_app. change (count_holding [AtTryLock]) with 0%nat. lia. Qed.

Lemma count_holding_calls mc gs :
  count_holding (match mc with Some st => st :: gs | None => gs end)
  = (count_holding (option_list mc) + count_holding gs)%nat.
Proof. destruct mc as [st|]; [|done]. by rewrite <- count_holding_app. Qed.

Lemma count_holding_lookup l : forall i st,
  l !! i = Some st -> ((if holding st then 1 else 0) <= count_holding l)%nat.
Proof.
  induction l as [|x l IH]; intros [|i] st H; try done; simpl in *;
    rewrite count_holding_cons.
  - injection H as ->. lia.
  - specialize (IH _ _ H). lia.
Qed.

Lemma count_holding_insert l : forall i st st',
  l !! i = Some st ->
  (count_holding (<[i := st']> l) + (if holding st then 1 else 0)
   = count_holding l + (if holding st' then 1 else 0))%nat.
Proof.
  induction l as [|x l IH]; intros [|i] st st' H; try done; simpl in *;
    rewrite !count_holding_cons.
  - injection H as ->. lia.
  - specialize (IH _ _ st' H). lia.
Qed.

Lemma Collect_collector c now clk : (Collect c now clk).1 = c.
Proof. unfold Collect. by destruct (metrics c). Qed.

Lemma exit_with_exited s evs : exited (exit_with s evs).
Proof. by repeat split. Qed.

Lemma NoNil_app l evs :
  Forall (fun e => isNilConfig e = false) l ->
  Forall (fun e => isNilConfig e = false) evs ->
  Forall (fun e => isNilConfig e = false) (l ++ evs).
Proof. intros. by apply Forall_app. Qed.

(** What a step of [GatherMetrics] does to the lock, given that the
    configuration is set: the events carry no nil dereference, the
    configuration stays, and the lock is held afterwards exactly when it
    was held by another call or this call holds it. *)
Lemma GatherMetrics_step_lock W c st who :
  config c <> None ->
  let '(c', st', evs) := GatherMetrics_step W c st in
  config c' = config c
  /\ Forall (fun e => isNilConfig e = false) (map (Call who) evs)
  /\ (st' = Panicked -> st = Panicked)
  /\ forall others : nat,
       (others + (if holding st then 1 else 0) = if locked c then 1 else 0)%nat ->
       (others + (if holding st' then 1 else 0) = if locked c' then 1 else 0)%nat.
Proof.
  intros Hcfg. destruct st as [| |cfg|m| |busy|]; simpl.
  - destruct (locked c) eqn:E; simpl.
    + split; [done|]. split; [events_ok|]. split; [done|]. intros others. by rewrite E.
    + split; [done|]. split; [events_ok|]. split; [done|]. intros others. lia.
  - destruct (config c) as [cfg|] eqn:E; [|done]. simpl.
    split; [done|]. split; [events_ok|]. done.
  - destruct (collect W cfg); simpl; (split; [done|]); (split; [events_ok|]); done.
  - split; [done|]. split; [events_ok|]. done.
  - split; [done|]. split; [events_ok|]. split; [done|].
    intros others. destruct (locked c); lia.
  - split; [done|]. split; [events_ok|]. done.
  - split; [done|]. split; [events_ok|]. done.
Qed.

Lemma sys_inv_step E a s : sys_inv s -> sys_inv (step E a s).
Proof.
  intros [Hlog [Hns|[Hup|Hex]]].
  - (* before the configuration is loaded *)
    destruct Hns as (Hrest & Hc & Hmc & Hgs & Hss & Hhl & Hlg).
    destruct s as [c mr mc gs ss hl cd sg lg]; simpl in *; subst.
    destruct a as [|i| |sig|now clk]; simpl.
    + unfold main_step; simpl.
      destruct Hrest as [->| ->]; simpl.
      * split; [constructor|]. left. by repeat split; try right.
      * unfold ReloadConfig.
        destruct (NewConfigFileFromFile _ _ _) as [cfg|err]; simpl.
        -- split; [constructor|]. right; left. unfold started_up, holders; simpl.
           repeat split; try done; set_solver.
        -- split; [events_ok|]. right; right. apply exit_with_exited.
    + split; [constructor|]. left. by repeat split.
    + split; [constructor|]. left. by repeat split.
    + split; [constructor|]. left. by repeat split.
    + split; [constructor|]. left. by repeat split.
  - (* after it *)
    destruct Hup as (Hsl & Hnc & Hnr & Hcfg & Hh).
    destruct s as [c mr mc gs ss hl cd sg lg]; unfold holders, running_calls in *;
      simpl in *.
    destruct a as [|i| |sig|now clk]; simpl.
    + unfold main_step; simpl. destruct mc as [st|].
      * pose proof (GatherMetrics_step_lock (env_world E) c st None Hcfg) as HG.
        destruct (GatherMetrics_step (env_world E) c st) as [[c' st'] evs].
        destruct HG as (Hc' & Hevs & Hpan & Hlock).
        rewrite count_holding_cons in Hh.
        assert (Hh' : (count_holding gs + (if holding st' then 1 else 0)
                       = if locked c' then 1 else 0)%nat) by (apply Hlock; lia).
        destruct st'; simpl in *;
          try (split; [by apply NoNil_app|]; right; left;
               unfold started_up, holders, running_calls; simpl;
               rewrite ?count_holding_cons; simpl;
               repeat split; try done; try congruence; lia).
        split; [by apply NoNil_app|]. right; right. apply exit_with_exited.
      * destruct mr as [|stmt rest]; [set_solver|].
        destruct stmt; simpl.
        -- set_solver.
        -- set_solver.
        -- destruct (env_cron_ok E).
           ++ split; [done|]. right; left. unfold started_up, holders, running_calls.
              simpl. repeat split; try done; set_solver.
           ++ split; [apply NoNil_app; [done|events_ok]|].
              right; right. apply exit_with_exited.
        -- split; [done|]. right; left. unfold started_up, holders, running_calls.
           simpl. repeat split; try done; set_solver.
        -- split; [done|]. right; left. unfold started_up, holders, running_calls.
           simpl. repeat split; try done; set_solver.
        -- split; [done|]. right; left. unfold started_up, holders, running_calls.
           simpl. repeat split; try done; set_solver.
        -- destruct sg as [|[| |] pending]; simpl.
           ++ destruct cd.
              ** split; [apply NoNil_app; [done|events_ok]|].
                 right; right. apply exit_with_exited.
              ** split; [done|]. right; left.
                 unfold started_up, holders, running_calls. by simpl.
           ++ unfold ReloadConfig.
              destruct (NewConfigFileFromFile _ _ _) as [cfg|err]; simpl.
              ** split; [by rewrite app_nil_r|]. right; left.
                 unfold started_up, holders, running_calls. by simpl.
              ** split; [apply NoNil_app; [done|events_ok]|]. right; left.
                 unfold started_up, holders, running_calls. by simpl.
           ++ split; [done|]. right; left.
              unfold started_up, holders, running_calls. simpl.
              repeat split; try done.
              by rewrite count_holding_spawn.
           ++ split; [done|]. right; left.
              unfold started_up, holders, running_calls. by simpl.
    + destruct (gs !! i) as [st|] eqn:Hi; simpl.
      * pose proof (GatherMetrics_step_lock (env_world E) c st (Some i) Hcfg) as HG.
        destruct (GatherMetrics_step (env_world E) c st) as [[c' st'] evs].
        destruct HG as (Hc' & Hevs & Hpan & Hlock).
        rewrite count_holding_calls in Hh.
        pose proof (count_holding_insert gs i st st' Hi) as Hins.
        assert (Hh' : (count_holding (option_list mc) + count_holding (<[i := st']> gs)
                       = if locked c' then 1 else 0)%nat).
        { pose proof (count_holding_lookup gs i st Hi) as Hle.
          specialize (Hlock (count_holding (option_list mc) + count_holding gs
                             - (if holding st then 1 else 0))%nat).
          destruct (holding st), (holding st'), (locked c), (locked c'); lia. }
        destruct st'; simpl in *;
          try (split; [by apply NoNil_app|]; right; left;
               unfold started_up, holders, running_calls; simpl;
               rewrite count_holding_calls;
               repeat split; try done; try congruence; lia).
        split; [by apply NoNil_app|]. right; right. apply exit_with_exited.
      * split; [done|]. right; left.
        unfold started_up, holders, running_calls. by simpl.
    + destruct ss; simpl.
      * split; [done|]. right; left.
        unfold started_up, holders, running_calls. simpl.
        repeat split; try done.
        destruct mc; by rewrite ?app_comm_cons, count_holding_spawn.
      * split; [done|]. right; left.
        unfold started_up, holders, running_calls. by simpl.
    + split; [done|]. right; left.
      unfold started_up, holders, running_calls. by simpl.
    + destruct hl; simpl.
      * pose proof (Collect_collector c now clk) as HC.
        destruct (Collect c now clk) as [c' r]. simpl in *. subst c'.
        split; [apply NoNil_app; [done|events_ok]|]. right; left.
        unfold started_up, holders, running_calls. by simpl.
      * split; [done|]. right; left.
        unfold started_up, holders, running_calls. by simpl.
  - (* after the exit *)
    destruct Hex as (Hrest & Hmc & Hgs & Hss & Hhl).
    destruct s as [c mr mc gs ss hl cd sg lg]; simpl in *; subst.
    destruct a as [|i| |sig|now clk]; simpl;
      (split; [done|]); right; right; by repeat split.
Qed.

Lemma sys_inv_boot : sys_inv boot.
Proof. split; [constructor|]. left. by repeat split; try left. Qed.

Lemma sys_inv_run E acts : forall s, sys_inv s -> sys_inv (run E acts s).
Proof.
  induction acts as [|a acts IH]; intros s Hs; [done|].
  simpl. by apply IH, sys_inv_step.
Qed.

(** X23: mutual exclusion of the collections, in the whole process.  In
    every state the process reaches from its start, whatever main does and
    however the scheduler's runs, the signals and the scrapes interleave,
    at most one call of [GatherMetrics] is between its [TryLock] and its
    [Unlock]; the mutex is held when one is, and until the process exits
    it is held only then. *)
Theorem GatherMetrics_mutual_exclusion (E : environment) (acts : list action) :
  let s := run E acts boot in
  (holders s <= 1)%nat
  /\ (holders s = 1%nat -> locked (collector s) = true)
  /\ (main_rest s <> [] -> locked (collector s) = true -> holders s = 1%nat).
Proof.
  intros s. destruct (sys_inv_run E acts boot sys_inv_boot) as [_ H]. fold s in H.
  destruct H as [(_ & Hc & Hmc & Hgs & _)|[(_ & _ & _ & _ & Hh)|(Hr & Hmc & Hgs & _)]].
  - unfold holders, running_calls. rewrite Hmc, Hgs, Hc. simpl.
    change (count_holding []) with 0%nat. repeat split; try done; lia.
  - rewrite Hh. destruct (locked (collector s)); repeat split; try done; lia.
  - unfold holders, running_calls. rewrite Hmc, Hgs.
    change (count_holding []) with 0%nat. repeat split; try done; lia.
Qed.

(** X24: the configuration is stored before anything can load it.  In
    every state the process reaches, no call of [GatherMetrics] has
    dereferenced a nil configuration, and whenever a call is in progress,
    the scheduler has been started or the server listens, the
    configuration pointer is set. *)
Theorem GatherMetrics_never_loads_nil_config (E : environment) (acts : list action) :
  let s := run E acts boot in
  (forall who, Call who NilConfig ∉ log s)
  /\ (running_calls s <> [] \/ sched_started s = true \/ http_listening s = true ->
      exists cfg, config (collector s) = Some cfg).
Proof.
  intros s. destruct (sys_inv_run E acts boot sys_inv_boot) as [Hlog H]. fold s in H, Hlog.
  split.
  - intros who Hin. rewrite Forall_forall in Hlog. by specialize (Hlog _ Hin).
  - destruct H as [(_ & Hc & Hmc & Hgs & Hss & Hhl & _)
                  |[(_ & _ & _ & Hcfg & _)|(Hr & Hmc & Hgs & Hss & Hhl)]].
    + unfold running_calls. rewrite Hmc, Hgs, Hss, Hhl. intros [|[|]]; done.
    + intros _. destruct (config (collector s)); [eauto|done].
    + unfold running_calls. rewrite Hmc, Hgs, Hss, Hhl. intros [|[|]]; done.
Qed.

Lemma fatal_inv_step E err a n s :
  NewConfigFileFromFile (env_source E) (env_configFile E) (env_secrets E) = Err err ->
  fatal_inv n s ->
  fatal_inv (n + (if isRunMain a then 1 else 0)) (step E a s).
Proof.
  intros Herr (Hc & Hmc & Hgs & Hss & Hhl & Hn).
  destruct s as [c mr mc gs ss hl cd sg lg]; simpl in *; subst.
  destruct a as [|i| |sig|now clk]; simpl; rewrite ?Nat.add_0_r;
    try (by repeat split).
  unfold main_step; simpl.
  destruct n as [|[|n]]; destruct Hn as [-> ->]; simpl.
  - by repeat split.
  - unfold ReloadConfig. rewrite Herr. by repeat split.
  - by repeat split.
Qed.

Lemma fatal_inv_run E err acts :
  NewConfigFileFromFile (env_source E) (env_configFile E) (env_secrets E) = Err err ->
  forall n s, fatal_inv n s -> fatal_inv (n + main_steps acts) (run E acts s).
Proof.
  intros Herr. induction acts as [|a acts IH]; intros n s Hs.
  - unfold main_steps. simpl. by rewrite Nat.add_0_r.
  - simpl. apply (fatal_inv_step E err a) in Hs; [|done].
    apply IH in Hs. unfold main_steps in *. simpl.
    destruct (isRunMain a); simpl in *.
    + by replace (n + S (length (List.filter isRunMain acts)))%nat
        with (n + 1 + length (List.filter isRunMain acts))%nat by lia.
    + by rewrite Nat.add_0_r in Hs.
Qed.

(** X25: a start with a configuration that does not load.  Whatever the
    interleaving, the process never starts the scheduler, never listens,
    never starts a collection and stores nothing in the collector; no step
    of a collection and no scrape is ever recorded; the only fatal error
    of the statements followed is the one of the configuration load, and
    it occurs exactly when main has run [NewResticCollector] and
    [ReloadConfig], at which point the process has exited. *)
Theorem main_exits_when_the_configuration_fails
    (E : environment) (err : error) (acts : list action) :
  NewConfigFileFromFile (env_source E) (env_configFile E) (env_secrets E) = Err err ->
  let s := run E acts boot in
  sched_started s = false /\ http_listening s = false
  /\ goroutines s = [] /\ main_call s = None
  /\ collector s = NewResticCollector
  /\ (forall who e, Call who e ∉ log s)
  /\ (forall r, Served r ∉ log s)
  /\ (forall msg, Fatal msg ∈ log s -> msg = "Error loading configuration")
  /\ (Fatal "Error loading configuration" ∈ log s <-> (2 <= main_steps acts)%nat)
  /\ ((2 <= main_steps acts)%nat <-> main_rest s = []).
Proof.
  intros Herr s.
  assert (H0 : fatal_inv 0 boot) by (by repeat split).
  apply (fatal_inv_run E err acts Herr) in H0. fold s in H0. simpl in H0.
  destruct H0 as (Hc & Hmc & Hgs & Hss & Hhl & Hn).
  do 5 (split; [done|]).
  destruct (main_steps acts) as [|[|n]]; destruct Hn as [Hrest ->]; rewrite Hrest;
    repeat split; first [done | lia | (intros; lia) | set_solver].
Qed.

(** A file that does not parse; the scheduler, a signal and a scrape are
    tried along the way. *)
Lemma main_exits_when_the_configuration_fails_witness :
  Fatal "Error loading configuration"
  ∈ log (run env_broken [RunMain; CronFires; Deliver SIGUSR1; RunMain;
                         Scrape 2000 (fun _ => 2000); RunMain] boot).
Proof.
  apply (main_exits_when_the_configuration_fails env_broken
           "unexpected end of JSON input"
           [RunMain; CronFires; Deliver SIGUSR1; RunMain;
            Scrape 2000 (fun _ => 2000); RunMain]); [reflexivity|].
  vm_compute. lia.
Defined.

(** ** A start during which the scheduler does not fire *)

Lemma GatherMetrics_step_metrics W c st :
  metrics c <> None -> metrics (GatherMetrics_step W c st).1.1 <> None.
Proof.
  intros H. destruct st; simpl; try done.
  - by destruct (locked c).
  - by destruct (config c).
  - by destruct (collect W cfg).
Qed.

Lemma GatherMetrics_step_goroutine_quiet W c st i :
  Forall (fun e => quiet_ok e = true) (map (Call (Some i)) (GatherMetrics_step W c st).2).
Proof.
  destruct st; simpl; try events_ok.
  - destruct (locked c); events_ok.
  - destruct (config c); events_ok.
  - destruct (collect W cfg); events_ok.
Qed.

Lemma quiet_inv_step E a s :
  isCronFires a = false -> quiet_inv s -> quiet_inv (step E a s).
Proof.
  intros Ha [Hlog [Hb|[Hi|[Haf|Hex]]]].
  - destruct Hb as ((k & Hk & Hrest) & Hmc & Hgs & Hl & Hhl).
    destruct s as [c mr mc gs ss hl cd sg lg]; simpl in *; subst.
    destruct a as [|i| |sig|now clk]; simpl; try done;
      try (split; [done|]; left; repeat split; eauto; fail).
    unfold main_step; simpl.
    destruct k as [|[|[|[|[|k]]]]]; try lia; simpl.
    + split; [done|]. left. repeat split; try done. exists 1%nat. split; [lia|done].
    + unfold ReloadConfig.
      destruct (NewConfigFileFromFile _ _ _) as [cfg|err]; simpl.
      * split; [done|]. left. repeat split; try done. exists 2%nat. split; [lia|done].
      * split; [apply Forall_app; split; [done|events_ok]|].
        do 3 right. apply exit_with_exited.
    + destruct (env_cron_ok E).
      * split; [done|]. left. repeat split; try done. exists 3%nat. split; [lia|done].
      * split; [apply Forall_app; split; [done|events_ok]|].
        do 3 right. apply exit_with_exited.
    + split; [done|]. left. repeat split; try done. exists 4%nat. split; [lia|done].
    + split; [done|]. right; left. repeat split; try done. by exists AtTryLock.
  - destruct Hi as (Hrest & Hgs & Hhl & st & Hmc & Hst).
    destruct s as [c mr mc gs ss hl cd sg lg]; simpl in *; subst.
    destruct a as [|i| |sig|now clk]; simpl; try done;
      try (split; [done|]; right; left; repeat split; eauto; fail).
    unfold main_step; simpl.
    destruct st as [| |cfg|m| |busy|]; simpl; try done.
    + rewrite Hst. simpl. split; [apply Forall_app; split; [done|events_ok]|].
      right; left. repeat split; try done. by exists AtLoad.
    + destruct (config c) as [cfg|]; simpl.
      * split; [apply Forall_app; split; [done|events_ok]|].
        right; left. repeat split; try done. by exists (AtReceive cfg).
      * split; [apply Forall_app; split; [done|events_ok]|].
        do 3 right. apply exit_with_exited.
    + destruct (collect (env_world E) cfg) as [m|m]; simpl.
      * split; [by rewrite app_nil_r|].
        right; left. repeat split; try done. by exists (AtStore m).
      * split; [by rewrite app_nil_r|].
        right; left. repeat split; try done. by exists (AtReceive cfg).
    + split; [apply Forall_app; split; [done|events_ok]|].
      right; left. repeat split; try done. by exists AtUnlock.
    + split; [apply Forall_app; split; [done|events_ok]|].
      right; right; left. repeat split; try done. by left.
  - destruct Haf as (Hrest & Hmc & Hm).
    destruct s as [c mr mc gs ss hl cd sg lg]; simpl in *; subst.
    destruct a as [|i| |sig|now clk]; simpl; try done.
    + unfold main_step; simpl. destruct Hrest as [-> | ->]; simpl.
      * split; [done|]. right; right; left. repeat split; try done. by right.
      * destruct sg as [|[| |] pending]; simpl.
        -- destruct cd.
           ++ split; [apply Forall_app; split; [done|events_ok]|].
              do 3 right. apply exit_with_exited.
           ++ split; [done|]. right; right; left. repeat split; try done. by right.
        -- unfold ReloadConfig.
           destruct (NewConfigFileFromFile _ _ _) as [cfg|err]; simpl.
           ++ split; [by rewrite app_nil_r|].
              right; right; left. repeat split; try done. by right.
           ++ split; [apply Forall_app; split; [done|events_ok]|].
              right; right; left. repeat split; try done. by right.
        -- split; [done|]. right; right; left. repeat split; try done. by right.
        -- split; [done|]. right; right; left. repeat split; try done. by right.
    + destruct (gs !! i) as [st|] eqn:Hi; simpl.
      * pose proof (GatherMetrics_step_metrics (env_world E) c st Hm) as Hm'.
        pose proof (GatherMetrics_step_goroutine_quiet (env_world E) c st i) as Hq.
        destruct (GatherMetrics_step (env_world E) c st) as [[c' st'] evs].
        simpl in *.
        destruct st'; simpl;
          try (split; [by apply Forall_app|]; right; right; left; by repeat split).
        split; [by apply Forall_app|]. do 3 right. apply exit_with_exited.
      * split; [done|]. right; right; left. by repeat split.
    + split; [done|]. right; right; left. by repeat split.
    + destruct hl; simpl.
      * unfold Collect. destruct (metrics c) as [m|] eqn:Hmc; [|done]. simpl.
        destruct (collectRun_Scraped m now clk) as [ms ->].
        split; [apply Forall_app; split; [done|events_ok]|].
        right; right; left. repeat split; try done. simpl. by rewrite Hmc.
      * split; [done|]. right; right; left. by repeat split.
  - destruct Hex as (Hrest & Hmc & Hgs & Hss & Hhl).
    destruct s as [c mr mc gs ss hl cd sg lg]; simpl in *; subst.
    destruct a as [|i| |sig|now clk]; simpl; try done;
      (split; [done|]); do 3 right; by repeat split.
Qed.

Lemma quiet_inv_run E acts : forall s,
  forallb (fun a => negb (isCronFires a)) acts = true ->
  quiet_inv s -> quiet_inv (run E acts s).
Proof.
  induction acts as [|a acts IH]; intros s Hacts Hs; [done|].
  simpl in *. apply andb_true_iff in Hacts as [Ha Hacts].
  apply IH; [done|]. apply quiet_inv_step; [|done]. by destruct (isCronFires a).
Qed.

(** X26: a start during which the cron expression does not match.  In
    every interleaving without a firing of the scheduler, the call of
    [GatherMetrics] main makes is never turned away, the server listens
    only once a run has been published, and every scrape that is served is
    answered with samples: none ends in a panic. *)
Theorem quiet_start_serves_published_runs (E : environment) (acts : list action) :
  forallb (fun a => negb (isCronFires a)) acts = true ->
  let s := run E acts boot in
  (forall r, Served r ∈ log s -> exists ms, r = Scraped ms)
  /\ Call None LogBusy ∉ log s
  /\ (http_listening s = true -> exists m, metrics (collector s) = Some m).
Proof.
  intros Hacts s.
  assert (H0 : quiet_inv boot).
  { split; [constructor|]. left. repeat split; try done. exists 0%nat. split; [lia|done]. }
  apply (quiet_inv_run E acts boot Hacts) in H0. fold s in H0.
  destruct H0 as [Hlog H]. rewrite Forall_forall in Hlog.
  split; [|split].
  - intros r Hin. specialize (Hlog _ Hin). destruct r; try done. eauto.
  - intros Hin. by specialize (Hlog _ Hin).
  - destruct H as [(_ & _ & _ & _ & Hhl)|[(_ & _ & Hhl & _)|[(_ & _ & Hm)|(_ & _ & _ & _ & Hhl)]]];
      try (rewrite Hhl; done).
    intros _. destruct (metrics (collector s)); [eauto|done].
Qed.

(** The start in which main runs undisturbed and is then scraped. *)
Lemma quiet_start_serves_published_runs_witness :
  exists m, metrics (collector (run env_ok startup_quiet boot)) = Some m.
Proof.
  apply (quiet_start_serves_published_runs env_ok startup_quiet); reflexivity.
Defined.
